(** * Typing game: a shallow embedding of the game engine

    The development follows the three classes of the program:
    [Enemy] (Enemy.js), [Queue] (Queue.js) and [Game] (Game.js).

    Conventions of the embedding:
    - JavaScript strings are [string]s of ASCII characters;
    - integer-valued numbers (score, sizes, delays, limits) are [Z];
      numbers that take fractional values (the difficulty level, the
      completion percentage, the random source) are exact rationals [Q];
      where the rounding of a floating-point operation reaches the result
      (the animation duration), it is applied with [binary64];
    - mutable [Enemy] objects live in a store addressed by references, so
      that the queue, the registry and the current target share them;
    - the DOM and the timers are a sink: every write to them is appended
      to a trace of [effect]s; the fields of [Game] that only hold DOM
      elements are not kept, and [console.log] is left out;
    - [Math.random()] is an input of the handlers that call it;
    - a handler is a state transformer that either completes or throws, and
      what it wrote before throwing stays written. *)

From Stdlib Require Import Ascii String QArith Qround Qpower Qabs Lqa.
From stdpp Require Import gmap strings list fin_maps.

Set Default Proof Using "Type".

Local Open Scope Z_scope.

(** ** JavaScript values used as string elements, map keys and flags *)

Inductive jsval :=
  | VStr (s : string)
  | VUndefined
  | VNull.

Global Instance jsval_eq_dec : EqDecision jsval.
Proof. solve_decision. Defined.

Definition jsval_enc (v : jsval) : string + bool :=
  match v with
  | VStr s => inl s
  | VUndefined => inr false
  | VNull => inr true
  end.

Definition jsval_dec (x : string + bool) : jsval :=
  match x with
  | inl s => VStr s
  | inr false => VUndefined
  | inr true => VNull
  end.

Global Instance jsval_countable : Countable jsval.
Proof.
  apply (inj_countable' jsval_enc jsval_dec).
  by intros [].
Defined.

(** A number that may have left the rationals ([1/0], [undefined - 1]). *)
Inductive jsnum :=
  | Fin (q : Q)
  | Inf
  | NaN.

(** [s[i]]: the one-character string at index [i], or [undefined]. *)
Definition index (s : string) (i : nat) : jsval :=
  match String.get i s with
  | Some c => VStr (String c EmptyString)
  | None => VUndefined
  end.

(** [v ?? d] *)
Definition nullish (v d : jsval) : jsval :=
  match v with
  | VStr _ => v
  | VUndefined | VNull => d
  end.

(** [`${v ?? ''}`] *)
Definition text_or_empty (v : jsval) : string :=
  match v with
  | VStr s => s
  | VUndefined | VNull => EmptyString
  end.

Definition lower_ascii (c : ascii) : ascii :=
  let n := nat_of_ascii c in
  if ((65 <=? n)%nat && (n <=? 90)%nat)%bool then ascii_of_nat (n + 32) else c.

(** [s.toLowerCase()] on ASCII strings. *)
Fixpoint toLowerCase (s : string) : string :=
  match s with
  | EmptyString => EmptyString
  | String c s' => String (lower_ascii c) (toLowerCase s')
  end.

Definition upper_ascii (c : ascii) : ascii :=
  let n := nat_of_ascii c in
  if ((97 <=? n)%nat && (n <=? 122)%nat)%bool then ascii_of_nat (n - 32) else c.

Fixpoint titleCase_from (start : bool) (s : string) : string :=
  match s with
  | EmptyString => EmptyString
  | String c s' =>
      if decide (c = " "%char) then String c (titleCase_from true s')
      else String (if start then upper_ascii c else c) (titleCase_from false s')
  end.

(** [toTitleCase(str)]: the first character of every piece between single
    spaces is put in upper case. *)
Definition toTitleCase (s : string) : string := titleCase_from true s.

(** ** Numbers: rounding to binary64 *)

(** The nearest integer, ties to the even one. *)
Definition round_half_even (q : Q) : Z :=
  let f := Qfloor q in
  match (q - inject_Z f ?= 1 # 2)%Q with
  | Lt => f
  | Gt => f + 1
  | Eq => if Z.even f then f else f + 1
  end.

(** [floor (log2 q)] for a positive [q]: the difference of the sizes of
    numerator and denominator, or one less. *)
Definition Qlog2 (q : Q) : Z :=
  let e := Z.log2 (Qnum q) - Z.log2 (Z.pos (Qden q)) in
  if Qle_bool (2 ^ e) q then e else e - 1.

(** [binary64 q]: the double nearest to [q], ties to the even significand
    (the rounding of every arithmetic operation of the program), for [q]
    below [2^1024] in absolute value. A double is a multiple of the unit in
    the last place [2^(e-52)], where [2^e <= |q| < 2^(e+1)] and [e] is at
    least [-1022] (below, the subnormal numbers share one unit). *)
Definition binary64 (q : Q) : Q :=
  if Qeq_bool q 0 then 0%Q
  else
    let e := Z.max (Qlog2 (Qabs q)) (-1022) in
    let ulp := (2 ^ (e - 52))%Q in
    (inject_Z (round_half_even (q / ulp)) * ulp)%Q.

(** [a / b] on two non-negative integers. *)
Definition js_div (a b : nat) : jsnum :=
  match b, a with
  | O, O => NaN
  | O, S _ => Inf
  | S _, _ => Fin (inject_Z (Z.of_nat a) / inject_Z (Z.of_nat b))
  end.

(** [x * k] for a finite constant [k > 0]. *)
Definition js_scale (x : jsnum) (k : Q) : jsnum :=
  match x with
  | Fin q => Fin (q * k)
  | Inf => Inf
  | NaN => NaN
  end.

(** ** Enemy.js *)

Module Enemy.

Record t := mk {
  typed : nat;
  word : string;
  completed : jsnum;
  next : jsval;
  defeated : bool
}.

(** [constructor(word)] *)
Definition new (w : string) : t :=
  {| typed := 0;
     word := w;
     completed := Fin 0;
     next := index w 0;
     defeated := false |}.

Definition updateCompletionPercentage (e : t) : t :=
  let typed' := (typed e + 1)%nat in
  let next' := nullish (index (word e) typed') VNull in
  let completed' := js_scale (js_div typed' (String.length (word e))) 100 in
  {| typed := typed';
     word := word e;
     completed := completed';
     next := next';
     defeated := if decide (next' = VNull) then true else defeated e |}.

Definition getDisplayVersion (e : t) : string :=
  String.substring 0 (typed e) (word e)
    +:+ "<u>" +:+ text_or_empty (next e) +:+ "</u>"
    +:+ String.substring (typed e + 1) (String.length (word e)) (word e).

End Enemy.

(** ** Queue.js *)

(** A reference to an [Enemy] object: object identity. *)
Abbreviation ref := nat (only parsing).

(** [new Set(data)] keeps the first occurrence of every element, in
    insertion order; elements are compared by identity. *)
Definition Set_add (s : list ref) (x : ref) : list ref :=
  if decide (x ∈ s) then s else s ++ [x].

Definition Set_of (data : list ref) : list ref :=
  fold_left Set_add data [].

Module Queue.

Record t := mk {
  queue : list ref;
  size : Z
}.

Definition new : t := {| queue := []; size := 0 |}.

Definition enqueue (data : list ref) (q : t) : t :=
  {| queue := queue q ++ Set_of data;
     size := size q + Z.of_nat (length data) |}.

(** [shift()] returns [undefined] (here [None]) on an empty array. *)
Definition dequeue (q : t) : option ref * t :=
  (head (queue q), {| queue := tail (queue q); size := size q - 1 |}).

Definition clear (q : t) : t :=
  {| queue := []; size := size q |}.

End Queue.

(** ** Game.js *)

(** The [EnemyValueObject] of the source: its fields are never reassigned;
    [node] and [detector] are fresh handles, so two objects built by two
    spawns differ and [===] on them is equality of the records. *)
Record EnemyValueObject := MkEVO {
  enemy : ref;
  node : nat;
  detector : nat
}.

Global Instance EnemyValueObject_eq_dec : EqDecision EnemyValueObject.
Proof. solve_decision. Defined.

(** [this.lives]: [undefined] until [initGame], a number afterwards. *)
Inductive lives_t :=
  | LUndefined
  | LNaN
  | LNum (z : Z).

(** [lives - 1] *)
Definition lives_dec (l : lives_t) : lives_t :=
  match l with
  | LNum z => LNum (z - 1)
  | LUndefined | LNaN => LNaN
  end.

(** [lives <= 0] *)
Definition lives_le0 (l : lives_t) : bool :=
  match l with
  | LNum z => z <=? 0
  | LUndefined | LNaN => false
  end.

(** The display areas looked up by [_updateDisplay], and the two others
    the controller writes to. *)
Inductive display :=
  | ScoreDiv
  | LivesDiv
  | MessageDiv
  | DifficultyDiv
  | GameModeDiv
  | CurrentTargetDiv.

(** A value interpolated into a display. *)
Inductive dvalue :=
  | DInt (z : Z)
  | DRat (q : Q)
  | DLives (l : lives_t)
  | DText (s : string).

Inductive timer :=
  | SpawnTimer
  | EnqueueTimer
  | DifficultyTimer
  | DetectorTimer (node : nat).

(** Writes to the render surface, the timers and the listeners. *)
Inductive effect :=
  | SetInnerHTML (d : display) (html : string)
  | SetText (d : display) (label : string) (v : dvalue)
  | SetValue (d : display) (v : dvalue)
  | AppendMessage (d : display) (message : string)
  | CreateNode (n : nat) (text : string) (duration position : Z)
  | NodeColor (n : nat) (green : jsnum)
  | NodeAddClass (n : nat) (classes : list string)
  | NodeListen (n : nat) (type : string)
  | RemoveNode (n : nat)
  | RemoveAllNodes
  | SetInterval (id : nat) (t : timer) (delay : Z)
  | ClearInterval (id : option nat)
  | AddListener (type : string)
  | RemoveListener (type : string)
  | ShowResults (score : Z) (mode : string) (level : dvalue)
      (missed : list string) (highScore : Z)
  | RemoveResults
  | ToggleButtons (onlyIfEnabled : bool).

Record Game := MkGame {
  gameMode : string;
  difficultyLevel : Q;
  lives : lives_t;
  activeEnemies : gmap jsval EnemyValueObject;
  enemyQueue : Queue.t;
  enemySpawnDelay : Z;
  loadQueueDelay : Z;
  nextModifier : jsval;
  score : Z;
  streak : Z;
  highScore : Z;
  currentTarget : option EnemyValueObject;
  spawnInterval : option nat;
  enqueueInterval : option nat;
  difficultyInterval : option nat;
  queueLimit : Z;
  activeEnemyLimit : Z;
  missedWords : list string;
  (* the world around the object: the store of Enemy objects, the
     next unused identity (objects, DOM nodes, timers) and the trace of
     writes to the DOM and the timers *)
  store : gmap ref Enemy.t;
  fresh : nat;
  dom : list effect
}.

(** Field assignments [this.f = v]. *)

Definition set_gameMode (v : string) (g : Game) : Game :=
  MkGame v (difficultyLevel g) (lives g) (activeEnemies g) (enemyQueue g)
    (enemySpawnDelay g) (loadQueueDelay g) (nextModifier g) (score g)
    (streak g) (highScore g) (currentTarget g) (spawnInterval g)
    (enqueueInterval g) (difficultyInterval g) (queueLimit g)
    (activeEnemyLimit g) (missedWords g) (store g) (fresh g) (dom g).

Definition set_difficultyLevel (v : Q) (g : Game) : Game :=
  MkGame (gameMode g) v (lives g) (activeEnemies g) (enemyQueue g)
    (enemySpawnDelay g) (loadQueueDelay g) (nextModifier g) (score g)
    (streak g) (highScore g) (currentTarget g) (spawnInterval g)
    (enqueueInterval g) (difficultyInterval g) (queueLimit g)
    (activeEnemyLimit g) (missedWords g) (store g) (fresh g) (dom g).

Definition set_lives (v : lives_t) (g : Game) : Game :=
  MkGame (gameMode g) (difficultyLevel g) v (activeEnemies g) (enemyQueue g)
    (enemySpawnDelay g) (loadQueueDelay g) (nextModifier g) (score g)
    (streak g) (highScore g) (currentTarget g) (spawnInterval g)
    (enqueueInterval g) (difficultyInterval g) (queueLimit g)
    (activeEnemyLimit g) (missedWords g) (store g) (fresh g) (dom g).

Definition set_activeEnemies (v : gmap jsval EnemyValueObject) (g : Game) : Game :=
  MkGame (gameMode g) (difficultyLevel g) (lives g) v (enemyQueue g)
    (enemySpawnDelay g) (loadQueueDelay g) (nextModifier g) (score g)
    (streak g) (highScore g) (currentTarget g) (spawnInterval g)
    (enqueueInterval g) (difficultyInterval g) (queueLimit g)
    (activeEnemyLimit g) (missedWords g) (store g) (fresh g) (dom g).

Definition set_enemyQueue (v : Queue.t) (g : Game) : Game :=
  MkGame (gameMode g) (difficultyLevel g) (lives g) (activeEnemies g) v
    (enemySpawnDelay g) (loadQueueDelay g) (nextModifier g) (score g)
    (streak g) (highScore g) (currentTarget g) (spawnInterval g)
    (enqueueInterval g) (difficultyInterval g) (queueLimit g)
    (activeEnemyLimit g) (missedWords g) (store g) (fresh g) (dom g).

Definition set_enemySpawnDelay (v : Z) (g : Game) : Game :=
  MkGame (gameMode g) (difficultyLevel g) (lives g) (activeEnemies g)
    (enemyQueue g) v (loadQueueDelay g) (nextModifier g) (score g)
    (streak g) (highScore g) (currentTarget g) (spawnInterval g)
    (enqueueInterval g) (difficultyInterval g) (queueLimit g)
    (activeEnemyLimit g) (missedWords g) (store g) (fresh g) (dom g).

Definition set_loadQueueDelay (v : Z) (g : Game) : Game :=
  MkGame (gameMode g) (difficultyLevel g) (lives g) (activeEnemies g)
    (enemyQueue g) (enemySpawnDelay g) v (nextModifier g) (score g)
    (streak g) (highScore g) (currentTarget g) (spawnInterval g)
    (enqueueInterval g) (difficultyInterval g) (queueLimit g)
    (activeEnemyLimit g) (missedWords g) (store g) (fresh g) (dom g).

Definition set_nextModifier (v : jsval) (g : Game) : Game :=
  MkGame (gameMode g) (difficultyLevel g) (lives g) (activeEnemies g)
    (enemyQueue g) (enemySpawnDelay g) (loadQueueDelay g) v (score g)
    (streak g) (highScore g) (currentTarget g) (spawnInterval g)
    (enqueueInterval g) (difficultyInterval g) (queueLimit g)
    (activeEnemyLimit g) (missedWords g) (store g) (fresh g) (dom g).

Definition set_score (v : Z) (g : Game) : Game :=
  MkGame (gameMode g) (difficultyLevel g) (lives g) (activeEnemies g)
    (enemyQueue g) (enemySpawnDelay g) (loadQueueDelay g) (nextModifier g) v
    (streak g) (highScore g) (currentTarget g) (spawnInterval g)
    (enqueueInterval g) (difficultyInterval g) (queueLimit g)
    (activeEnemyLimit g) (missedWords g) (store g) (fresh g) (dom g).

Definition set_streak (v : Z) (g : Game) : Game :=
  MkGame (gameMode g) (difficultyLevel g) (lives g) (activeEnemies g)
    (enemyQueue g) (enemySpawnDelay g) (loadQueueDelay g) (nextModifier g)
    (score g) v (highScore g) (currentTarget g) (spawnInterval g)
    (enqueueInterval g) (difficultyInterval g) (queueLimit g)
    (activeEnemyLimit g) (missedWords g) (store g) (fresh g) (dom g).

Definition set_highScore (v : Z) (g : Game) : Game :=
  MkGame (gameMode g) (difficultyLevel g) (lives g) (activeEnemies g)
    (enemyQueue g) (enemySpawnDelay g) (loadQueueDelay g) (nextModifier g)
    (score g) (streak g) v (currentTarget g) (spawnInterval g)
    (enqueueInterval g) (difficultyInterval g) (queueLimit g)
    (activeEnemyLimit g) (missedWords g) (store g) (fresh g) (dom g).

Definition set_currentTarget (v : option EnemyValueObject) (g : Game) : Game :=
  MkGame (gameMode g) (difficultyLevel g) (lives g) (activeEnemies g)
    (enemyQueue g) (enemySpawnDelay g) (loadQueueDelay g) (nextModifier g)
    (score g) (streak g) (highScore g) v (spawnInterval g)
    (enqueueInterval g) (difficultyInterval g) (queueLimit g)
    (activeEnemyLimit g) (missedWords g) (store g) (fresh g) (dom g).

Definition set_spawnInterval (v : option nat) (g : Game) : Game :=
  MkGame (gameMode g) (difficultyLevel g) (lives g) (activeEnemies g)
    (enemyQueue g) (enemySpawnDelay g) (loadQueueDelay g) (nextModifier g)
    (score g) (streak g) (highScore g) (currentTarget g) v
    (enqueueInterval g) (difficultyInterval g) (queueLimit g)
    (activeEnemyLimit g) (missedWords g) (store g) (fresh g) (dom g).

Definition set_enqueueInterval (v : option nat) (g : Game) : Game :=
  MkGame (gameMode g) (difficultyLevel g) (lives g) (activeEnemies g)
    (enemyQueue g) (enemySpawnDelay g) (loadQueueDelay g) (nextModifier g)
    (score g) (streak g) (highScore g) (currentTarget g) (spawnInterval g) v
    (difficultyInterval g) (queueLimit g) (activeEnemyLimit g)
    (missedWords g) (store g) (fresh g) (dom g).

Definition set_difficultyInterval (v : option nat) (g : Game) : Game :=
  MkGame (gameMode g) (difficultyLevel g) (lives g) (activeEnemies g)
    (enemyQueue g) (enemySpawnDelay g) (loadQueueDelay g) (nextModifier g)
    (score g) (streak g) (highScore g) (currentTarget g) (spawnInterval g)
    (enqueueInterval g) v (queueLimit g) (activeEnemyLimit g)
    (missedWords g) (store g) (fresh g) (dom g).

Definition set_queueLimit (v : Z) (g : Game) : Game :=
  MkGame (gameMode g) (difficultyLevel g) (lives g) (activeEnemies g)
    (enemyQueue g) (enemySpawnDelay g) (loadQueueDelay g) (nextModifier g)
    (score g) (streak g) (highScore g) (currentTarget g) (spawnInterval g)
    (enqueueInterval g) (difficultyInterval g) v (activeEnemyLimit g)
    (missedWords g) (store g) (fresh g) (dom g).

Definition set_activeEnemyLimit (v : Z) (g : Game) : Game :=
  MkGame (gameMode g) (difficultyLevel g) (lives g) (activeEnemies g)
    (enemyQueue g) (enemySpawnDelay g) (loadQueueDelay g) (nextModifier g)
    (score g) (streak g) (highScore g) (currentTarget g) (spawnInterval g)
    (enqueueInterval g) (difficultyInterval g) (queueLimit g) v
    (missedWords g) (store g) (fresh g) (dom g).

Definition set_missedWords (v : list string) (g : Game) : Game :=
  MkGame (gameMode g) (difficultyLevel g) (lives g) (activeEnemies g)
    (enemyQueue g) (enemySpawnDelay g) (loadQueueDelay g) (nextModifier g)
    (score g) (streak g) (highScore g) (currentTarget g) (spawnInterval g)
    (enqueueInterval g) (difficultyInterval g) (queueLimit g)
    (activeEnemyLimit g) v (store g) (fresh g) (dom g).

Definition set_store (v : gmap ref Enemy.t) (g : Game) : Game :=
  MkGame (gameMode g) (difficultyLevel g) (lives g) (activeEnemies g)
    (enemyQueue g) (enemySpawnDelay g) (loadQueueDelay g) (nextModifier g)
    (score g) (streak g) (highScore g) (currentTarget g) (spawnInterval g)
    (enqueueInterval g) (difficultyInterval g) (queueLimit g)
    (activeEnemyLimit g) (missedWords g) v (fresh g) (dom g).

Definition set_fresh (v : nat) (g : Game) : Game :=
  MkGame (gameMode g) (difficultyLevel g) (lives g) (activeEnemies g)
    (enemyQueue g) (enemySpawnDelay g) (loadQueueDelay g) (nextModifier g)
    (score g) (streak g) (highScore g) (currentTarget g) (spawnInterval g)
    (enqueueInterval g) (difficultyInterval g) (queueLimit g)
    (activeEnemyLimit g) (missedWords g) (store g) v (dom g).

Definition set_dom (v : list effect) (g : Game) : Game :=
  MkGame (gameMode g) (difficultyLevel g) (lives g) (activeEnemies g)
    (enemyQueue g) (enemySpawnDelay g) (loadQueueDelay g) (nextModifier g)
    (score g) (streak g) (highScore g) (currentTarget g) (spawnInterval g)
    (enqueueInterval g) (difficultyInterval g) (queueLimit g)
    (activeEnemyLimit g) (missedWords g) (store g) (fresh g) v.

(** Fields assigned only by the constructor. *)
Definition numLanes : Z := 6.
Definition baseLane : Z := -10.
Definition transformFactor : Z := 55.
Definition difficultyIncreaseDelay : Z := 25000.
Definition queueErrorMargin : Z := 3.

(** [new Game()] *)
Definition new_Game : Game :=
  {| gameMode := "";
     difficultyLevel := 0;
     lives := LUndefined;
     activeEnemies := ∅;
     enemyQueue := Queue.new;
     enemySpawnDelay := 2500;
     loadQueueDelay := 10000;
     nextModifier := VStr "interval";
     score := 0;
     streak := 0;
     highScore := 0;
     currentTarget := None;
     spawnInterval := None;
     enqueueInterval := None;
     difficultyInterval := None;
     queueLimit := 30;
     activeEnemyLimit := 10;
     missedWords := [];
     store := ∅;
     fresh := 0;
     dom := [] |}.

(** *** Handlers: state transformers that complete or throw *)

Inductive error := TypeError.

Inductive result (A : Type) :=
  | Ok (a : A)
  | Throw (e : error).
Arguments Ok {A} a.
Arguments Throw {A} e.

Definition M (A : Type) : Type := Game → result A * Game.

Global Instance M_ret : MRet M := λ A a g, (Ok a, g).

Global Instance M_bind : MBind M := λ A B f m g,
  match m g with
  | (Ok a, g') => f a g'
  | (Throw e, g') => (Throw e, g')
  end.

Definition get : M Game := λ g, (Ok g, g).
Definition modify (f : Game → Game) : M unit := λ g, (Ok (), f g).
Definition throw {A} (e : error) : M A := λ g, (Throw e, g).

(** The state a handler leaves behind, whether it completed or threw. *)
Definition exec {A} (m : M A) (g : Game) : Game := (m g).2.
Definition outcome {A} (m : M A) (g : Game) : result A := (m g).1.

Definition emit (e : effect) : M unit :=
  modify (λ g, set_dom (dom g ++ [e]) g).

(** A fresh identity: [new], [createElement], [setInterval]. *)
Definition alloc : M nat :=
  λ g, (Ok (fresh g), set_fresh (S (fresh g)) g).

Global Instance Enemy_inhabited : Inhabited Enemy.t :=
  populate (Enemy.new "").

(** Reading and mutating the [Enemy] object behind a reference. Every
    reference the program holds was returned by [new]. *)
Definition deref (g : Game) (r : ref) : Enemy.t := store g !!! r.

Definition mutate (r : ref) (f : Enemy.t → Enemy.t) : M unit :=
  modify (λ g, set_store (<[r := f (deref g r)]> (store g)) g).

Definition displays (d : string) : option display :=
  if decide (d = "score") then Some ScoreDiv
  else if decide (d = "lives") then Some LivesDiv
  else if decide (d = "message") then Some MessageDiv
  else if decide (d = "difficulty") then Some DifficultyDiv
  else None.

Definition _updateDisplay (d : string) (value : dvalue) (modifier : jsval)
  : M unit :=
  let div := displays (toLowerCase d) in
  if decide (d = "message") then
    match modifier with
    | VStr m =>
        let substitute :=
          if decide (toLowerCase m = "interval") then "Intervals Decreased!"
          else "More Words Coming!" in
        let message := "Difficulty up - " +:+ substitute in
        match div with
        | Some dv => emit (AppendMessage dv message)
        | None => throw TypeError
        end
    | VUndefined | VNull => throw TypeError
    end
  else
    match div with
    | Some dv => emit (SetValue dv value)
    | None => throw TypeError
    end.

Definition _setIntervals : M unit :=
  g ← get;
  emit (ClearInterval (spawnInterval g));;
  emit (ClearInterval (enqueueInterval g));;
  emit (ClearInterval (difficultyInterval g));;
  s ← alloc;
  emit (SetInterval s SpawnTimer (enemySpawnDelay g));;
  modify (set_spawnInterval (Some s));;
  e ← alloc;
  emit (SetInterval e EnqueueTimer (loadQueueDelay g));;
  modify (set_enqueueInterval (Some e));;
  d ← alloc;
  emit (SetInterval d DifficultyTimer difficultyIncreaseDelay);;
  modify (set_difficultyInterval (Some d)).

Definition _setCurrentTarget (target : EnemyValueObject) : M unit :=
  modify (set_currentTarget (Some target));;
  emit (NodeAddClass (node target) ["targeted"]).

Definition _clearEnemyWord : M unit :=
  g ← get;
  match currentTarget g with
  | None => throw TypeError
  | Some target =>
      let n := node target in
      let w := Enemy.word (deref g (enemy target)) in
      modify (set_score (score g + (Z.of_nat (String.length w) + streak g)));;
      g1 ← get;
      _updateDisplay "score" (DInt (score g1)) VUndefined;;
      modify (λ g, set_activeEnemies (delete (index w 0) (activeEnemies g)) g);;
      emit (ClearInterval (Some (detector target)));;
      emit (NodeAddClass n ["cleared"; "word"]);;
      emit (NodeListen n "transitioned");;
      modify (set_currentTarget None);;
      modify (λ g, set_streak (streak g + Qceiling (1 + difficultyLevel g)) g)
  end.

Definition _handleKeyPress (key : string) : M unit :=
  g ← get;
  match currentTarget g with
  | Some target =>
      if decide (VStr (toLowerCase key) = Enemy.next (deref g (enemy target)))
      then
        mutate (enemy target) Enemy.updateCompletionPercentage;;
        g1 ← get;
        let e := deref g1 (enemy target) in
        emit (SetInnerHTML CurrentTargetDiv (Enemy.getDisplayVersion e));;
        emit (NodeColor (node target) (Enemy.completed e));;
        if decide (Enemy.next e = VNull) then _clearEnemyWord else mret ()
      else mret ()
  | None =>
      match activeEnemies g !! VStr key with
      | Some wordTarget =>
          _setCurrentTarget wordTarget;;
          mutate (enemy wordTarget) Enemy.updateCompletionPercentage
      | None => mret ()
      end;;
      g1 ← get;
      match currentTarget g1 with
      | Some target =>
          emit (SetInnerHTML CurrentTargetDiv
                  (Enemy.getDisplayVersion (deref g1 (enemy target))))
      | None => throw TypeError
      end
  end.

(** [Math.floor(Math.random() * (35 - 5 + 1) + 5)]: the product and the
    sum are each rounded to a double, and the sum can round up to the next
    integer. *)
Definition _getAnimationDuration (r : Q) : Z :=
  let longestDuration := 35 in
  let shortestDuration := 5 in
  Qfloor (binary64
            (binary64 (r * inject_Z (longestDuration - shortestDuration + 1))
             + inject_Z shortestDuration)).

Definition _getEnemyPosition (r : Q) : Z :=
  baseLane + transformFactor * Qfloor (r * inject_Z numLanes).

(** [_addEnemyWord(enemy)]; [enemy] is [undefined] when the queue had
    nothing to give. [rDur] and [rPos] are the two values [Math.random()]
    returns when the word is placed. *)
Definition _addEnemyWord (enemy : option ref) (rDur rPos : Q) : M unit :=
  match enemy with
  | None => throw TypeError
  | Some r =>
      g ← get;
      let e := deref g r in
      if activeEnemies g !! Enemy.next e is Some _ then mret ()
      else if Z.of_nat (size (activeEnemies g)) >=? activeEnemyLimit g
      then mret ()
      else
        n ← alloc;
        emit (CreateNode n (Enemy.word e)
                (_getAnimationDuration rDur) (_getEnemyPosition rPos));;
        d ← alloc;
        emit (SetInterval d (DetectorTimer n) 75);;
        modify (λ g, set_activeEnemies
                       (<[Enemy.next e := MkEVO r n d]> (activeEnemies g)) g)
  end.

Definition _increaseDifficulty : M unit :=
  g ← get;
  if Qeq_bool (difficultyLevel g) 5 then
    modify (set_nextModifier VNull);;
    emit (ClearInterval (difficultyInterval g))
  else
    let prevModifier := nextModifier g in
    (if decide (nextModifier g = VStr "interval") then
       if 500 <? enemySpawnDelay g then
         modify (λ g, set_loadQueueDelay (loadQueueDelay g - 1000) g);;
         modify (λ g, set_enemySpawnDelay (enemySpawnDelay g - 500) g);;
         modify (λ g, set_difficultyLevel (difficultyLevel g + (1 # 2)) g)
       else mret ()
     else if decide (nextModifier g = VStr "wordlimit") then
       if queueLimit g <? 60 then
         modify (λ g, set_queueLimit (queueLimit g + 5) g);;
         modify (λ g, set_activeEnemyLimit (activeEnemyLimit g + 1) g);;
         modify (λ g, set_difficultyLevel (difficultyLevel g + (1 # 2)) g)
       else mret ()
     else mret ());;
    _setIntervals;;
    modify (set_nextModifier
              (if decide (prevModifier = VStr "interval")
               then VStr "wordlimit" else VStr "interval"));;
    g1 ← get;
    _updateDisplay "message" (DRat (difficultyLevel g1)) prevModifier;;
    _updateDisplay "difficulty"
      (if Qle_bool 5 (difficultyLevel g1) then DText "MAX"
       else DRat (difficultyLevel g1))
      VUndefined.

Definition _resetDefaults : M unit :=
  modify (λ g, set_enemyQueue (Queue.clear (enemyQueue g)) g);;
  g ← get;
  (* forEach over the registry; clearing timers commutes, so the order in
     which the map is traversed does not matter *)
  mapM (λ kv, emit (ClearInterval (Some (detector kv.2))))
       (map_to_list (activeEnemies g));;
  emit (RemoveListener "Collision");;
  modify (set_activeEnemies ∅);;
  modify (set_missedWords []);;
  modify (set_streak 0);;
  modify (set_queueLimit 30);;
  modify (set_difficultyLevel 0);;
  modify (set_activeEnemyLimit 10);;
  modify (set_loadQueueDelay 10000);;
  modify (set_enemySpawnDelay 2500);;
  modify (set_currentTarget None);;
  modify (set_nextModifier (VStr "interval")).

(** [endGame()]; the two buttons of the result screen are the events
    [Retry] and [Quit] below. *)
Definition endGame : M unit :=
  modify (λ g, set_highScore (Z.max (score g) (highScore g)) g);;
  emit RemoveAllNodes;;
  g ← get;
  emit (ShowResults (score g) (toTitleCase (gameMode g))
          (if Qle_bool 5 (difficultyLevel g) then DText "5 (MAX) "
           else DRat (difficultyLevel g))
          (missedWords g) (highScore g));;
  _resetDefaults;;
  g1 ← get;
  emit (ClearInterval (spawnInterval g1));;
  emit (ClearInterval (enqueueInterval g1));;
  emit (ClearInterval (difficultyInterval g1)).

(** [_collisionHandler(e)] with [word = e.target.textContent]. *)
Definition _collisionHandler (word : string) : M unit :=
  modify (λ g, set_lives (lives_dec (lives g)) g);;
  modify (set_streak 0);;
  g ← get;
  _updateDisplay "lives" (DLives (lives g)) VUndefined;;
  let enemy := activeEnemies g !! index word 0 in
  (if decide (currentTarget g = enemy ∧ is_Some enemy)
   then modify (set_currentTarget None) else mret ());;
  modify (λ g, set_activeEnemies (delete (index word 0) (activeEnemies g)) g);;
  match enemy with
  | None => throw TypeError
  | Some ev =>
      emit (ClearInterval (Some (detector ev)));;
      modify (λ g, set_missedWords (missedWords g ++ [word]) g);;
      emit (RemoveNode (node ev));;
      g1 ← get;
      if lives_le0 (lives g1) then endGame else mret ()
  end.

Section Dictionary.

(** [words.js]: the dictionary, an indexable list of words. *)
Variable words : list string.

(** [Math.floor(Math.random() * (words.length - 1))] for the value [r]
    returned by [Math.random()]. *)
Definition randomIndex (r : Q) : Z :=
  Qfloor (r * inject_Z (Z.of_nat (length words) - 1)).

(** [words[i]] *)
Definition words_at (i : Z) : option string :=
  if decide (0 ≤ i) then words !! Z.to_nat i else None.

(** One turn of the loop of [_loadIntoQueue]: [new Enemy(words[i])]
    throws when [words[i]] is [undefined]. *)
Definition newEnemy (r : Q) : M ref :=
  match words_at (randomIndex r) with
  | Some w =>
      x ← alloc;
      modify (λ g, set_store (<[x := Enemy.new w]> (store g)) g);;
      mret x
  | None => throw TypeError
  end.

(** [rnd i] is the value of [Math.random()] in turn [i] of the loop. *)
Definition _loadIntoQueue (rnd : nat → Q) : M unit :=
  g ← get;
  let needed := queueLimit g - Queue.size (enemyQueue g) in
  newEnemies ← mapM (λ i, newEnemy (rnd i)) (seq 0 (Z.to_nat needed));
  modify (λ g, set_enemyQueue (Queue.enqueue newEnemies (enemyQueue g)) g).

Definition initGame (mode : string) (rnd : nat → Q) : M unit :=
  modify (set_score 0);;
  modify (set_gameMode (toLowerCase mode));;
  modify (λ g, set_lives
                 (if decide (gameMode g = "normal") then LNum 4 else LNum 1)
                 g);;
  _loadIntoQueue rnd;;
  g ← get;
  emit (SetText DifficultyDiv "Difficulty: " (DRat (difficultyLevel g)));;
  emit (SetText GameModeDiv "Mode: " (DText (toTitleCase (gameMode g))));;
  emit (SetText LivesDiv "Lives: " (DLives (lives g)));;
  emit (SetText ScoreDiv "Score: " (DInt (score g)));;
  _setIntervals;;
  emit (AddListener "keydown");;
  emit (AddListener "Collision");;
  emit (ToggleButtons true).

(** The spawn interval: [this._addEnemyWord(this.enemyQueue.dequeue())]. *)
Definition spawnTick (rDur rPos : Q) : M unit :=
  g ← get;
  let '(enemy, q) := Queue.dequeue (enemyQueue g) in
  modify (set_enemyQueue q);;
  _addEnemyWord enemy rDur rPos.

(** What the event loop delivers to the controller. *)
Inductive event :=
  | Start (mode : string) (rnd : nat → Q)
  | KeyDown (key : string)
  | SpawnTick (rDur rPos : Q)
  | EnqueueTick (rnd : nat → Q)
  | DifficultyTick
  | Collision (word : string)
  | Retry (rnd : nat → Q)
  | Quit.

Definition handle (ev : event) : M unit :=
  match ev with
  | Start mode rnd => initGame mode rnd
  | KeyDown key => _handleKeyPress key
  | SpawnTick rDur rPos => spawnTick rDur rPos
  | EnqueueTick rnd => _loadIntoQueue rnd
  | DifficultyTick => _increaseDifficulty
  | Collision word => _collisionHandler word
  | Retry rnd =>
      emit RemoveResults;;
      g ← get;
      initGame (gameMode g) rnd
  | Quit =>
      emit (SetText LivesDiv "" (DText ""));;
      emit (SetText ScoreDiv "" (DText ""));;
      emit (SetText GameModeDiv "" (DText ""));;
      emit (SetText DifficultyDiv "" (DText ""));;
      emit RemoveResults;;
      emit (ToggleButtons false)
  end.

(** Each handler runs to completion (or to its throw) before the next
    event is taken. *)
Definition run (evs : list event) (g : Game) : Game :=
  fold_left (λ g ev, exec (handle ev) g) evs g.

Inductive reachable : Game → Prop :=
  | reachable_new : reachable new_Game
  | reachable_step g ev : reachable g → reachable (exec (handle ev) g).

End Dictionary.

(** ** Notions used by the statements *)

(** The typing protocol: [later e e'] when [e'] is reached from [e] by
    calls of [updateCompletionPercentage], none of them on a defeated
    enemy. *)
Inductive later (e : Enemy.t) : Enemy.t → Prop :=
  | later_refl : later e e
  | later_step e' :
      later e e' →
      Enemy.defeated e' = false →
      later e (Enemy.updateCompletionPercentage e').

(** The states of an enemy spawned for the word [w]. *)
Definition advances (w : string) (e : Enemy.t) : Prop :=
  later (Enemy.new w) e.

(** Any number of calls, the protocol set aside. *)
Definition advance_n (n : nat) (e : Enemy.t) : Enemy.t :=
  Nat.iter n Enemy.updateCompletionPercentage e.

Definition jsnum_le (a b : jsnum) : Prop :=
  match a, b with
  | Fin p, Fin q => (p <= q)%Q
  | _, _ => False
  end.

(** [typed / word.length] as a rational. *)
Definition ratio (e : Enemy.t) : Q :=
  (inject_Z (Z.of_nat (Enemy.typed e))
   / inject_Z (Z.of_nat (String.length (Enemy.word e))))%Q.

(** The [completed] field read as a ratio between 0 and 1. *)
Definition completed_is_ratio (e : Enemy.t) : Prop :=
  ∃ q, Enemy.completed e = Fin q ∧ (q == ratio e)%Q ∧ (0 <= q <= 1)%Q.

(** The [completed] field read as a percentage between 0 and 100. *)
Definition completed_is_percentage (e : Enemy.t) : Prop :=
  ∃ q, Enemy.completed e = Fin q ∧ (q == ratio e * 100)%Q
       ∧ (0 <= q <= 100)%Q.

Global Instance Q_eq_dec : EqDecision Q.
Proof. solve_decision. Defined.

Global Instance jsnum_eq_dec : EqDecision jsnum.
Proof. solve_decision. Defined.

Global Instance Enemy_eq_dec : EqDecision Enemy.t.
Proof. solve_decision. Defined.

(** The de-duplication "by value equality" of the specification, to be
    compared with [Set_of]: an instance is dropped when an instance with
    the same field values came before it in the batch. *)
Fixpoint dedup_by_value_from (st : gmap nat Enemy.t) (seen : list Enemy.t)
    (B : list ref) : list ref :=
  match B with
  | [] => []
  | r :: B' =>
      if decide (st !!! r ∈ seen) then dedup_by_value_from st seen B'
      else r :: dedup_by_value_from st (st !!! r :: seen) B'
  end.

Definition dedup_by_value (st : gmap nat Enemy.t) (B : list ref) : list ref :=
  dedup_by_value_from st [] B.

(** [n] ticks of the difficulty interval on a new game. *)
Definition ticks (n : nat) : Game :=
  Nat.iter n (exec _increaseDifficulty) new_Game.

(** ** Invariants *)

(** What the protocol keeps true of the fields. *)
Record protocol_inv (w : string) (e : Enemy.t) : Prop := {
  inv_word : Enemy.word e = w;
  inv_typed : (Enemy.typed e ≤ String.length w)%nat;
  inv_defeated : Enemy.defeated e = true ↔ Enemy.typed e = String.length w;
  inv_next :
    Enemy.next e = if decide (Enemy.typed e < String.length w)%nat
             then index w (Enemy.typed e) else VNull;
  inv_completed :
    ∃ q, Enemy.completed e = Fin q
         ∧ (q == (100 * Z.of_nat (Enemy.typed e)) # Pos.of_nat (String.length w))%Q
}.

(** The delays, limits and level the scaler works on. *)
Definition scaling (g : Game) : Z * Z * Z * Z * Q :=
  (enemySpawnDelay g, loadQueueDelay g, queueLimit g, activeEnemyLimit g,
   difficultyLevel g).

(** The scaler has taken [a] steps on the "interval" axis and [b] steps on
    the "wordlimit" axis. *)
Definition scaler_inv (g : Game) : Prop :=
  ∃ a b : Z,
    0 ≤ a ≤ 4 ∧ 0 ≤ b ≤ 6
    ∧ enemySpawnDelay g = 2500 - 500 * a
    ∧ loadQueueDelay g = 10000 - 1000 * a
    ∧ queueLimit g = 30 + 5 * b
    ∧ activeEnemyLimit g = 10 + b
    ∧ (difficultyLevel g == (a + b) # 2)%Q.

(** What every reachable state satisfies: the queue holds pairwise distinct,
    untouched enemies; an entry of the registry is stored under the lead
    character of its word and its enemy has left the queue; the registry
    respects the limit. *)
Record registry_inv (g : Game) : Prop := {
  ri_queue_nodup : NoDup (Queue.queue (enemyQueue g));
  ri_queue_new : ∀ r, r ∈ Queue.queue (enemyQueue g) →
    (r < fresh g)%nat ∧ ∃ w, store g !! r = Some (Enemy.new w);
  ri_entry : ∀ k v, activeEnemies g !! k = Some v →
    (enemy v < fresh g)%nat
    ∧ (enemy v ∉ Queue.queue (enemyQueue g))
    ∧ k = index (Enemy.word (deref g (enemy v))) 0;
  ri_target : ∀ v, currentTarget g = Some v →
    (enemy v < fresh g)%nat ∧ enemy v ∉ Queue.queue (enemyQueue g);
  ri_limit : Z.of_nat (size (activeEnemies g)) ≤ activeEnemyLimit g
}.

(** [frames g g']: from [g] to [g'] nothing the invariant reads has
    changed, but for identities handed out and a limit raised. *)
Definition frames (g g' : Game) : Prop :=
  Queue.queue (enemyQueue g') = Queue.queue (enemyQueue g)
  ∧ activeEnemies g' = activeEnemies g
  ∧ currentTarget g' = currentTarget g
  ∧ store g' = store g
  ∧ activeEnemyLimit g ≤ activeEnemyLimit g'
  ∧ (fresh g ≤ fresh g')%nat.

(** [allocs g g']: from [g] to [g'] only new enemies were allocated. *)
Definition allocs (g g' : Game) : Prop :=
  enemyQueue g' = enemyQueue g
  ∧ activeEnemies g' = activeEnemies g
  ∧ currentTarget g' = currentTarget g
  ∧ activeEnemyLimit g' = activeEnemyLimit g
  ∧ (fresh g ≤ fresh g')%nat
  ∧ (∀ x, (x < fresh g)%nat → store g' !! x = store g !! x)
  ∧ (∀ x, (fresh g ≤ x < fresh g')%nat →
          ∃ w, store g' !! x = Some (Enemy.new w)).

(** Handlers compose: [preserving m] when [m] keeps the invariant whether
    it completes or throws, [framing m] when it changes nothing the
    invariant reads. *)
Definition preserving {A} (m : M A) : Prop :=
  ∀ g, registry_inv g → registry_inv (exec m g).

Definition framing {A} (m : M A) : Prop :=
  ∀ g, frames g (exec m g).

(** ** Notions for further properties *)

(** [n] calls of [dequeue] in a row, with what each returned. *)
Fixpoint drain (n : nat) (q : Queue.t) : list (option ref) * Queue.t :=
  match n with
  | O => ([], q)
  | S n' =>
      let '(x, q1) := Queue.dequeue q in
      let '(xs, q2) := drain n' q1 in
      (x :: xs, q2)
  end.

(** A value [Math.random()] can return. *)
Definition unit_interval (r : Q) : Prop := (0 <= r)%Q ∧ (r < 1)%Q.

(** The [key] of the keydown events that type the characters of [w] one
    after the other. *)
Definition keys_of (w : string) : list string :=
  (λ c, String c EmptyString) <$> list_ascii_of_string w.

(** The keydown listeners on the document: [initGame] adds a new closure
    with every call of [document.addEventListener('keydown', ...)], and the
    program has no [removeEventListener] for them. *)
Definition is_keydown_listener (e : effect) : bool :=
  match e with
  | AddListener type => bool_decide (type = "keydown")
  | _ => false
  end.

Definition keydownListeners (g : Game) : nat :=
  length (List.filter is_keydown_listener (dom g)).

(** One key press: the event is dispatched to every keydown listener in
    turn, each of which calls [_handleKeyPress]; an exception thrown by one
    listener does not keep the next one from running. *)
Definition keydown (key : string) (g : Game) : Game :=
  Nat.iter (keydownListeners g) (exec (_handleKeyPress key)) g.

(** A sequence of key presses. *)
Definition press (keys : list string) (g : Game) : Game :=
  fold_left (λ g key, keydown key g) keys g.

(** [keeps I m]: the handler [m] keeps the property [I] of the game,
    whether it completes or throws. *)
Definition keeps (I : Game → Prop) {A} (m : M A) : Prop :=
  ∀ g, I g → I (exec m g).

(** The axis named by [nextModifier] is one of the two axes, or [null]
    once the level is 5. *)
Definition modifier_inv (g : Game) : Prop :=
  nextModifier g = VStr "interval"
  ∨ nextModifier g = VStr "wordlimit"
  ∨ (nextModifier g = VNull ∧ (difficultyLevel g == 5)%Q).

(** What holds of the counters of a session in every reachable state. *)
Definition session_inv (g : Game) : Prop :=
  scaler_inv g ∧ modifier_inv g
  ∧ 0 ≤ score g ∧ 0 ≤ streak g ∧ 0 ≤ highScore g.

Definition highScore_above (h : Z) (g : Game) : Prop := h ≤ highScore g.

(** The current target, when there is one, is the entry that the registry
    holds under the lead character of the target's word. *)
Definition target_ok (g : Game) : Prop :=
  ∀ v, currentTarget g = Some v →
       activeEnemies g !! index (Enemy.word (deref g (enemy v))) 0 = Some v.

Definition registry_target_inv (g : Game) : Prop :=
  registry_inv g ∧ target_ok g.

(** The intervals that are running after a trace of effects: those that
    [setInterval] started and no [clearInterval] has stopped since.
    [clearInterval] of a handle that is not running, or of [null], does
    nothing. *)
Definition timer_step (s : gset nat) (e : effect) : gset nat :=
  match e with
  | SetInterval id _ _ => {[id]} ∪ s
  | ClearInterval (Some id) => s ∖ {[id]}
  | _ => s
  end.

Definition running (tr : list effect) : gset nat :=
  fold_left timer_step tr ∅.

(** The handles the game still holds: the three interval fields and the
    detectors of the entries of the registry. *)
Definition owned (g : Game) (id : nat) : Prop :=
  spawnInterval g = Some id
  ∨ enqueueInterval g = Some id
  ∨ difficultyInterval g = Some id
  ∨ ∃ k v, activeEnemies g !! k = Some v ∧ detector v = id.

Definition leak_free (g : Game) : Prop :=
  ∀ id, id ∈ running (dom g) → owned g id.

(** [completes m]: the handler [m] never throws. *)
Definition completes {A} (m : M A) : Prop :=
  ∀ g, ∃ a, outcome m g = Ok a.

(** ** Enemy *)

Section EnemyFacts.

Import Enemy.

Lemma get_lt (s : string) (i : nat) :
  (i < String.length s)%nat → ∃ c, String.get i s = Some c.
Proof.
  revert i. induction s as [|c s IH]; intros i Hi; simpl in *; [lia|].
  destruct i as [|i]; [eauto|]. apply IH. lia.
Qed.

Lemma get_ge (s : string) (i : nat) :
  (String.length s ≤ i)%nat → String.get i s = None.
Proof.
  revert i. induction s as [|c s IH]; intros i Hi; simpl in *.
  - by destruct i.
  - destruct i as [|i]; [lia|]. apply IH. lia.
Qed.

Lemma index_lt (s : string) (i : nat) :
  (i < String.length s)%nat → ∃ c, index s i = VStr (String c EmptyString).
Proof. intros [c Hc]%get_lt. exists c. unfold index. by rewrite Hc. Qed.

Lemma index_ge (s : string) (i : nat) :
  (String.length s ≤ i)%nat → index s i = VUndefined.
Proof. intros Hi. unfold index. by rewrite get_ge. Qed.

Lemma percentage_spec (t l : nat) :
  l ≠ 0%nat →
  ∃ q, js_scale (js_div t l) 100 = Fin q
       ∧ (q == inject_Z (Z.of_nat t) / inject_Z (Z.of_nat l) * 100)%Q
       ∧ (q == (100 * Z.of_nat t) # Pos.of_nat l)%Q.
Proof.
  intros Hl. destruct l as [|l]; [done|].
  eexists. split; [reflexivity|]. split; [reflexivity|].
  unfold Qeq, Qdiv, Qmult, Qinv, inject_Z. cbn [Qnum Qden].
  change (Z.of_nat (S l)) with (Z.pos (Pos.of_succ_nat l)).
  cbn [Qnum Qden]. rewrite <- Pos.of_nat_succ. lia.
Qed.

Lemma length_nonempty (w : string) : w ≠ EmptyString → String.length w ≠ 0%nat.
Proof. by destruct w. Qed.

Lemma later_trans (e1 e2 e3 : t) : later e1 e2 → later e2 e3 → later e1 e3.
Proof.
  intros H12 H23. induction H23 as [|e3 _ IH Hd]; [done|].
  by apply later_step.
Qed.

Lemma protocol_inv_new (w : string) :
  w ≠ EmptyString → protocol_inv w (new w).
Proof.
  intros Hw%length_nonempty. split; simpl.
  - done.
  - lia.
  - split; [done | lia].
  - case_decide; [done | lia].
  - exists 0%Q. split; [done|]. unfold Qeq. simpl. lia.
Qed.

Lemma protocol_inv_step (w : string) (e : t) :
  w ≠ EmptyString → protocol_inv w e → defeated e = false →
  protocol_inv w (updateCompletionPercentage e).
Proof.
  intros Hw [Hword Hty Hdef Hnext Hcomp] Hd.
  assert (typed e < String.length w)%nat as Hlt.
  { destruct (decide (typed e = String.length w)) as [Heq|]; [|lia].
    apply Hdef in Heq. congruence. }
  assert (nullish (index w (typed e + 1)) VNull
          = if decide (typed e + 1 < String.length w)%nat
            then index w (typed e + 1) else VNull) as Hnx.
  { destruct (decide (typed e + 1 < String.length w)%nat) as [Hc|Hc].
    - destruct (index_lt w (typed e + 1) Hc) as [c ->]. done.
    - rewrite index_ge; [done | lia]. }
  split; unfold updateCompletionPercentage; cbn [typed word next defeated completed];
    rewrite ?Hword.
  - done.
  - lia.
  - rewrite Hnx.
    destruct (decide (typed e + 1 < String.length w)%nat) as [Hc|Hc].
    + destruct (index_lt w (typed e + 1) Hc) as [c ->].
      rewrite decide_False by done. rewrite Hd. split; [done | lia].
    + rewrite decide_True by done. split; [lia | done].
  - done.
  - destruct (percentage_spec (typed e + 1) (String.length w)) as (q & Hq & _ & Hq');
      [by apply length_nonempty|].
    exists q. split; [done|]. done.
Qed.

Lemma protocol_inv_advances (w : string) (e : t) :
  w ≠ EmptyString → advances w e → protocol_inv w e.
Proof.
  intros Hw H. induction H as [|e _ IH Hd].
  - by apply protocol_inv_new.
  - by apply protocol_inv_step.
Qed.

Lemma percent_bounds (t l : nat) (q : Q) :
  l ≠ 0%nat → (t ≤ l)%nat →
  (q == (100 * Z.of_nat t) # Pos.of_nat l)%Q → (0 <= q <= 100)%Q.
Proof.
  intros Hl Htl ->. unfold Qle. cbn [Qnum Qden].
  assert (Z.pos (Pos.of_nat l) = Z.of_nat l) as ->.
  { destruct l; [done|]. rewrite <- Pos.of_nat_succ. lia. }
  lia.
Qed.

Lemma percent_mono (t t' l : nat) (q q' : Q) :
  (t ≤ t')%nat →
  (q == (100 * Z.of_nat t) # Pos.of_nat l)%Q →
  (q' == (100 * Z.of_nat t') # Pos.of_nat l)%Q →
  (q <= q')%Q.
Proof.
  intros Htt -> ->. unfold Qle. cbn [Qnum Qden]. nia.
Qed.

Lemma later_typed_mono (e e' : t) : later e e' → (typed e ≤ typed e')%nat.
Proof.
  induction 1 as [|e' _ IH _]; [done|]. simpl. lia.
Qed.

End EnemyFacts.

(** C3, as stated, fails: after one accepted character of "ab" the
    [completed] field holds 50, which is neither [typed / length = 1/2]
    nor a number of the interval [0,1]. *)
Lemma completed_ratio_counterexample :
  let e := Enemy.updateCompletionPercentage (Enemy.new "ab") in
  advances "ab" e ∧ Enemy.completed e = Fin (1 / 2 * 100) ∧ ¬ completed_is_ratio e.
Proof.
  cbn zeta. split; [|split].
  - apply later_step; [apply later_refl | done].
  - reflexivity.
  - intros (q & Hq & _ & _ & Hle). cbn in Hq. injection Hq as <-.
    revert Hle. vm_compute. intros H. by apply H.
Qed.

(** C3, amended: for every non-empty word and every number of calls of
    [updateCompletionPercentage] made under the protocol (never on a
    defeated enemy), the [completed] field is the percentage
    [typed / word.length * 100] and lies in the closed interval [0,100]. *)
Theorem completed_percentage_under_protocol (w : string) (e : Enemy.t) :
  w ≠ EmptyString → advances w e → completed_is_percentage e.
Proof.
  intros Hw He.
  destruct (protocol_inv_advances w e Hw He) as [Hword Hty _ _ (q & Hq & Hq')].
  exists q. split; [done|]. split.
  - unfold ratio. rewrite Hword.
    destruct (percentage_spec (Enemy.typed e) (String.length w))
      as (q0 & _ & H1 & H2); [by apply length_nonempty|].
    apply (Qeq_trans _ _ _ Hq'). apply Qeq_sym in H2.
    exact (Qeq_trans _ _ _ H2 H1).
  - eapply percent_bounds; [by apply length_nonempty | exact Hty | exact Hq'].
Qed.

(** The word "cat" after its first character. *)
Lemma completed_percentage_under_protocol_witness :
  "cat"%string ≠ EmptyString
  ∧ advances "cat" (Enemy.updateCompletionPercentage (Enemy.new "cat"))
  ∧ completed_is_percentage (Enemy.updateCompletionPercentage (Enemy.new "cat")).
Proof.
  assert ("cat"%string ≠ EmptyString) as Hw by discriminate.
  assert (advances "cat" (Enemy.updateCompletionPercentage (Enemy.new "cat")))
    as Ha by (apply later_step; [apply later_refl | reflexivity]).
  split; [exact Hw|]. split; [exact Ha|].
  exact (completed_percentage_under_protocol "cat" _ Hw Ha).
Defined.

(** C6, as stated, fails: nothing in [updateCompletionPercentage] stops a
    call on a defeated enemy, and two calls on the word "a" leave
    [typed = 2], above the length 1. *)
Lemma typed_exceeds_length_counterexample :
  let e := advance_n 2 (Enemy.new "a") in
  Enemy.defeated e = true
  ∧ ¬ (Enemy.typed e ≤ String.length (Enemy.word e))%nat.
Proof. cbn. split; [done | lia]. Qed.

(** C6, amended: for every enemy of a non-empty word and every sequence of
    calls of [updateCompletionPercentage] made under the protocol (never on
    a defeated enemy), [typed] never exceeds the length of the word,
    [defeated] is true exactly when [typed] equals that length, and
    [completed] never decreases along the sequence. *)
Theorem enemy_protocol_invariants (w : string) (e e' : Enemy.t) :
  w ≠ EmptyString → advances w e → later e e' →
  (Enemy.typed e' ≤ String.length (Enemy.word e'))%nat
  ∧ (Enemy.defeated e' = true ↔ Enemy.typed e' = String.length (Enemy.word e'))
  ∧ jsnum_le (Enemy.completed e) (Enemy.completed e').
Proof.
  intros Hw He Hl.
  assert (advances w e') as He' by (by eapply later_trans).
  destruct (protocol_inv_advances w e Hw He) as [_ _ _ _ (q & Hq & Hqe)].
  destruct (protocol_inv_advances w e' Hw He') as [Hword Hty Hdef _ (q' & Hq' & Hqe')].
  rewrite Hword. split; [done|]. split; [done|].
  rewrite Hq, Hq'. simpl.
  eapply percent_mono; [|exact Hqe|exact Hqe'].
  by apply later_typed_mono.
Qed.

(** The word "cat" after its first and after its second character. *)
Lemma enemy_protocol_invariants_witness :
  let e := Enemy.updateCompletionPercentage (Enemy.new "cat") in
  let e' := Enemy.updateCompletionPercentage e in
  "cat"%string ≠ EmptyString ∧ advances "cat" e ∧ later e e'
  ∧ (Enemy.typed e' ≤ String.length (Enemy.word e'))%nat
  ∧ (Enemy.defeated e' = true ↔ Enemy.typed e' = String.length (Enemy.word e'))
  ∧ jsnum_le (Enemy.completed e) (Enemy.completed e').
Proof.
  intros e e'.
  assert ("cat"%string ≠ EmptyString) as Hw by discriminate.
  assert (advances "cat" e)
    as Ha by (apply later_step; [apply later_refl | reflexivity]).
  assert (later e e') as Hl by (apply later_step; [apply later_refl | reflexivity]).
  split; [exact Hw|]. split; [exact Ha|]. split; [exact Hl|].
  exact (enemy_protocol_invariants "cat" e e' Hw Ha Hl).
Defined.

(** ** Handlers of the controller *)

(** Unfolding the monad of handlers, and reading fields through the
    assignments made to them. *)
Ltac unfold_M :=
  unfold mbind, M_bind, mret, M_ret, get, modify, throw, emit, alloc, mutate,
    exec, outcome.

Ltac game_simpl :=
  cbn [set_gameMode set_difficultyLevel set_lives set_activeEnemies set_enemyQueue set_enemySpawnDelay set_loadQueueDelay
       set_nextModifier set_score set_streak set_highScore set_currentTarget set_spawnInterval set_enqueueInterval
       set_difficultyInterval set_queueLimit set_activeEnemyLimit set_missedWords set_store set_fresh set_dom
       gameMode difficultyLevel lives activeEnemies enemyQueue enemySpawnDelay loadQueueDelay nextModifier
       score streak highScore currentTarget spawnInterval enqueueInterval difficultyInterval queueLimit
       activeEnemyLimit missedWords store fresh dom
       fst snd].

Ltac run_M := repeat progress (unfold_M; game_simpl; cbn beta iota zeta).

(** Following both sides of the conditionals of a handler. *)
Ltac run_branches :=
  run_M;
  repeat (first
    [ case_decide
    | match goal with
      | |- context [if ?c then _ else _] => destruct c eqn:?
      end ];
    run_M).

(** [_updateDisplay] at the arguments the controller calls it with. *)
Lemma updateDisplay_score (v : dvalue) (m : jsval) :
  _updateDisplay "score" v m = emit (SetValue ScoreDiv v).
Proof. reflexivity. Qed.

Lemma updateDisplay_lives (v : dvalue) (m : jsval) :
  _updateDisplay "lives" v m = emit (SetValue LivesDiv v).
Proof. reflexivity. Qed.

Lemma updateDisplay_difficulty (v : dvalue) (m : jsval) :
  _updateDisplay "difficulty" v m = emit (SetValue DifficultyDiv v).
Proof. reflexivity. Qed.

Lemma updateDisplay_message_interval (v : dvalue) :
  _updateDisplay "message" v (VStr "interval")
  = emit (AppendMessage MessageDiv "Difficulty up - Intervals Decreased!").
Proof. reflexivity. Qed.

Lemma updateDisplay_message_wordlimit (v : dvalue) :
  _updateDisplay "message" v (VStr "wordlimit")
  = emit (AppendMessage MessageDiv "Difficulty up - More Words Coming!").
Proof. reflexivity. Qed.

Lemma updateDisplay_message_null (v : dvalue) :
  _updateDisplay "message" v VNull = throw TypeError.
Proof. reflexivity. Qed.

(** C1: with no target selected and a key that is the lead character of no
    active enemy, [_handleKeyPress] leaves the whole state as it was, but it
    does not complete: reading [this.currentTarget.enemy] throws a
    TypeError. *)
Theorem keypress_unmatched_throws (g : Game) (key : string) :
  currentTarget g = None →
  activeEnemies g !! VStr key = None →
  _handleKeyPress key g = (Throw TypeError, g).
Proof.
  intros Ht Hk. unfold _handleKeyPress. unfold_M.
  rewrite Ht, Hk. cbn. rewrite Ht. done.
Qed.

(** A started game in which no word has been spawned yet; the key "x". *)
Lemma keypress_unmatched_throws_witness :
  let g := exec (initGame ["cat"; "dog"]%string "Normal" (λ _, 0%Q)) new_Game in
  currentTarget g = None
  ∧ activeEnemies g !! VStr "x" = None
  ∧ _handleKeyPress "x" g = (Throw TypeError, g).
Proof.
  intros g.
  assert (currentTarget g = None) as Ht by (by vm_compute).
  assert (activeEnemies g !! VStr "x" = None) as Hk by (by vm_compute).
  split; [exact Ht|]. split; [exact Hk|].
  exact (keypress_unmatched_throws g "x" Ht Hk).
Defined.

(** C2: a spawn tick on an empty queue is not a no-op: [dequeue] lowers
    [size] by one all the same and hands [undefined] to [_addEnemyWord],
    which throws a TypeError on [enemy.next]. No enemy is spawned. *)
Theorem spawn_tick_on_empty_queue (g : Game) (rDur rPos : Q) :
  Queue.queue (enemyQueue g) = [] →
  spawnTick rDur rPos g
  = (Throw TypeError,
     set_enemyQueue
       {| Queue.queue := []; Queue.size := Queue.size (enemyQueue g) - 1 |} g).
Proof.
  intros Hq. unfold spawnTick, Queue.dequeue. unfold_M.
  rewrite Hq. done.
Qed.

(** A started game whose thirty queued words have all been taken by spawn
    ticks, before the next refill. *)
Lemma spawn_tick_on_empty_queue_witness :
  let words := ["cat"; "dog"]%string in
  let g := run words (Start "Normal" (λ _, 0%Q) :: replicate 30 (SpawnTick 0 0))
             new_Game in
  Queue.queue (enemyQueue g) = []
  ∧ Queue.size (enemyQueue g) = 0
  ∧ Queue.size (enemyQueue (exec (spawnTick 0 0) g)) = -1
  ∧ outcome (spawnTick 0 0) g = Throw TypeError.
Proof.
  intros words g.
  assert (Queue.queue (enemyQueue g) = []) as Hq by (by vm_compute).
  assert (Queue.size (enemyQueue g) = 0) as Hs by (by vm_compute).
  split; [exact Hq|]. split; [exact Hs|].
  unfold exec, outcome.
  rewrite (spawn_tick_on_empty_queue g 0 0 Hq). cbn [fst snd].
  split; [|reflexivity].
  cbn [set_enemyQueue enemyQueue Queue.size]. rewrite Hs. reflexivity.
Defined.

(** C8: the index drawn by [_loadIntoQueue] is [floor(r * (length - 1))]
    with [0 <= r < 1], so for a dictionary of two words or more it stays
    strictly below [length - 1]: the last word is never drawn, and the draw
    is not uniform over the dictionary. *)
Theorem randomIndex_never_last (words : list string) (r : Q) :
  (2 ≤ length words)%nat →
  (0 <= r)%Q → (r < 1)%Q →
  0 ≤ randomIndex words r < Z.of_nat (length words) - 1.
Proof.
  intros Hlen Hr0 Hr1. unfold randomIndex.
  set (m := Z.of_nat (length words) - 1).
  assert (0 < m) as Hm by lia.
  assert (0 < inject_Z m)%Q as HmQ.
  { change 0%Q with (inject_Z 0). by rewrite <- Zlt_Qlt. }
  split.
  - change 0 with (Qfloor (inject_Z 0)) at 1.
    apply Qfloor_resp_le. change (inject_Z 0) with 0%Q.
    apply Qmult_le_0_compat; [done|]. by apply Qlt_le_weak.
  - rewrite Zlt_Qlt.
    eapply Qle_lt_trans; [apply Qfloor_le|].
    eapply Qlt_le_trans; [apply Qmult_lt_compat_r; [exact HmQ | exact Hr1]|].
    rewrite Qmult_1_l. apply Qle_refl.
Qed.

(** Two words and a random value close to 1: the index is still 0. *)
Lemma randomIndex_never_last_witness :
  (2 ≤ length ["cat"; "dog"]%string)%nat
  ∧ (0 <= 99 # 100)%Q ∧ (99 # 100 < 1)%Q
  ∧ 0 ≤ randomIndex ["cat"; "dog"]%string (99 # 100) < 1.
Proof.
  assert (2 ≤ length ["cat"; "dog"]%string)%nat as H2 by (simpl; lia).
  assert (0 <= 99 # 100)%Q as H0 by (vm_compute; discriminate).
  assert (99 # 100 < 1)%Q as H1 by reflexivity.
  split; [exact H2|]. split; [exact H0|]. split; [exact H1|].
  exact (randomIndex_never_last ["cat"; "dog"]%string (99 # 100) H2 H0 H1).
Defined.

Lemma Qlt_5_not_eq (q : Q) : (q < 5)%Q → Qeq_bool q 5 = false.
Proof.
  intros Hq. destruct (Qeq_bool q 5) eqn:E; [|done].
  apply Qeq_bool_iff in E. rewrite E in Hq. by apply Qlt_irrefl in Hq.
Qed.

Lemma Qlt_5_not_ge (q : Q) : (q < 5)%Q → Qle_bool 5 q = false.
Proof.
  intros Hq. destruct (Qle_bool 5 q) eqn:E; [|done].
  apply Qle_bool_iff in E. by apply Qle_not_lt in E.
Qed.

(** C9: a difficulty tick on the "interval" axis at the floor of the spawn
    delay (500), below level 5, changes neither delay nor the level; it
    still restarts the timers, flips [nextModifier] to "wordlimit" and shows
    the message of the "interval" axis. *)
Theorem plateau_tick_still_flips (g : Game) :
  nextModifier g = VStr "interval" →
  enemySpawnDelay g = 500 →
  (difficultyLevel g < 5)%Q →
  let g' := exec _increaseDifficulty g in
  outcome _increaseDifficulty g = Ok ()
  ∧ enemySpawnDelay g' = enemySpawnDelay g
  ∧ loadQueueDelay g' = loadQueueDelay g
  ∧ difficultyLevel g' = difficultyLevel g
  ∧ nextModifier g' = VStr "wordlimit"
  ∧ dom g' = dom g ++
      [ ClearInterval (spawnInterval g);
        ClearInterval (enqueueInterval g);
        ClearInterval (difficultyInterval g);
        SetInterval (fresh g) SpawnTimer (enemySpawnDelay g);
        SetInterval (S (fresh g)) EnqueueTimer (loadQueueDelay g);
        SetInterval (S (S (fresh g))) DifficultyTimer difficultyIncreaseDelay;
        AppendMessage MessageDiv "Difficulty up - Intervals Decreased!";
        SetValue DifficultyDiv (DRat (difficultyLevel g)) ].
Proof.
  intros Hm Hd Hl g'. subst g'.
  unfold _increaseDifficulty, _setIntervals. run_M.
  rewrite (Qlt_5_not_eq _ Hl), Hm, Hd.
  rewrite !decide_True by done. change (500 <? 500) with false. run_M.
  rewrite updateDisplay_message_interval. run_M.
  rewrite updateDisplay_difficulty. run_M.
  rewrite (Qlt_5_not_ge _ Hl), ?Hd, <- !app_assoc. done.
Qed.

(** The state after eight ticks: level 4, spawn delay 500, "interval" next. *)
Lemma plateau_tick_still_flips_witness :
  let g := ticks 8 in
  nextModifier g = VStr "interval"
  ∧ enemySpawnDelay g = 500
  ∧ (difficultyLevel g < 5)%Q
  ∧ nextModifier (exec _increaseDifficulty g) = VStr "wordlimit"
  ∧ difficultyLevel (exec _increaseDifficulty g) = difficultyLevel g.
Proof.
  intros g.
  assert (nextModifier g = VStr "interval") as Hm by (vm_compute; reflexivity).
  assert (enemySpawnDelay g = 500) as Hd by (vm_compute; reflexivity).
  assert (difficultyLevel g < 5)%Q as Hl by (vm_compute; reflexivity).
  split; [exact Hm|]. split; [exact Hd|]. split; [exact Hl|].
  destruct (plateau_tick_still_flips g Hm Hd Hl) as (_ & _ & _ & H3 & H4 & _).
  split; [exact H4 | exact H3].
Defined.

(** ** The difficulty scaler *)

(** [_updateDisplay] writes to the display and to nothing else. *)
Lemma updateDisplay_only_dom (d : string) (v : dvalue) (m : jsval) (g : Game) :
  ∃ l, (_updateDisplay d v m g).2 = set_dom (dom g ++ l) g.
Proof.
  assert (g = set_dom (dom g ++ []) g) as Hid.
  { rewrite app_nil_r. by destruct g. }
  unfold _updateDisplay.
  repeat (case_decide || case_match); run_M; eauto.
Qed.

(** Destructing the calls of [_updateDisplay] left in the goal. *)
Ltac split_updateDisplay :=
  repeat match goal with
  | |- context [_updateDisplay ?d ?v ?m ?h] =>
      let l := fresh "l" in
      let H := fresh "H" in
      destruct (updateDisplay_only_dom d v m h) as [l H];
      destruct (_updateDisplay d v m h) as [[[]|?] ?];
      simpl in H; subst; run_M
  end.

Lemma setIntervals_scaling (g : Game) :
  scaling (exec _setIntervals g) = scaling g
  ∧ nextModifier (exec _setIntervals g) = nextModifier g
  ∧ outcome _setIntervals g = Ok ().
Proof. done. Qed.

(** What one tick does to the delays, the limits and the level. *)
Lemma increaseDifficulty_scaling (g : Game) :
  scaling (exec _increaseDifficulty g) =
    if Qeq_bool (difficultyLevel g) 5 then scaling g
    else if decide (nextModifier g = VStr "interval") then
      if 500 <? enemySpawnDelay g then
        (enemySpawnDelay g - 500, loadQueueDelay g - 1000, queueLimit g,
         activeEnemyLimit g, (difficultyLevel g + (1 # 2))%Q)
      else scaling g
    else if decide (nextModifier g = VStr "wordlimit") then
      if queueLimit g <? 60 then
        (enemySpawnDelay g, loadQueueDelay g, queueLimit g + 5,
         activeEnemyLimit g + 1, (difficultyLevel g + (1 # 2))%Q)
      else scaling g
    else scaling g.
Proof.
  unfold _increaseDifficulty, _setIntervals. unfold scaling.
  run_branches; split_updateDisplay; done.
Qed.

Lemma half_step (q : Q) (k : Z) :
  (q == k # 2)%Q → (q + (1 # 2) == (k + 1) # 2)%Q.
Proof.
  intros ->. unfold Qeq, Qplus. cbn [Qnum Qden]. lia.
Qed.

Lemma level_5_steps (q : Q) (a b : Z) :
  (q == (a + b) # 2)%Q → Qeq_bool q 5 = true ↔ a + b = 10.
Proof.
  intros Hq. rewrite Qeq_bool_iff, Hq. unfold Qeq. cbn [Qnum Qden]. lia.
Qed.

Lemma scaler_inv_level (g : Game) :
  scaler_inv g → (difficultyLevel g <= 5)%Q.
Proof.
  intros (a & b & Ha & Hb & _ & _ & _ & _ & ->).
  unfold Qle. cbn [Qnum Qden]. lia.
Qed.

Lemma scaler_inv_tick (g : Game) :
  scaler_inv g →
  scaler_inv (exec _increaseDifficulty g)
  ∧ (difficultyLevel g <= difficultyLevel (exec _increaseDifficulty g))%Q
  ∧ ((difficultyLevel g == 5)%Q →
     scaling (exec _increaseDifficulty g) = scaling g).
Proof.
  intros (a & b & Ha & Hb & Hsd & Hld & Hql & Hal & Hlv).
  pose proof (increaseDifficulty_scaling g) as Hs.
  pose proof (level_5_steps _ _ _ Hlv) as H5.
  set (g' := exec _increaseDifficulty g) in *.
  assert (scaling g' = scaling g → scaler_inv g'
            ∧ (difficultyLevel g <= difficultyLevel g')%Q
            ∧ ((difficultyLevel g == 5)%Q → scaling g' = scaling g)) as Hsame.
  { intros Heq. injection Heq as E1 E2 E3 E4 E5.
    split; [|split].
    - exists a, b. rewrite E1, E2, E3, E4, E5. done.
    - rewrite E5. apply Qle_refl.
    - intros _. unfold scaling. by rewrite E1, E2, E3, E4, E5. }
  destruct (Qeq_bool (difficultyLevel g) 5) eqn:E5; [by apply Hsame|].
  assert (a + b ≠ 10) as Hne by (intros ?%H5; congruence).
  assert (¬ (difficultyLevel g == 5)%Q) as Hn5.
  { intros ?%Qeq_bool_iff. congruence. }
  repeat case_decide; try (by apply Hsame).
  - destruct (500 <? enemySpawnDelay g) eqn:E; [|by apply Hsame].
    apply Z.ltb_lt in E. injection Hs as E1 E2 E3 E4 E6.
    split; [|split; [|done]].
    + exists (a + 1), b. rewrite E1, E2, E3, E4, E6.
      repeat split; try lia.
      replace (a + 1 + b) with (a + b + 1) by lia. by apply half_step.
    + rewrite E6. rewrite <- (Qplus_0_r (difficultyLevel g)) at 1.
      apply Qplus_le_r. done.
  - destruct (queueLimit g <? 60) eqn:E; [|by apply Hsame].
    apply Z.ltb_lt in E. injection Hs as E1 E2 E3 E4 E6.
    split; [|split; [|done]].
    + exists a, (b + 1). rewrite E1, E2, E3, E4, E6.
      repeat split; try lia.
      replace (a + (b + 1)) with (a + b + 1) by lia. by apply half_step.
    + rewrite E6. rewrite <- (Qplus_0_r (difficultyLevel g)) at 1.
      apply Qplus_le_r. done.
Qed.

Lemma scaler_inv_new : scaler_inv new_Game.
Proof. exists 0, 0. repeat split; done. Qed.

Lemma scaler_inv_ticks (n : nat) : scaler_inv (ticks n).
Proof.
  induction n as [|n IH]; [apply scaler_inv_new|].
  by apply scaler_inv_tick.
Qed.

(** C5: along every sequence of difficulty ticks from a new game, the level
    never exceeds 5 and never decreases, and once it has reached 5 no later
    tick changes a delay or a limit. *)
Theorem difficulty_capped_and_monotone (n m : nat) :
  (n ≤ m)%nat →
  (difficultyLevel (ticks n) <= 5)%Q
  ∧ (difficultyLevel (ticks n) <= difficultyLevel (ticks m))%Q
  ∧ ((difficultyLevel (ticks n) == 5)%Q → scaling (ticks m) = scaling (ticks n)).
Proof.
  intros Hnm. split; [apply scaler_inv_level, scaler_inv_ticks|].
  induction Hnm as [|m Hnm [IH1 IH2]].
  - split; [apply Qle_refl | done].
  - destruct (scaler_inv_tick (ticks m) (scaler_inv_ticks m)) as (_ & Hle & Heq).
    split.
    + eapply Qle_trans; [exact IH1 | exact Hle].
    + intros H5. specialize (IH2 H5).
      change (ticks (S m)) with (exec _increaseDifficulty (ticks m)).
      rewrite Heq; [done|].
      injection IH2 as _ _ _ _ ->. done.
Qed.

(** Level 5 is reached by the twelfth tick and nothing moves afterwards. *)
Lemma difficulty_capped_and_monotone_witness :
  (12 ≤ 20)%nat
  ∧ (difficultyLevel (ticks 12) == 5)%Q
  ∧ (difficultyLevel (ticks 12) <= difficultyLevel (ticks 20))%Q
  ∧ scaling (ticks 20) = scaling (ticks 12).
Proof.
  assert (12 ≤ 20)%nat as Hle by lia.
  assert (difficultyLevel (ticks 12) == 5)%Q as H5 by (vm_compute; reflexivity).
  destruct (difficulty_capped_and_monotone 12 20 Hle) as (_ & Hmono & Hfix).
  split; [exact Hle|]. split; [exact H5|]. split; [exact Hmono|].
  exact (Hfix H5).
Defined.

(** ** Keystrokes *)

Lemma clearEnemyWord_store (g : Game) :
  store (exec _clearEnemyWord g) = store g.
Proof.
  unfold _clearEnemyWord. run_M.
  destruct (currentTarget g); [|done].
  run_M. rewrite updateDisplay_score. run_M. done.
Qed.

(** With no target selected, the target after the keystroke is the entry
    stored under the key as it was typed. *)
Lemma handleKeyPress_selects (g : Game) (key : string) :
  currentTarget g = None →
  currentTarget (exec (_handleKeyPress key) g) = activeEnemies g !! VStr key.
Proof.
  intros Ht. unfold _handleKeyPress. run_M. rewrite Ht.
  destruct (activeEnemies g !! VStr key) as [wt|]; run_M; [done|].
  by rewrite Ht.
Qed.

(** ** The queue *)

Lemma fold_Set_add_spec (l acc : list ref) :
  NoDup acc →
  NoDup (fold_left Set_add l acc)
  ∧ (∀ r, r ∈ fold_left Set_add l acc ↔ r ∈ acc ∨ r ∈ l)
  ∧ ∃ t, fold_left Set_add l acc = acc ++ t ∧ t `sublist_of` l.
Proof.
  revert acc. induction l as [|x l IH]; intros acc Hacc; simpl.
  - split; [done|]. split; [set_solver|].
    exists []. by rewrite app_nil_r.
  - unfold Set_add at 2 4 6. case_decide as Hx.
    + destruct (IH acc Hacc) as (Hnd & Hin & t & Ht & Hsub).
      split; [done|]. split.
      * intros r. rewrite Hin. set_solver.
      * exists t. split; [done|]. by apply sublist_cons.
    + assert (NoDup (acc ++ [x])) as Hacc'.
      { apply NoDup_app. split; [done|]. split; [set_solver|].
        apply NoDup_singleton. }
      destruct (IH _ Hacc') as (Hnd & Hin & t & Ht & Hsub).
      split; [done|]. split.
      * intros r. rewrite Hin. set_solver.
      * exists (x :: t). split; [by rewrite Ht, <- app_assoc|].
        by apply sublist_skip.
Qed.

Lemma fold_Set_add_fresh (l acc : list ref) :
  NoDup (acc ++ l) → fold_left Set_add l acc = acc ++ l.
Proof.
  revert acc. induction l as [|x l IH]; intros acc Hnd; simpl.
  - by rewrite app_nil_r.
  - assert (x ∉ acc) as Hx.
    { apply NoDup_app in Hnd as (_ & Hd & _). intros Hin.
      apply (Hd x Hin). left. }
    unfold Set_add at 2. rewrite decide_False by done.
    rewrite IH; rewrite <- app_assoc; done.
Qed.

Lemma Set_of_NoDup (B : list ref) : NoDup B → Set_of B = B.
Proof. intros H. unfold Set_of. by rewrite fold_Set_add_fresh. Qed.

(** C4, as stated, fails: [new Set(data)] compares objects by identity.
    With the dictionary "cat", "dog" and a random source that returns 0,
    [_loadIntoQueue] builds thirty distinct instances of "cat"; all thirty
    are stored, where de-duplication by value would keep one. *)
Lemma enqueue_by_value_counterexample :
  let g := exec (_loadIntoQueue ["cat"; "dog"]%string (λ _, 0%Q)) new_Game in
  let B := seq 0 30 in
  enemyQueue g = Queue.enqueue B Queue.new
  ∧ forallb (λ r, bool_decide (deref g r = Enemy.new "cat")) B = true
  ∧ dedup_by_value (store g) B = [0%nat]
  ∧ Queue.queue (Queue.enqueue B Queue.new)
    ≠ Queue.queue Queue.new ++ dedup_by_value (store g) B.
Proof.
  cbn zeta. split; [by vm_compute|]. split; [by vm_compute|].
  split; [by vm_compute|]. by vm_compute.
Qed.

(** C4, amended: for every batch [B] of Enemy instances, [enqueue] adds
    [length B] to [size] and appends to the tail, in their original relative
    order, the elements of [B] with repeated occurrences of the very same
    instance dropped (identity, not value); distinct instances that carry
    the same word are all stored, so a batch of pairwise distinct instances,
    as [_loadIntoQueue] builds, is appended whole. *)
Theorem enqueue_dedups_by_identity (B : list ref) (q : Queue.t) :
  Queue.size (Queue.enqueue B q) = Queue.size q + Z.of_nat (length B)
  ∧ Queue.queue (Queue.enqueue B q) = Queue.queue q ++ Set_of B
  ∧ NoDup (Set_of B)
  ∧ (∀ r, r ∈ Set_of B ↔ r ∈ B)
  ∧ (Set_of B `sublist_of` B)
  ∧ (NoDup B → Set_of B = B).
Proof.
  split; [done|]. split; [done|].
  destruct (fold_Set_add_spec B [] (NoDup_nil_2 (A:=nat))) as (Hnd & Hin & t & Ht & Hsub).
  fold (Set_of B) in *. simpl in Ht. subst t.
  split; [done|]. split; [|split; [done | apply Set_of_NoDup]].
  intros r. rewrite Hin. set_solver.
Qed.

(** ** The registry of active enemies *)

Lemma registry_inv_new : registry_inv new_Game.
Proof.
  split; simpl.
  - apply NoDup_nil_2.
  - intros r Hr. by apply not_elem_of_nil in Hr.
  - intros k v Hk. by rewrite lookup_empty in Hk.
  - done.
  - rewrite map_size_empty. lia.
Qed.

(** Nothing the invariant reads has changed, but for identities handed
    out and a limit raised. *)
Lemma inv_frame (g g' : Game) :
  registry_inv g →
  Queue.queue (enemyQueue g') = Queue.queue (enemyQueue g) →
  activeEnemies g' = activeEnemies g →
  currentTarget g' = currentTarget g →
  store g' = store g →
  activeEnemyLimit g ≤ activeEnemyLimit g' →
  (fresh g ≤ fresh g')%nat →
  registry_inv g'.
Proof.
  intros [H1 H2 H3 H4 H5] Eq Ea Ec Es Hl Hf.
  split; unfold deref in *; rewrite ?Eq, ?Ea, ?Ec, ?Es.
  - done.
  - intros r Hr. destruct (H2 r Hr) as [? ?]. split; [lia | done].
  - intros k v Hk. destruct (H3 k v Hk) as (? & ? & ?).
    split; [lia | done].
  - intros v Hv. destruct (H4 v Hv) as [? ?]. split; [lia | done].
  - lia.
Qed.

(** An entry is removed; the target is kept or dropped. *)
Lemma inv_delete (g g' : Game) (k : jsval) :
  registry_inv g →
  Queue.queue (enemyQueue g') = Queue.queue (enemyQueue g) →
  activeEnemies g' = delete k (activeEnemies g) →
  (currentTarget g' = currentTarget g ∨ currentTarget g' = None) →
  store g' = store g →
  activeEnemyLimit g ≤ activeEnemyLimit g' →
  (fresh g ≤ fresh g')%nat →
  registry_inv g'.
Proof.
  intros [H1 H2 H3 H4 H5] Eq Ea Ec Es Hl Hf.
  split; unfold deref in *; rewrite ?Eq, ?Ea, ?Es.
  - done.
  - intros r Hr. destruct (H2 r Hr) as [? ?]. split; [lia | done].
  - intros k' v Hk. apply lookup_delete_Some in Hk as [_ Hk].
    destruct (H3 k' v Hk) as (? & ? & ?). split; [lia | done].
  - intros v Hv. destruct Ec as [Ec|Ec]; rewrite Ec in Hv; [|done].
    destruct (H4 v Hv) as [? ?]. split; [lia | done].
  - pose proof (map_size_delete k (activeEnemies g)) as Hs.
    destruct (activeEnemies g !! k); simpl in Hs; lia.
Qed.

(** The enemy of an entry of the registry, or of the target, is advanced;
    the target is kept or set to an entry of the registry. *)
Lemma inv_mutate (g g' : Game) (r : nat) (e : Enemy.t) :
  registry_inv g →
  r ∉ Queue.queue (enemyQueue g) →
  Enemy.word e = Enemy.word (deref g r) →
  Queue.queue (enemyQueue g') = Queue.queue (enemyQueue g) →
  activeEnemies g' = activeEnemies g →
  (currentTarget g' = currentTarget g
   ∨ ∃ k v, activeEnemies g !! k = Some v ∧ currentTarget g' = Some v) →
  store g' = <[r := e]> (store g) →
  activeEnemyLimit g ≤ activeEnemyLimit g' →
  (fresh g ≤ fresh g')%nat →
  registry_inv g'.
Proof.
  intros [H1 H2 H3 H4 H5] Hr Hw Eq Ea Ec Es Hl Hf.
  split; unfold deref in *; rewrite ?Eq, ?Ea, ?Es.
  - done.
  - intros x Hx. destruct (H2 x Hx) as [? ?]. split; [lia|].
    rewrite lookup_insert_ne; [done|]. by intros ->.
  - intros k v Hk. destruct (H3 k v Hk) as (? & ? & Hkey).
    split; [lia|]. split; [done|].
    destruct (decide (r = enemy v)) as [->|Hne].
    + by rewrite lookup_total_insert_eq, Hw.
    + by rewrite lookup_total_insert_ne.
  - intros v Hv. destruct Ec as [Ec|(k & v' & Hk & Ec)]; rewrite Ec in Hv.
    + destruct (H4 v Hv) as [? ?]. split; [lia | done].
    + injection Hv as <-. destruct (H3 k v' Hk) as (? & ? & _).
      split; [lia | done].
  - lia.
Qed.

Lemma frames_refl (g : Game) : frames g g.
Proof. repeat split; done. Qed.

Lemma frames_trans (g1 g2 g3 : Game) :
  frames g1 g2 → frames g2 g3 → frames g1 g3.
Proof.
  intros (?&?&?&?&?&?) (?&?&?&?&?&?).
  repeat split; try congruence; lia.
Qed.

Lemma frames_inv (g g' : Game) : frames g g' → registry_inv g → registry_inv g'.
Proof. intros (?&?&?&?&?&?) Hg. by eapply inv_frame. Qed.

Lemma frames_set_dom (g : Game) (l : list effect) : frames g (set_dom l g).
Proof. repeat split; done. Qed.

Lemma updateDisplay_frames (d : string) (v : dvalue) (m : jsval) (g : Game) :
  frames g (_updateDisplay d v m g).2.
Proof.
  destruct (updateDisplay_only_dom d v m g) as [l ->]. apply frames_set_dom.
Qed.

Lemma setIntervals_frames (g : Game) : frames g (exec _setIntervals g).
Proof. repeat split; simpl; lia. Qed.

Lemma increaseDifficulty_frames (g : Game) :
  frames g (exec _increaseDifficulty g).
Proof.
  unfold _increaseDifficulty, _setIntervals, frames.
  run_branches; split_updateDisplay; repeat split; simpl; lia.
Qed.

Lemma mapM_cons {A B} (f : A → M B) (x : A) (l : list A) :
  mapM f (x :: l) = (y ← f x; k ← mapM f l; mret (y :: k)).
Proof. reflexivity. Qed.

Lemma mapM_emit {A} (f : A → effect) (l : list A) (g : Game) :
  mapM (λ x, emit (f x)) l g = (Ok (const () <$> l), set_dom (dom g ++ (f <$> l)) g).
Proof.
  revert g. induction l as [|x l IH]; intros g.
  - simpl. rewrite app_nil_r. by destruct g.
  - rewrite mapM_cons. run_M. rewrite IH. run_M.
    by rewrite <- app_assoc.
Qed.

Lemma mapM_emit_unfolded {A} (f : A → effect) (l : list A) (g : Game) :
  mapM (M:=M) (λ x g, (Ok (), set_dom (dom g ++ [f x]) g)) l g
  = (Ok (const () <$> l), set_dom (dom g ++ (f <$> l)) g).
Proof. exact (mapM_emit f l g). Qed.

Lemma clearEnemyWord_inv (g : Game) :
  registry_inv g → registry_inv (exec _clearEnemyWord g).
Proof.
  intros Hg. unfold _clearEnemyWord. run_M.
  destruct (currentTarget g) as [t|] eqn:Ht; [|done].
  run_M. rewrite updateDisplay_score. run_M.
  eapply (inv_delete g); [done | try reflexivity ..]; simpl; auto; lia.
Qed.

Lemma handleKeyPress_inv (key : string) (g : Game) :
  registry_inv g → registry_inv (exec (_handleKeyPress key) g).
Proof.
  intros Hg. unfold _handleKeyPress. run_M.
  destruct (currentTarget g) as [t|] eqn:Ht.
  - case_decide as Hk; [|done]. run_M.
    destruct (ri_target g Hg t Ht) as [_ Hq].
    match goal with
    | |- context [if ?c then _ else _] => destruct c
    end.
    + match goal with
      | |- context [_clearEnemyWord ?h] =>
          apply (clearEnemyWord_inv h)
      end.
      eapply (inv_mutate g _ (enemy t)); [done | exact Hq | ..];
        [| reflexivity | reflexivity | left; simpl; done | reflexivity
         | simpl; lia | simpl; lia].
      done.
    + run_M.
      eapply (inv_mutate g _ (enemy t)); [done | exact Hq | ..];
        [| reflexivity | reflexivity | left; simpl; done | reflexivity
         | simpl; lia | simpl; lia].
      done.
  - destruct (activeEnemies g !! VStr key) as [wt|] eqn:Hk; run_M.
    + destruct (ri_entry g Hg _ _ Hk) as (_ & Hq & _).
      eapply (inv_mutate g _ (enemy wt)); [done | exact Hq | ..];
        [| reflexivity | reflexivity | right; eauto | reflexivity
         | simpl; lia | simpl; lia].
      done.
    + by rewrite Ht.
Qed.

Lemma addEnemyWord_inv (r : nat) (rDur rPos : Q) (g : Game) :
  registry_inv g →
  (r < fresh g)%nat →
  r ∉ Queue.queue (enemyQueue g) →
  (∃ w, store g !! r = Some (Enemy.new w)) →
  registry_inv (exec (_addEnemyWord (Some r) rDur rPos) g).
Proof.
  intros Hg Hr Hq [w Hw]. unfold _addEnemyWord. run_M.
  assert (deref g r = Enemy.new w) as He.
  { unfold deref. by rewrite lookup_total_alt, Hw. }
  rewrite He. cbn [Enemy.next Enemy.new Enemy.word].
  destruct (activeEnemies g !! index w 0) eqn:Hk; [done|].
  destruct (Z.of_nat (size (activeEnemies g)) >=? activeEnemyLimit g) eqn:Hl;
    [done|].
  run_M. destruct Hg as [H1 H2 H3 H4 H5].
  split; unfold deref in *; simpl.
  - done.
  - intros x Hx. destruct (H2 x Hx) as [? ?]. split; [lia | done].
  - intros k v Hv. apply lookup_insert_Some in Hv as [[<- <-]|[_ Hv]].
    + simpl. split; [lia|]. split; [done|].
      by rewrite lookup_total_alt, Hw.
    + destruct (H3 k v Hv) as (? & ? & ?). split; [lia | done].
  - intros v Hv. destruct (H4 v Hv) as [? ?]. split; [lia | done].
  - rewrite map_size_insert_None by done. lia.
Qed.

(** The head of the queue is taken out. *)
Lemma inv_tail (g g' : Game) (r : nat) (q : list nat) :
  registry_inv g →
  Queue.queue (enemyQueue g) = r :: q →
  Queue.queue (enemyQueue g') = q →
  activeEnemies g' = activeEnemies g →
  currentTarget g' = currentTarget g →
  store g' = store g →
  activeEnemyLimit g' = activeEnemyLimit g →
  fresh g' = fresh g →
  registry_inv g'
  ∧ (r < fresh g')%nat
  ∧ (r ∉ Queue.queue (enemyQueue g'))
  ∧ ∃ w, store g' !! r = Some (Enemy.new w).
Proof.
  intros [H1 H2 H3 H4 H5] Hq Eq Ea Ec Es El Ef.
  rewrite Hq in *. apply NoDup_cons in H1 as [Hr H1].
  split; [split|]; unfold deref in *; rewrite ?Eq, ?Ea, ?Ec, ?Es, ?El, ?Ef.
  - done.
  - intros x Hx. apply H2. by right.
  - intros k v Hk. destruct (H3 k v Hk) as (? & Hn & ?).
    split; [done|]. split; [|done]. intros Hin. apply Hn. by right.
  - intros v Hv. destruct (H4 v Hv) as [? Hn]. split; [done|].
    intros Hin. apply Hn. by right.
  - done.
  - split; [|split; [done|]]; apply H2; left.
Qed.

Lemma spawnTick_inv (rDur rPos : Q) (g : Game) :
  registry_inv g → registry_inv (exec (spawnTick rDur rPos) g).
Proof.
  intros Hg. unfold spawnTick, Queue.dequeue. run_M.
  destruct (Queue.queue (enemyQueue g)) as [|r q] eqn:Hq; cbn [head tail].
  - unfold _addEnemyWord. run_M.
    eapply (inv_frame g); [done | simpl; by rewrite Hq | done ..].
  - match goal with
    | |- context [_addEnemyWord _ _ _ ?h] =>
        destruct (inv_tail g h r q Hg Hq) as (Hh & Hr & Hn & Hw);
          [reflexivity ..|];
        apply (addEnemyWord_inv r rDur rPos h Hh Hr Hn Hw)
    end.
Qed.

Lemma allocs_refl (g : Game) : allocs g g.
Proof. repeat split; try done. intros x Hx. lia. Qed.

Lemma allocs_trans (g1 g2 g3 : Game) :
  allocs g1 g2 → allocs g2 g3 → allocs g1 g3.
Proof.
  intros (?&?&?&?&?&Hs1&Hn1) (?&?&?&?&?&Hs2&Hn2).
  repeat split; try congruence; try lia.
  - intros x Hx. rewrite Hs2 by lia. by apply Hs1.
  - intros x Hx. destruct (decide (x < fresh g2)%nat).
    + rewrite Hs2 by done. apply Hn1. lia.
    + apply Hn2. lia.
Qed.

Lemma newEnemy_spec (words : list string) (r : Q) (g : Game) :
  allocs g (newEnemy words r g).2
  ∧ ∀ x, (newEnemy words r g).1 = Ok x →
         x = fresh g ∧ fresh (newEnemy words r g).2 = S (fresh g).
Proof.
  unfold newEnemy. destruct (words_at words (randomIndex words r)); run_M.
  - split; [|intros x [= <-]; done].
    repeat split; simpl; try done; try lia.
    + intros x Hx. rewrite lookup_insert_ne; [done | lia].
    + intros x Hx. assert (x = fresh g) as -> by lia.
      rewrite lookup_insert_eq. eauto.
  - split; [apply allocs_refl | done].
Qed.

Lemma mapM_newEnemy_spec (words : list string) (rnd : nat → Q)
    (l : list nat) (g : Game) :
  allocs g (mapM (λ i, newEnemy words (rnd i)) l g).2
  ∧ ∀ refs, (mapM (λ i, newEnemy words (rnd i)) l g).1 = Ok refs →
      refs = seq (fresh g) (length l)
      ∧ fresh (mapM (λ i, newEnemy words (rnd i)) l g).2
        = (fresh g + length l)%nat.
Proof.
  revert g. induction l as [|i l IH]; intros g.
  - simpl. split; [apply allocs_refl|]. intros refs [= <-].
    split; [done | simpl; lia].
  - rewrite mapM_cons. unfold mbind, M_bind, mret, M_ret.
    destruct (newEnemy_spec words (rnd i) g) as [Ha Hx].
    destruct (newEnemy words (rnd i) g) as [[x|e] g1]; simpl in *.
    + destruct (Hx x eq_refl) as [-> Hf].
      destruct (IH g1) as [Ha1 Hr].
      destruct (mapM (λ i, newEnemy words (rnd i)) l g1) as [[refs|e] g2];
        simpl in *.
      * split; [by eapply allocs_trans|].
        intros refs' [= <-]. destruct (Hr refs eq_refl) as [-> Hf2].
        rewrite Hf. split; [done | lia].
      * split; [by eapply allocs_trans | done].
    + split; [done | done].
Qed.

Lemma allocs_inv (g g' : Game) :
  allocs g g' → registry_inv g → registry_inv g'.
Proof.
  intros (Eq & Ea & Ec & El & Hf & Hs & _) [H1 H2 H3 H4 H5].
  split; unfold deref in *; rewrite ?Eq, ?Ea, ?Ec, ?El.
  - done.
  - intros r Hr. destruct (H2 r Hr) as [? ?]. split; [lia|].
    by rewrite Hs.
  - intros k v Hk. destruct (H3 k v Hk) as (? & ? & ?).
    split; [lia|]. split; [done|].
    by rewrite lookup_total_alt, Hs, <- lookup_total_alt.
  - intros v Hv. destruct (H4 v Hv) as [? ?]. split; [lia | done].
  - done.
Qed.

(** The batch [_loadIntoQueue] has just allocated goes to the queue. *)
Lemma inv_enqueue (g g1 : Game) (n : nat) :
  registry_inv g →
  allocs g g1 →
  fresh g1 = (fresh g + n)%nat →
  registry_inv
    (set_enemyQueue (Queue.enqueue (seq (fresh g) n) (enemyQueue g1)) g1).
Proof.
  intros Hg Ha Hf. pose proof (allocs_inv _ _ Ha Hg) as [H1 H2 H3 H4 H5].
  destruct Ha as (Eq & Ea & Ec & El & _ & Hs & Hn).
  destruct Hg as [_ G2 G3 G4 _].
  split; unfold deref in *; simpl.
  - rewrite Set_of_NoDup by apply NoDup_seq.
    apply NoDup_app. split; [done|]. split; [|apply NoDup_seq].
    intros x Hx Hx'. rewrite Eq in Hx. apply G2 in Hx as [Hx _].
    apply elem_of_seq in Hx'. lia.
  - rewrite Set_of_NoDup by apply NoDup_seq.
    intros x [Hx|Hx]%elem_of_app; [by apply H2|].
    apply elem_of_seq in Hx. split; [lia|]. apply Hn. lia.
  - rewrite Set_of_NoDup by apply NoDup_seq.
    intros k v Hk. destruct (H3 k v Hk) as (? & ? & ?).
    split; [done|]. split; [|done].
    intros [Hx|Hx]%elem_of_app; [done|].
    rewrite Ea in Hk. apply G3 in Hk as [Hk _].
    apply elem_of_seq in Hx. lia.
  - rewrite Set_of_NoDup by apply NoDup_seq.
    intros v Hv. destruct (H4 v Hv) as [? ?]. split; [done|].
    intros [Hx|Hx]%elem_of_app; [done|].
    rewrite Ec in Hv. apply G4 in Hv as [Hv _].
    apply elem_of_seq in Hx. lia.
  - done.
Qed.

Lemma loadIntoQueue_inv (words : list string) (rnd : nat → Q) (g : Game) :
  registry_inv g → registry_inv (exec (_loadIntoQueue words rnd) g).
Proof.
  intros Hg. unfold _loadIntoQueue. run_M.
  set (l := seq 0 (Z.to_nat (queueLimit g - Queue.size (enemyQueue g)))).
  destruct (mapM_newEnemy_spec words rnd l g) as [Ha Hr].
  destruct (mapM (λ i, newEnemy words (rnd i)) l g) as [[refs|e] g1];
    simpl in *.
  - destruct (Hr refs eq_refl) as [-> Hf].
    run_M. by apply inv_enqueue.
  - by eapply allocs_inv.
Qed.

Lemma resetDefaults_inv (g : Game) : registry_inv (exec _resetDefaults g).
Proof.
  unfold _resetDefaults. run_M. rewrite mapM_emit_unfolded. run_M.
  split; simpl.
  - apply NoDup_nil_2.
  - intros r Hr. by apply not_elem_of_nil in Hr.
  - intros k v Hk. by rewrite lookup_empty in Hk.
  - done.
  - rewrite map_size_empty. lia.
Qed.

Lemma endGame_inv (g : Game) : registry_inv (exec endGame g).
Proof.
  unfold endGame. run_M.
  match goal with
  | |- context [_resetDefaults ?h] =>
      pose proof (resetDefaults_inv h) as Hh; unfold exec in Hh;
      destruct (_resetDefaults h) as [[[]|e] h']
  end; simpl in *; [|done].
  run_M. by eapply (inv_frame h').
Qed.

Lemma collisionHandler_inv (word : string) (g : Game) :
  registry_inv g → registry_inv (exec (_collisionHandler word) g).
Proof.
  intros Hg. unfold _collisionHandler. run_M.
  rewrite updateDisplay_lives. run_M.
  destruct (activeEnemies g !! index word 0) as [ev|] eqn:Hk.
  - case_decide; run_M;
      (match goal with
       | |- context [if ?c then _ else _] => destruct c
       end; [apply endGame_inv|]);
      run_M;
      (eapply (inv_delete g); [done | try reflexivity ..]);
      simpl; auto; lia.
  - case_decide; run_M;
      (eapply (inv_delete g); [done | try reflexivity ..]);
      simpl; auto; lia.
Qed.

Lemma framing_preserving {A} (m : M A) : framing m → preserving m.
Proof. intros Hm g Hg. eapply frames_inv; [apply Hm | done]. Qed.

Lemma preserving_bind {A B} (m : M A) (f : A → M B) :
  preserving m → (∀ a, preserving (f a)) → preserving (m ≫= f).
Proof.
  intros Hm Hf g Hg. specialize (Hm g Hg). unfold exec, mbind, M_bind in *.
  destruct (m g) as [[a|e] g']; simpl in *; [by apply Hf | done].
Qed.

Lemma framing_bind {A B} (m : M A) (f : A → M B) :
  framing m → (∀ a, framing (f a)) → framing (m ≫= f).
Proof.
  intros Hm Hf g. specialize (Hm g). unfold exec, mbind, M_bind in *.
  destruct (m g) as [[a|e] g']; simpl in *; [|done].
  eapply frames_trans; [exact Hm | apply Hf].
Qed.

Lemma framing_ret {A} (a : A) : framing (mret a).
Proof. intros g. apply frames_refl. Qed.

Lemma framing_get : framing get.
Proof. intros g. apply frames_refl. Qed.

Lemma framing_emit (e : effect) : framing (emit e).
Proof. intros g. apply frames_set_dom. Qed.

Lemma framing_setIntervals : framing _setIntervals.
Proof. intros g. apply setIntervals_frames. Qed.

Lemma framing_set_score (v : Z) : framing (modify (set_score v)).
Proof. intros g. repeat split; done. Qed.

Lemma framing_set_gameMode (v : string) : framing (modify (set_gameMode v)).
Proof. intros g. repeat split; done. Qed.

Lemma framing_set_lives (f : Game → lives_t) :
  framing (modify (λ g, set_lives (f g) g)).
Proof. intros g. repeat split; done. Qed.

Create HintDb framing.
#[local] Hint Resolve framing_ret framing_get framing_emit framing_setIntervals
  framing_set_score framing_set_gameMode framing_set_lives : framing.

Ltac framing_steps :=
  repeat first
    [ apply framing_bind; [|intros ?]
    | solve [auto with framing] ].

Lemma initGame_inv (words : list string) (mode : string) (rnd : nat → Q) :
  preserving (initGame words mode rnd).
Proof.
  unfold initGame.
  repeat (apply preserving_bind;
          [first [ apply framing_preserving; solve [auto with framing]
                 | intros g Hg; by apply loadIntoQueue_inv ]
          | intros ?]).
  apply framing_preserving. auto with framing.
Qed.

Lemma handle_inv (words : list string) (ev : event) :
  preserving (handle words ev).
Proof.
  destruct ev; cbn [handle].
  - apply initGame_inv.
  - intros g Hg. by apply handleKeyPress_inv.
  - intros g Hg. by apply spawnTick_inv.
  - intros g Hg. by apply loadIntoQueue_inv.
  - apply framing_preserving. intros g. apply increaseDifficulty_frames.
  - intros g Hg. by apply collisionHandler_inv.
  - apply preserving_bind; [apply framing_preserving; auto with framing|].
    intros _. apply preserving_bind; [apply framing_preserving; auto with framing|].
    intros g. apply initGame_inv.
  - apply framing_preserving. framing_steps.
Qed.

Lemma reachable_inv (words : list string) (g : Game) :
  reachable words g → registry_inv g.
Proof.
  induction 1 as [|g ev _ IH]; [apply registry_inv_new|].
  by apply handle_inv.
Qed.

(** C7: in every state the controller can reach, whatever the events and
    their order, two entries of the registry never have words with the same
    lead character (an entry is stored under the lead character of its
    word), and the registry never holds more entries than
    [activeEnemyLimit]. *)
Theorem registry_unique_and_bounded (words : list string) (g : Game) :
  reachable words g →
  (∀ k v, activeEnemies g !! k = Some v →
          k = index (Enemy.word (deref g (enemy v))) 0)
  ∧ (∀ k1 k2 v1 v2,
       activeEnemies g !! k1 = Some v1 →
       activeEnemies g !! k2 = Some v2 →
       index (Enemy.word (deref g (enemy v1))) 0
       = index (Enemy.word (deref g (enemy v2))) 0 →
       k1 = k2 ∧ v1 = v2)
  ∧ Z.of_nat (size (activeEnemies g)) ≤ activeEnemyLimit g.
Proof.
  intros [_ _ H3 _ H5]%reachable_inv.
  split; [|split; [|done]].
  - intros k v Hk. by destruct (H3 k v Hk) as (_ & _ & ?).
  - intros k1 k2 v1 v2 Hk1 Hk2 Heq.
    destruct (H3 k1 v1 Hk1) as (_ & _ & E1).
    destruct (H3 k2 v2 Hk2) as (_ & _ & E2).
    assert (k1 = k2) as -> by congruence.
    split; [done | congruence].
Qed.

Lemma reachable_run (words : list string) (evs : list event) (g : Game) :
  reachable words g → reachable words (run words evs g).
Proof.
  revert g. induction evs as [|ev evs IH]; intros g Hg; [done|].
  apply IH. by apply reachable_step.
Qed.

(** A started game after four spawn ticks that draw "cat", "dog", "cat",
    "dog": the second "cat" and the second "dog" are dropped. *)
Lemma registry_unique_and_bounded_witness :
  let words := ["cat"; "dog"; "cow"]%string in
  let rnd := λ i : nat, if Nat.even i then 0%Q else (1 # 2)%Q in
  let g := run words
             [Start "Normal" rnd; SpawnTick 0 0; SpawnTick 0 0;
              SpawnTick 0 0; SpawnTick 0 0] new_Game in
  reachable words g
  ∧ size (activeEnemies g) = 2%nat
  ∧ Z.of_nat (size (activeEnemies g)) ≤ activeEnemyLimit g.
Proof.
  intros words rnd g.
  assert (reachable words g) as Hg by apply reachable_run, reachable_new.
  split; [exact Hg|]. split; [by vm_compute|].
  exact (proj2 (proj2 (registry_unique_and_bounded words g Hg))).
Defined.

(** When [_loadIntoQueue] completes, it has drawn exactly
    [queueLimit - size] words (none when that is negative) and all of them
    are in the queue. *)
Lemma loadIntoQueue_count (words : list string) (rnd : nat → Q) (g : Game) :
  outcome (_loadIntoQueue words rnd) g = Ok () →
  let needed := Z.to_nat (queueLimit g - Queue.size (enemyQueue g)) in
  registry_inv g →
  Queue.queue (enemyQueue (exec (_loadIntoQueue words rnd) g))
  = Queue.queue (enemyQueue g) ++ seq (fresh g) needed
  ∧ Queue.size (enemyQueue (exec (_loadIntoQueue words rnd) g))
    = Queue.size (enemyQueue g) + Z.of_nat needed.
Proof.
  unfold _loadIntoQueue. run_M.
  set (l := seq 0 (Z.to_nat (queueLimit g - Queue.size (enemyQueue g)))).
  destruct (mapM_newEnemy_spec words rnd l g) as [Ha Hr].
  destruct (mapM (λ i, newEnemy words (rnd i)) l g) as [[refs|e] g1];
    simpl in *; [|done].
  intros _ _. destruct (Hr refs eq_refl) as [-> _].
  destruct Ha as (-> & _). run_M. simpl.
  rewrite Set_of_NoDup by apply NoDup_seq.
  unfold l. rewrite !length_seq. done.
Qed.

(** In a reachable state, the word selected by a keystroke begins with
    exactly the key that was typed. *)
Lemma selection_is_exact (words : list string) (g : Game) (key : string)
    (v : EnemyValueObject) :
  reachable words g →
  currentTarget g = None →
  currentTarget (exec (_handleKeyPress key) g) = Some v →
  index (Enemy.word (deref g (enemy v))) 0 = VStr key.
Proof.
  intros Hg%reachable_inv Ht Hv. rewrite handleKeyPress_selects in Hv by done.
  by destruct (ri_entry g Hg _ _ Hv) as (_ & _ & <-).
Qed.

Lemma lower_of_upper (c : ascii) :
  upper_ascii c ≠ c → lower_ascii (upper_ascii c) = c.
Proof.
  destruct c as [[] [] [] [] [] [] [] []]; intros H;
    solve [reflexivity | by destruct H].
Qed.

Lemma lower_of_lower_case (c : ascii) :
  upper_ascii c ≠ c → lower_ascii c = c.
Proof.
  destruct c as [[] [] [] [] [] [] [] []]; intros H;
    solve [reflexivity | by destruct H].
Qed.

(** C10: selection and continuation treat letter case differently. With no
    target selected the new target is the entry stored under the key exactly
    as it was typed, so the word selected begins with that very key, and the
    upper-case form of a lower-case letter [c] never selects a word that
    begins with [c]. With a target selected the key is compared in lower
    case: the upper-case form of [c] is handled exactly as [c] itself and
    advances a target whose next character is [c]; more generally keys with
    the same lower-case form are handled alike, and a key whose lower-case
    form is not the next character is ignored. *)
Theorem keypress_case_handling (words : list string) (g : Game) (c : ascii) :
  reachable words g →
  upper_ascii c ≠ c →
  let lo := String c EmptyString in
  let up := String (upper_ascii c) EmptyString in
  (currentTarget g = None →
     (∀ key, currentTarget (exec (_handleKeyPress key) g)
             = activeEnemies g !! VStr key)
     ∧ (∀ key v, currentTarget (exec (_handleKeyPress key) g) = Some v →
                 index (Enemy.word (deref g (enemy v))) 0 = VStr key)
     ∧ (∀ v, index (Enemy.word (deref g (enemy v))) 0 = VStr lo →
             currentTarget (exec (_handleKeyPress up) g) ≠ Some v))
  ∧ (∀ target, currentTarget g = Some target →
     _handleKeyPress up g = _handleKeyPress lo g
     ∧ (Enemy.next (deref g (enemy target)) = VStr lo →
        deref (exec (_handleKeyPress up) g) (enemy target)
        = Enemy.updateCompletionPercentage (deref g (enemy target)))
     ∧ (∀ key key', toLowerCase key' = toLowerCase key →
                    _handleKeyPress key' g = _handleKeyPress key g)
     ∧ (∀ key, VStr (toLowerCase key) ≠ Enemy.next (deref g (enemy target)) →
               _handleKeyPress key g = (Ok (), g))
     ∧ (∀ key, VStr (toLowerCase key) = Enemy.next (deref g (enemy target)) →
               deref (exec (_handleKeyPress key) g) (enemy target)
               = Enemy.updateCompletionPercentage (deref g (enemy target)))).
Proof.
  intros Hg Hc lo up.
  assert (toLowerCase up = lo) as Hup.
  { unfold up, lo. cbn [toLowerCase]. by rewrite lower_of_upper. }
  assert (toLowerCase lo = lo) as Hlo.
  { unfold lo. cbn [toLowerCase]. by rewrite lower_of_lower_case. }
  split.
  - intros Ht. split; [|split].
    + intros key. by apply handleKeyPress_selects.
    + intros key v Hv. by apply (selection_is_exact words).
    + intros v Hv Hsel. apply (selection_is_exact words) in Hsel; [|done..].
      rewrite Hv in Hsel. apply Hc. unfold lo, up in Hsel. congruence.
  - intros target Ht.
    assert (∀ key, VStr (toLowerCase key) = Enemy.next (deref g (enemy target)) →
               deref (exec (_handleKeyPress key) g) (enemy target)
               = Enemy.updateCompletionPercentage (deref g (enemy target)))
      as Hadv.
    { intros key Heq. unfold _handleKeyPress. run_M. rewrite Ht.
      rewrite decide_True by done. run_M.
      unfold deref at 1.
      match goal with
      | |- context [if ?c then _ else _] => destruct c
      end.
      * match goal with
        | |- context [_clearEnemyWord ?h] =>
            pose proof (clearEnemyWord_store h) as Hs;
            unfold exec in Hs; rewrite Hs
        end.
        run_M. by rewrite lookup_total_insert_eq.
      * run_M. by rewrite lookup_total_insert_eq. }
    assert (∀ key key', toLowerCase key' = toLowerCase key →
                    _handleKeyPress key' g = _handleKeyPress key g) as Hsame.
    { intros key key' Hk. unfold _handleKeyPress. run_M. by rewrite Ht, Hk. }
    split; [apply Hsame; by rewrite Hup, Hlo|].
    split; [intros Hn; apply Hadv; by rewrite Hup|].
    split; [exact Hsame|]. split; [|exact Hadv].
    intros key Hne. unfold _handleKeyPress. run_M. rewrite Ht.
    by rewrite decide_False.
Qed.

Lemma keypress_case_handling_witness :
  let words := ["cat"; "dog"]%string in
  let g := run words [Start "Normal" (λ _, 0%Q); SpawnTick 0 0] new_Game in
  let g1 := run words [Start "Normal" (λ _, 0%Q); SpawnTick 0 0; KeyDown "c"]
              new_Game in
  let v := MkEVO 0 33 34 in
  (reachable words g ∧ currentTarget g = None
   ∧ activeEnemies g !! VStr "c" = Some v
   ∧ index (Enemy.word (deref g (enemy v))) 0 = VStr "c"
   ∧ currentTarget (exec (_handleKeyPress "C") g) ≠ Some v
   ∧ currentTarget (exec (_handleKeyPress "c") g) = activeEnemies g !! VStr "c")
  ∧ (reachable words g1 ∧ currentTarget g1 = Some v
     ∧ Enemy.next (deref g1 (enemy v)) = VStr "a"
     ∧ _handleKeyPress "A" g1 = _handleKeyPress "a" g1
     ∧ deref (exec (_handleKeyPress "A") g1) (enemy v)
       = Enemy.updateCompletionPercentage (deref g1 (enemy v))).
Proof.
  intros words g g1 v. split.
  - clear g1.
    assert (reachable words g) as Hg by apply reachable_run, reachable_new.
    assert (currentTarget g = None) as Ht by (by vm_compute).
    assert (activeEnemies g !! VStr "c" = Some v) as Hk by (by vm_compute).
    assert (index (Enemy.word (deref g (enemy v))) 0 = VStr "c") as Hi
      by (by vm_compute).
    assert (upper_ascii "c" ≠ "c"%char) as Hc by discriminate.
    destruct (keypress_case_handling words g "c" Hg Hc) as [Hsel _].
    destruct (Hsel Ht) as (H1 & _ & H3).
    split; [exact Hg|]. split; [exact Ht|]. split; [exact Hk|].
    split; [exact Hi|]. split; [exact (H3 v Hi) | exact (H1 "c"%string)].
  - clear g.
    assert (reachable words g1) as Hg1 by apply reachable_run, reachable_new.
    assert (currentTarget g1 = Some v) as Ht1 by (by vm_compute).
    assert (Enemy.next (deref g1 (enemy v)) = VStr "a") as Hn by (by vm_compute).
    assert (upper_ascii "a" ≠ "a"%char) as Ha by discriminate.
    destruct (keypress_case_handling words g1 "a" Hg1 Ha) as [_ Hcont].
    destruct (Hcont v Ht1) as (H4 & H5 & _).
    split; [exact Hg1|]. split; [exact Ht1|]. split; [exact Hn|].
    split; [exact H4 | exact (H5 Hn)].
Defined.

(** The two sides of C10 on a game where "cat" is the only active enemy:
    the key "C" selects nothing, the key "c" selects "cat", and the key "A"
    then continues it. *)
Example uppercase_selects_nothing_but_continues :
  let words := ["cat"; "dog"]%string in
  let g := run words [Start "Normal" (λ _, 0%Q); SpawnTick 0 0] new_Game in
  let g1 := exec (_handleKeyPress "c") g in
  let g2 := exec (_handleKeyPress "A") g1 in
  is_Some (activeEnemies g !! VStr "c")
  ∧ currentTarget (exec (_handleKeyPress "C") g) = None
  ∧ currentTarget g1 = activeEnemies g !! VStr "c"
  ∧ (Enemy.typed ∘ deref g1 ∘ enemy) <$> currentTarget g1 = Some 1%nat
  ∧ (Enemy.typed ∘ deref g2 ∘ enemy) <$> currentTarget g2 = Some 2%nat.
Proof.
  cbn zeta. split; [vm_compute; by eexists|].
  split; [by vm_compute|]. split; [by vm_compute|].
  split; by vm_compute.
Qed.

(** ** Further properties: placing a word *)

Lemma Qfloor_between (x : Q) (a b : Z) :
  (inject_Z a <= x)%Q → (x < inject_Z b)%Q → a ≤ Qfloor x < b.
Proof.
  intros Ha Hb. split.
  - rewrite <- (Qfloor_Z a). by apply Qfloor_resp_le.
  - rewrite Zlt_Qlt. eapply Qle_lt_trans; [apply Qfloor_le | exact Hb].
Qed.

Lemma Qmult_unit_bounds (r : Q) (m : Z) :
  unit_interval r → 0 < m →
  (inject_Z 0 <= r * inject_Z m)%Q ∧ (r * inject_Z m < inject_Z m)%Q.
Proof.
  intros [H0 H1] Hm.
  assert (0 < inject_Z m)%Q as HmQ.
  { change 0%Q with (inject_Z 0). by rewrite <- Zlt_Qlt. }
  split.
  - change (inject_Z 0) with 0%Q.
    apply Qmult_le_0_compat; [done | by apply Qlt_le_weak].
  - eapply Qlt_le_trans; [apply Qmult_lt_compat_r; [exact HmQ | exact H1]|].
    rewrite Qmult_1_l. apply Qle_refl.
Qed.

Lemma Qfloor_lt_self (x : Q) (m : Z) : (x <= inject_Z m)%Q → Qfloor x ≤ m.
Proof. intros H. rewrite <- (Qfloor_Z m). by apply Qfloor_resp_le. Qed.

Lemma round_half_even_le (x : Q) (m : Z) :
  (x <= inject_Z m)%Q → round_half_even x ≤ m.
Proof.
  intros Hx. pose proof (Qfloor_lt_self x m Hx) as Hf.
  unfold round_half_even. cbv zeta.
  destruct (x - inject_Z (Qfloor x) ?= 1 # 2)%Q eqn:E; [| done |].
  - destruct (Z.even (Qfloor x)); [done|].
    apply Qeq_alt in E.
    assert (inject_Z (Qfloor x) < inject_Z m)%Q as H by lra.
    rewrite <- Zlt_Qlt in H. lia.
  - apply Qgt_alt in E.
    assert (inject_Z (Qfloor x) < inject_Z m)%Q as H by lra.
    rewrite <- Zlt_Qlt in H. lia.
Qed.

Lemma round_half_even_ge (x : Q) (m : Z) :
  (inject_Z m <= x)%Q → m ≤ round_half_even x.
Proof.
  intros Hx.
  assert (m ≤ Qfloor x) as Hf.
  { rewrite <- (Qfloor_Z m). by apply Qfloor_resp_le. }
  unfold round_half_even. cbv zeta.
  destruct (x - inject_Z (Qfloor x) ?= 1 # 2)%Q; [|done|lia].
  destruct (Z.even (Qfloor x)); lia.
Qed.

Lemma two_pow_pos (k : Z) : (0 < 2 ^ k)%Q.
Proof. by apply Qpower_0_lt. Qed.

Lemma Qlog2_le (q : Q) : (0 < q)%Q → (2 ^ Qlog2 q <= q)%Q.
Proof.
  intros Hq. unfold Qlog2. cbv zeta.
  destruct (Qle_bool _ q) eqn:E; [by apply Qle_bool_iff|].
  destruct q as [n d]. cbn [Qnum Qden].
  assert (0 < n) as Hn by (unfold Qlt in Hq; simpl in Hq; lia).
  pose proof (Z.log2_spec n Hn) as [Ha _].
  pose proof (Z.log2_spec (Z.pos d) (Pos2Z.is_pos d)) as [_ Hb].
  pose proof (Z.log2_nonneg n) as Ha0.
  pose proof (Z.log2_nonneg (Z.pos d)) as Hb0.
  set (a := Z.log2 n) in *. set (b := Z.log2 (Z.pos d)) in *.
  replace (a - b - 1) with (a - Z.succ b) by lia.
  rewrite Qpower_minus by done.
  rewrite <- (Zpower_Qpower 2 a), <- (Zpower_Qpower 2 (Z.succ b)) by lia.
  apply Qle_shift_div_r.
  - change 0%Q with (inject_Z 0). rewrite <- Zlt_Qlt. lia.
  - unfold Qle, Qmult, inject_Z. cbn [Qnum Qden]. nia.
Qed.

Lemma Qlog2_lt (q : Q) (N : Z) : (0 < q)%Q → (q < 2 ^ N)%Q → Qlog2 q < N.
Proof.
  intros Hq Hlt. pose proof (Qlog2_le q Hq) as Hle.
  apply (Qpower_lt_compat_l_inv 2); [|done].
  by eapply Qle_lt_trans.
Qed.

(** The exponent of the unit in the last place of a positive [q] below
    [m * 2^k], with [m < 2^53], is at most [k]. *)
Lemma ulp_exponent_le (q : Q) (m k : Z) :
  (0 < q)%Q → m < 2 ^ 53 → -1074 ≤ k →
  (q <= inject_Z m * 2 ^ k)%Q →
  Z.max (Qlog2 q) (-1022) - 52 ≤ k.
Proof.
  intros Hq Hm Hk Hle.
  assert (Qlog2 q < 53 + k); [|lia].
  apply Qlog2_lt; [done|].
  eapply Qle_lt_trans; [exact Hle|].
  rewrite Qpower_plus by done.
  apply Qmult_lt_compat_r; [apply two_pow_pos|].
  rewrite <- (Zpower_Qpower 2 53) by lia. by rewrite <- Zlt_Qlt.
Qed.

Lemma scale_to_ulp (m k j : Z) :
  j ≤ k → (inject_Z m * 2 ^ k / 2 ^ j == inject_Z (m * 2 ^ (k - j)))%Q.
Proof.
  intros Hj. rewrite inject_Z_mult, (Zpower_Qpower 2 (k - j)) by lia.
  rewrite Qpower_minus by done.
  change (inject_Z 2) with 2%Q. field.
  pose proof (two_pow_pos j). lra.
Qed.

Lemma Qabs_of_pos (q : Q) : (0 < q)%Q → Qabs q = q.
Proof.
  destruct q as [n d]. unfold Qlt. simpl. intros H.
  rewrite Z.abs_eq by lia. done.
Qed.

Lemma binary64_pos (q : Q) :
  (0 < q)%Q →
  binary64 q
  = (inject_Z (round_half_even (q / 2 ^ (Z.max (Qlog2 q) (-1022) - 52)))
     * 2 ^ (Z.max (Qlog2 q) (-1022) - 52))%Q.
Proof.
  intros Hq. unfold binary64.
  destruct (Qeq_bool q 0) eqn:E.
  - apply Qeq_bool_iff in E. lra.
  - by rewrite Qabs_of_pos.
Qed.

(** Rounding does not cross a double: a positive [q] at most the double
    [m * 2^k] rounds to at most that double. *)
Lemma binary64_le (q : Q) (m k : Z) :
  (0 < q)%Q → m < 2 ^ 53 → -1074 ≤ k →
  (q <= inject_Z m * 2 ^ k)%Q →
  (binary64 q <= inject_Z m * 2 ^ k)%Q.
Proof.
  intros Hq Hm Hk Hle.
  pose proof (ulp_exponent_le q m k Hq Hm Hk Hle) as He.
  rewrite (binary64_pos q Hq).
  set (j := Z.max (Qlog2 q) (-1022) - 52) in *.
  pose proof (two_pow_pos j) as Hu.
  assert (round_half_even (q / 2 ^ j) ≤ m * 2 ^ (k - j)) as Hr.
  { apply round_half_even_le. rewrite <- (scale_to_ulp m k j He).
    apply Qmult_le_compat_r; [done|]. apply Qinv_le_0_compat. lra. }
  rewrite Zle_Qle in Hr. rewrite <- (scale_to_ulp m k j He) in Hr.
  apply (Qmult_le_compat_r _ _ (2 ^ j)) in Hr; [|lra].
  eapply Qle_trans; [exact Hr|].
  apply Qle_lteq. right. field. lra.
Qed.

Lemma binary64_ge (q : Q) (n : Z) :
  0 < n → (inject_Z n <= q)%Q → (q < 2 ^ 53)%Q →
  (inject_Z n <= binary64 q)%Q.
Proof.
  intros Hn Hle Hlt.
  assert (0 < q)%Q as Hq.
  { eapply Qlt_le_trans; [|exact Hle]. change 0%Q with (inject_Z 0).
    by rewrite <- Zlt_Qlt. }
  assert (Z.max (Qlog2 q) (-1022) - 52 ≤ 0) as He.
  { pose proof (Qlog2_lt q 53 Hq Hlt). lia. }
  rewrite (binary64_pos q Hq).
  set (j := Z.max (Qlog2 q) (-1022) - 52) in *.
  pose proof (two_pow_pos j) as Hu.
  assert (inject_Z n == inject_Z n * 2 ^ 0)%Q as Hn0 by (simpl; ring).
  assert (n * 2 ^ (0 - j) ≤ round_half_even (q / 2 ^ j)) as Hr.
  { apply round_half_even_ge. rewrite <- (scale_to_ulp n 0 j He), <- Hn0.
    apply Qmult_le_compat_r; [done|]. apply Qinv_le_0_compat. lra. }
  rewrite Zle_Qle in Hr. rewrite <- (scale_to_ulp n 0 j He), <- Hn0 in Hr.
  apply (Qmult_le_compat_r _ _ (2 ^ j)) in Hr; [|lra].
  eapply Qle_trans; [|exact Hr].
  apply Qle_lteq. right. field. lra.
Qed.

Lemma binary64_nonneg (q : Q) : (0 <= q)%Q → (0 <= binary64 q)%Q.
Proof.
  intros Hq. destruct (Qeq_dec q 0) as [E|E].
  - unfold binary64. apply Qeq_bool_iff in E. by rewrite E.
  - assert (0 < q)%Q as Hpos by (apply Qle_lteq in Hq as [?|?]; [done|]; by destruct E).
    rewrite (binary64_pos q Hpos).
    apply Qmult_le_0_compat; [|pose proof (two_pow_pos (Z.max (Qlog2 q) (-1022) - 52)); lra].
    change 0%Q with (inject_Z 0). rewrite <- Zle_Qle.
    apply round_half_even_ge. apply Qmult_le_0_compat; [lra|].
    apply Qinv_le_0_compat. pose proof (two_pow_pos (Z.max (Qlog2 q) (-1022) - 52)). lra.
Qed.

(** X1: whatever [Math.random()] returns, the animation lasts between 5
    and 36 (both included): the sum [r * 31 + 5] is below 36, but as a
    double it can be 36 itself, one more than [longestDuration]. For [r]
    up to [1 - 2^-51] the result is at most 35. *)
Theorem animationDuration_range (r : Q) :
  unit_interval r →
  5 ≤ _getAnimationDuration r ≤ 36
  ∧ ((r <= 1 - 2 ^ (-51))%Q → _getAnimationDuration r ≤ 35).
Proof.
  intros [H0 H1]. unfold _getAnimationDuration. cbv zeta.
  change (inject_Z (35 - 5 + 1)) with 31%Q. change (inject_Z 5) with 5%Q.
  assert (0 <= r * 31)%Q as Hx0 by lra.
  pose proof (binary64_nonneg _ Hx0) as Hb0.
  assert (∀ m k, m < 2 ^ 53 → -1074 ≤ k → (r * 31 <= inject_Z m * 2 ^ k)%Q →
                 (binary64 (r * 31) <= inject_Z m * 2 ^ k)%Q) as Hup1.
  { intros m k Hm Hk Hle. destruct (Qeq_dec (r * 31) 0) as [E|E].
    - unfold binary64. apply Qeq_bool_iff in E. rewrite E.
      eapply Qle_trans; [|exact Hle]. lra.
    - apply binary64_le; try done.
      apply Qle_lteq in Hx0 as [?|?]; [done|]. by destruct E. }
  set (x1 := binary64 (r * 31)) in *.
  assert (x1 <= 31)%Q as Hx1.
  { assert (31 == inject_Z 31 * 2 ^ 0)%Q as -> by (simpl; ring).
    apply Hup1; [done | lia | unfold inject_Z; simpl; lra]. }
  assert (0 < x1 + 5)%Q as Hs0 by lra.
  assert (x1 + 5 < 2 ^ 53)%Q as Hs53.
  { eapply Qle_lt_trans; [|apply (Qpower_lt_compat_l 2 6 53); [lia | done]].
    simpl. lra. }
  assert (5 <= binary64 (x1 + 5))%Q as Hlo.
  { apply (binary64_ge (x1 + 5) 5); [done | unfold inject_Z; simpl; lra | done]. }
  split.
  - assert (binary64 (x1 + 5) <= 36)%Q as Hhi.
    { assert (36 == inject_Z 36 * 2 ^ 0)%Q as -> by (simpl; ring).
      apply binary64_le; [done | done | lia | unfold inject_Z; simpl; lra]. }
    assert (5 ≤ Qfloor (binary64 (x1 + 5)) < 37); [|lia].
    apply Qfloor_between; unfold inject_Z; simpl; lra.
  - intros Hr.
    assert (2 ^ (-51) == 1 # 2251799813685248)%Q as E51 by reflexivity.
    assert (inject_Z (31 * 2 ^ 47 - 1) * 2 ^ (-47)
            == 31 - (1 # 140737488355328))%Q as E31 by reflexivity.
    assert (inject_Z (36 * 2 ^ 47 - 1) * 2 ^ (-47)
            == 36 - (1 # 140737488355328))%Q as E36 by reflexivity.
    rewrite E51 in Hr.
    assert (x1 <= inject_Z (31 * 2 ^ 47 - 1) * 2 ^ (-47))%Q as Hx1'.
    { apply Hup1; [done | lia |]. rewrite E31. lra. }
    assert (binary64 (x1 + 5) <= inject_Z (36 * 2 ^ 47 - 1) * 2 ^ (-47))%Q as Hhi.
    { apply binary64_le; [done | done | lia |]. rewrite E31 in Hx1'. rewrite E36. lra. }
    assert (5 ≤ Qfloor (binary64 (x1 + 5)) < 36); [|lia].
    apply Qfloor_between; [unfold inject_Z; simpl; lra|].
    eapply Qle_lt_trans; [exact Hhi|].
    reflexivity.
Qed.

Lemma animationDuration_range_witness :
  let r := (9007199254740991 # 9007199254740992)%Q in
  unit_interval r
  ∧ _getAnimationDuration r = 36
  ∧ (5 ≤ _getAnimationDuration r ≤ 36)
  ∧ ((1 # 2 <= 1 - 2 ^ (-51))%Q → _getAnimationDuration (1 # 2) ≤ 35).
Proof.
  intros r.
  assert (unit_interval r) as Hr.
  { split; [vm_compute; discriminate | reflexivity]. }
  assert (unit_interval (1 # 2)) as Hh.
  { split; [vm_compute; discriminate | reflexivity]. }
  split; [exact Hr|]. split; [by vm_compute|].
  split; [exact (proj1 (animationDuration_range r Hr))|].
  exact (proj2 (animationDuration_range (1 # 2) Hh)).
Defined.

(** X2: a word is placed on one of the six lanes, 55 pixels apart, the
    first at -10. *)
Theorem enemyPosition_lanes (r : Q) :
  unit_interval r →
  ∃ lane : Z, 0 ≤ lane < 6 ∧ _getEnemyPosition r = -10 + 55 * lane.
Proof.
  intros Hr. destruct (Qmult_unit_bounds r 6 Hr) as [H0 H1]; [lia|].
  exists (Qfloor (r * inject_Z numLanes)). split; [|done].
  by apply Qfloor_between.
Qed.

Lemma enemyPosition_lanes_witness :
  unit_interval (1 # 2)
  ∧ ∃ lane : Z, 0 ≤ lane < 6 ∧ _getEnemyPosition (1 # 2) = -10 + 55 * lane.
Proof.
  assert (unit_interval (1 # 2)) as Hr.
  { split; [vm_compute; discriminate | reflexivity]. }
  split; [exact Hr|]. exact (enemyPosition_lanes (1 # 2) Hr).
Defined.

(** ** Further properties: the queue as a FIFO *)

Lemma drain_spec (n : nat) (q : Queue.t) :
  drain n q
  = ((Some <$> take n (Queue.queue q))
       ++ replicate (n - length (Queue.queue q)) None,
     {| Queue.queue := drop n (Queue.queue q);
        Queue.size := Queue.size q - Z.of_nat n |}).
Proof.
  revert q. induction n as [|n IH]; intros [l s].
  - simpl. rewrite drop_0. do 2 f_equal. lia.
  - cbn [drain Queue.dequeue Queue.queue Queue.size].
    rewrite IH. cbn [Queue.queue Queue.size].
    destruct l as [|x l]; cbn [head tail take drop length fmap list_fmap].
    + rewrite take_nil, drop_nil. simpl. rewrite Nat.sub_0_r.
      f_equal. f_equal. lia.
    + simpl. f_equal. f_equal. lia.
Qed.

(** X3: a batch put in an empty queue comes out in its original order, each
    instance once; [dequeue] called as many times as the batch was long
    returns [undefined] for every repeated instance that [enqueue] dropped,
    and leaves the queue empty with [size] back at 0. *)
Theorem enqueue_then_drain (B : list ref) :
  drain (length B) (Queue.enqueue B Queue.new)
  = ((Some <$> Set_of B)
       ++ replicate (length B - length (Set_of B)) None,
     Queue.new).
Proof.
  rewrite drain_spec. cbn [Queue.enqueue Queue.new Queue.queue Queue.size].
  rewrite app_nil_l.
  destruct (fold_Set_add_spec B [] (NoDup_nil_2 (A:=nat))) as (_ & _ & t & Ht & Hsub).
  fold (Set_of B) in Ht. simpl in Ht. subst t.
  apply sublist_length in Hsub.
  rewrite take_ge, drop_ge by lia.
  unfold Queue.new. do 2 f_equal. lia.
Qed.

(** ** Further properties: what is shown *)

Lemma lower_upper_ascii (c : ascii) : lower_ascii (upper_ascii c) = lower_ascii c.
Proof. by destruct c as [[] [] [] [] [] [] [] []]. Qed.

Lemma lower_ascii_idemp (c : ascii) : lower_ascii (lower_ascii c) = lower_ascii c.
Proof. by destruct c as [[] [] [] [] [] [] [] []]. Qed.

Lemma toLowerCase_idemp (s : string) :
  toLowerCase (toLowerCase s) = toLowerCase s.
Proof.
  induction s as [|c s IH]; [done|].
  cbn [toLowerCase]. by rewrite lower_ascii_idemp, IH.
Qed.

Lemma titleCase_from_spec (start : bool) (s : string) :
  String.length (titleCase_from start s) = String.length s
  ∧ toLowerCase (titleCase_from start s) = toLowerCase s.
Proof.
  revert start. induction s as [|c s IH]; intros start; [done|].
  cbn [titleCase_from]. case_decide.
  - destruct (IH true) as [Hl Hc]. cbn [String.length toLowerCase].
    by rewrite Hl, Hc.
  - destruct (IH false) as [Hl Hc]. cbn [String.length toLowerCase].
    rewrite Hl, Hc. split; [done|].
    destruct start; [by rewrite lower_upper_ascii | done].
Qed.

(** X4: [toTitleCase] changes the case of letters and nothing else: the
    length is kept and the lower-case form is the same, so the mode shown
    on screen, put back in lower case, is the mode the game runs in. *)
Theorem toTitleCase_only_case (s : string) :
  String.length (toTitleCase s) = String.length s
  ∧ toLowerCase (toTitleCase s) = toLowerCase s
  ∧ toLowerCase (toTitleCase (toLowerCase s)) = toLowerCase s.
Proof.
  unfold toTitleCase.
  destruct (titleCase_from_spec true s) as [Hl Hc].
  split; [done|]. split; [done|].
  destruct (titleCase_from_spec true (toLowerCase s)) as [_ ->].
  apply toLowerCase_idemp.
Qed.

Lemma append_empty_r (w : string) : w +:+ EmptyString = w.
Proof.
  induction w as [|c w IH]; [done|].
  change (String c w +:+ EmptyString) with (String c (w +:+ EmptyString)).
  by rewrite IH.
Qed.

Lemma substring_all (w : string) (n : nat) :
  (String.length w ≤ n)%nat → String.substring 0 n w = w.
Proof.
  revert n. induction w as [|c w IH]; intros n Hn.
  - by destruct n.
  - destruct n as [|n]; simpl in *; [lia|]. rewrite IH; [done | lia].
Qed.

Lemma substring_past (w : string) (n m : nat) :
  (String.length w ≤ n)%nat → String.substring n m w = EmptyString.
Proof.
  revert n. induction w as [|c w IH]; intros n Hn.
  - by destruct n, m.
  - destruct n as [|n]; simpl in *; [lia|]. apply IH. lia.
Qed.

Lemma substring_prefix_length (w : string) (k : nat) :
  (k ≤ String.length w)%nat → String.length (String.substring 0 k w) = k.
Proof.
  revert k. induction w as [|c w IH]; intros k Hk.
  - destruct k; simpl in *; [done | lia].
  - destruct k as [|k]; simpl in *; [done|]. rewrite IH; [done | lia].
Qed.

Lemma string_split_at (w : string) (k m : nat) (c : ascii) :
  String.get k w = Some c →
  (String.length w ≤ S k + m)%nat →
  String.substring 0 k w +:+ String c EmptyString +:+ String.substring (S k) m w
  = w.
Proof.
  revert k. induction w as [|a w IH]; intros k Hc Hm.
  - by destruct k.
  - destruct k as [|k]; simpl in *.
    + injection Hc as ->. rewrite substring_all; [done | lia].
    + change (String a (String.substring 0 k w) +:+ ?x)
        with (String a (String.substring 0 k w +:+ x)).
      rewrite IH; [done | done | lia].
Qed.

(** X5: under the protocol, [getDisplayVersion] is the word itself with the
    tags [<u>] and [</u>] put around the next character: the text before
    the tags is the part already typed, and taking the tags away gives the
    word back. Once the enemy is defeated the tags are empty and stand at
    the end. *)
Theorem displayVersion_marks_next (w : string) (e : Enemy.t) :
  w ≠ EmptyString → advances w e →
  ∃ pre c post,
    Enemy.getDisplayVersion e = pre +:+ "<u>" +:+ c +:+ "</u>" +:+ post
    ∧ pre +:+ c +:+ post = w
    ∧ String.length pre = Enemy.typed e
    ∧ if Enemy.defeated e then c = EmptyString ∧ post = EmptyString
      else Enemy.next e = VStr c ∧ String.length c = 1%nat.
Proof.
  intros Hw He.
  destruct (protocol_inv_advances w e Hw He) as [Hword Hty Hdef Hnext _].
  unfold Enemy.getDisplayVersion. rewrite Hword, Hnext, Nat.add_1_r.
  destruct (decide (Enemy.typed e < String.length w)%nat) as [Hlt|Hge].
  - destruct (get_lt w (Enemy.typed e) Hlt) as [c Hc].
    unfold index. rewrite Hc. cbn [text_or_empty].
    eexists _, _, _. split; [reflexivity|].
    split; [apply string_split_at; [done | lia]|].
    split; [apply substring_prefix_length; lia|].
    destruct (Enemy.defeated e) eqn:Hd; [|done].
    destruct Hdef as [Hdef _]. specialize (Hdef eq_refl). lia.
  - assert (Enemy.typed e = String.length w) as Heq by lia.
    cbn [text_or_empty].
    eexists _, _, _. split; [reflexivity|].
    rewrite Heq, substring_all, substring_past by lia.
    split; [by rewrite !append_empty_r|]. split; [done|].
    destruct Hdef as [_ Hdef]. by rewrite (Hdef Heq).
Qed.

Lemma displayVersion_marks_next_witness :
  let e := Enemy.updateCompletionPercentage (Enemy.new "cat") in
  "cat"%string ≠ EmptyString ∧ advances "cat" e
  ∧ Enemy.getDisplayVersion e = "c<u>a</u>t"%string
  ∧ ∃ pre c post,
      Enemy.getDisplayVersion e = pre +:+ "<u>" +:+ c +:+ "</u>" +:+ post
      ∧ pre +:+ c +:+ post = "cat"%string
      ∧ String.length pre = Enemy.typed e
      ∧ if Enemy.defeated e then c = EmptyString ∧ post = EmptyString
        else Enemy.next e = VStr c ∧ String.length c = 1%nat.
Proof.
  intros e.
  assert ("cat"%string ≠ EmptyString) as Hw by discriminate.
  assert (advances "cat" e)
    as Ha by (apply later_step; [apply later_refl | reflexivity]).
  split; [exact Hw|]. split; [exact Ha|]. split; [reflexivity|].
  exact (displayVersion_marks_next "cat" e Hw Ha).
Defined.

(** ** Further properties: filling the queue and starting a game *)

Lemma randomIndex_hits (words : list string) (r : Q) :
  words ≠ [] → unit_interval r →
  ∃ w, words_at words (randomIndex words r) = Some w.
Proof.
  intros Hw Hr. unfold words_at, randomIndex.
  assert (0 ≤ Qfloor (r * inject_Z (Z.of_nat (length words) - 1))
          < Z.of_nat (length words)) as [H0 H1].
  { destruct words as [|w0 [|w1 ws]]; [done| |].
    - apply Qfloor_between; destruct Hr as [Hr0 Hr1].
      + apply Qmult_le_0_compat; [done | apply Qle_refl].
      + simpl. rewrite Qmult_0_r. reflexivity.
    - destruct (Qmult_unit_bounds r (Z.of_nat (length (w0 :: w1 :: ws)) - 1) Hr)
        as [Ha Hb]; [simpl; lia|].
      pose proof (Qfloor_between _ _ _ Ha Hb). lia. }
  rewrite decide_True by done.
  apply lookup_lt_is_Some. lia.
Qed.

Lemma mapM_newEnemy_completes (words : list string) (rnd : nat → Q)
    (l : list nat) (g : Game) :
  words ≠ [] → (∀ i, unit_interval (rnd i)) →
  ∃ refs, (mapM (λ i, newEnemy words (rnd i)) l g).1 = Ok refs.
Proof.
  intros Hw Hr. revert g. induction l as [|i l IH]; intros g.
  - by eexists.
  - rewrite mapM_cons. unfold mbind, M_bind, mret, M_ret.
    destruct (randomIndex_hits words (rnd i) Hw (Hr i)) as [w Hi].
    unfold newEnemy at 1. rewrite Hi. run_M.
    match goal with
    | |- context [mapM (M:=M) _ l ?h] =>
        destruct (IH h) as [refs Hrefs];
        destruct (mapM (M:=M) (λ i, newEnemy words (rnd i)) l h)
          as [[refs'|e] g2]
    end; simpl in *; [by eexists | done].
Qed.

(** X6: with a dictionary that is not empty, [_loadIntoQueue] always
    completes; it appends exactly [queueLimit - size] new enemies (none if
    that is not positive), one fresh instance per draw, and brings [size] up
    to [queueLimit] (or leaves it, if it was above). *)
Theorem loadIntoQueue_tops_up (words : list string) (rnd : nat → Q) (g : Game) :
  words ≠ [] → (∀ i, unit_interval (rnd i)) →
  let g' := exec (_loadIntoQueue words rnd) g in
  outcome (_loadIntoQueue words rnd) g = Ok ()
  ∧ Queue.queue (enemyQueue g')
    = Queue.queue (enemyQueue g)
        ++ seq (fresh g) (Z.to_nat (queueLimit g - Queue.size (enemyQueue g)))
  ∧ Queue.size (enemyQueue g')
    = Z.max (Queue.size (enemyQueue g)) (queueLimit g).
Proof.
  intros Hw Hr. unfold _loadIntoQueue. run_M.
  set (l := seq 0 (Z.to_nat (queueLimit g - Queue.size (enemyQueue g)))).
  destruct (mapM_newEnemy_spec words rnd l g) as [Ha Hs].
  destruct (mapM_newEnemy_completes words rnd l g Hw Hr) as [refs Hrefs].
  destruct (mapM (λ i, newEnemy words (rnd i)) l g) as [[refs'|e] g1];
    simpl in *; [|done].
  destruct (Hs refs' eq_refl) as [-> _].
  destruct Ha as (-> & _). run_M. simpl.
  rewrite Set_of_NoDup by apply NoDup_seq.
  unfold l. rewrite !length_seq. split; [done|]. split; [done | lia].
Qed.

Lemma loadIntoQueue_tops_up_witness :
  let words := ["cat"; "dog"; "cow"]%string in
  let rnd := λ i : nat, if Nat.even i then 0%Q else (1 # 2)%Q in
  words ≠ [] ∧ (∀ i, unit_interval (rnd i))
  ∧ outcome (_loadIntoQueue words rnd) new_Game = Ok ()
  ∧ Queue.queue (enemyQueue (exec (_loadIntoQueue words rnd) new_Game))
    = seq 0 30
  ∧ Queue.size (enemyQueue (exec (_loadIntoQueue words rnd) new_Game)) = 30.
Proof.
  intros words rnd.
  assert (words ≠ []) as Hw by discriminate.
  assert (∀ i, unit_interval (rnd i)) as Hr.
  { intros i. unfold rnd. destruct (Nat.even i); split;
      solve [reflexivity | vm_compute; discriminate]. }
  split; [exact Hw|]. split; [exact Hr|].
  exact (loadIntoQueue_tops_up words rnd new_Game Hw Hr).
Defined.

Lemma newEnemy_nil (r : Q) : newEnemy [] r = throw TypeError.
Proof. unfold newEnemy, words_at. by case_decide. Qed.

(** X7: with an empty dictionary and room in the queue, [_loadIntoQueue]
    throws on its first draw ([words[randomIndex]] is [undefined]) and
    leaves the game as it was; whatever [Math.random()] returns. *)
Theorem loadIntoQueue_empty_dictionary (rnd : nat → Q) (g : Game) :
  Queue.size (enemyQueue g) < queueLimit g →
  _loadIntoQueue [] rnd g = (Throw TypeError, g).
Proof.
  intros Hroom. unfold _loadIntoQueue. run_M.
  destruct (Z.to_nat (queueLimit g - Queue.size (enemyQueue g))) as [|n] eqn:Hn;
    [lia|].
  cbn [seq]. rewrite mapM_cons, newEnemy_nil. by run_M.
Qed.

Lemma loadIntoQueue_empty_dictionary_witness :
  Queue.size (enemyQueue new_Game) < queueLimit new_Game
  ∧ _loadIntoQueue [] (λ _, 0%Q) new_Game = (Throw TypeError, new_Game).
Proof.
  assert (Queue.size (enemyQueue new_Game) < queueLimit new_Game) as H
    by reflexivity.
  split; [exact H|]. exact (loadIntoQueue_empty_dictionary (λ _, 0%Q) new_Game H).
Defined.

(** ** Further properties: typing *)

Lemma toLowerCase_single (key : string) (c : ascii) :
  toLowerCase key = String c EmptyString → lower_ascii c = c.
Proof.
  destruct key as [|c' [|? ?]]; [done | | done].
  intros [= <-]. apply lower_ascii_idemp.
Qed.

Lemma keypress_mismatch (g : Game) (t : EnemyValueObject) (key : string) :
  currentTarget g = Some t →
  VStr (toLowerCase key) ≠ Enemy.next (deref g (enemy t)) →
  _handleKeyPress key g = (Ok (), g).
Proof.
  intros Ht Hne. unfold _handleKeyPress. run_M. rewrite Ht.
  by rewrite decide_False.
Qed.

(** X8: continuation compares the key in lower case with the next
    character as the word has it; when that character is an upper-case
    letter no key equals it, and every keystroke leaves the game as it is:
    the word cannot be typed any further. *)
Theorem uppercase_next_blocks (g : Game) (t : EnemyValueObject) (c : ascii) :
  currentTarget g = Some t →
  Enemy.next (deref g (enemy t)) = VStr (String c EmptyString) →
  lower_ascii c ≠ c →
  ∀ key, _handleKeyPress key g = (Ok (), g).
Proof.
  intros Ht Hn Hc key. apply (keypress_mismatch g t key Ht).
  rewrite Hn. intros [= Hk]. by apply toLowerCase_single in Hk.
Qed.

Lemma uppercase_next_blocks_witness :
  let words := ["cAt"]%string in
  let g := run words [Start "Normal" (λ _, 0%Q); SpawnTick 0 0; KeyDown "c"]
             new_Game in
  let t := MkEVO 0 33 34 in
  currentTarget g = Some t
  ∧ Enemy.next (deref g (enemy t)) = VStr "A"
  ∧ lower_ascii "A" ≠ "A"%char
  ∧ _handleKeyPress "a" g = (Ok (), g)
  ∧ _handleKeyPress "A" g = (Ok (), g).
Proof.
  intros words g t.
  assert (currentTarget g = Some t) as Ht by (by vm_compute).
  assert (Enemy.next (deref g (enemy t)) = VStr "A") as Hn by (by vm_compute).
  assert (lower_ascii "A" ≠ "A"%char) as Hc by (by vm_compute).
  split; [exact Ht|]. split; [exact Hn|]. split; [exact Hc|].
  split; exact (uppercase_next_blocks g t "A"%char Ht Hn Hc _).
Defined.

Lemma keypress_select (g : Game) (key : string) (wt : EnemyValueObject) :
  currentTarget g = None →
  activeEnemies g !! VStr key = Some wt →
  let g1 := exec (_handleKeyPress key) g in
  outcome (_handleKeyPress key) g = Ok ()
  ∧ currentTarget g1 = Some wt
  ∧ deref g1 (enemy wt) = Enemy.updateCompletionPercentage (deref g (enemy wt))
  ∧ score g1 = score g ∧ streak g1 = streak g
  ∧ activeEnemies g1 = activeEnemies g
  ∧ difficultyLevel g1 = difficultyLevel g.
Proof.
  intros Ht Hk. unfold _handleKeyPress, _setCurrentTarget. run_M.
  rewrite Ht, Hk. run_M.
  unfold deref at 1. run_M. by rewrite lookup_total_insert_eq.
Qed.

(** X9: a word of one letter is defeated by the keystroke that selects it,
    but the selecting branch never clears: the word stays the current target
    and stays in the registry, nothing is scored, and from then on every
    keystroke leaves the game as it is. *)
Theorem one_letter_word_never_cleared (g : Game) (key : string)
    (wt : EnemyValueObject) (w : string) :
  currentTarget g = None →
  activeEnemies g !! VStr key = Some wt →
  deref g (enemy wt) = Enemy.new w →
  String.length w = 1%nat →
  let g1 := exec (_handleKeyPress key) g in
  currentTarget g1 = Some wt
  ∧ Enemy.defeated (deref g1 (enemy wt)) = true
  ∧ score g1 = score g ∧ streak g1 = streak g
  ∧ activeEnemies g1 = activeEnemies g
  ∧ ∀ key', _handleKeyPress key' g1 = (Ok (), g1).
Proof.
  intros Ht Hk He Hlen g1.
  destruct (keypress_select g key wt Ht Hk) as (_ & Ht1 & He1 & Hs & Hst & Ha & _).
  fold g1 in Ht1, He1, Hs, Hst, Ha.
  assert (Enemy.next (deref g1 (enemy wt)) = VNull
          ∧ Enemy.defeated (deref g1 (enemy wt)) = true) as [Hn Hd].
  { rewrite He1, He. unfold Enemy.updateCompletionPercentage.
    cbn [Enemy.typed Enemy.word Enemy.new Enemy.next Enemy.defeated].
    rewrite index_ge by (rewrite Hlen; simpl; lia). done. }
  repeat (split; [done|]).
  intros key'. apply (keypress_mismatch g1 wt key' Ht1). by rewrite Hn.
Qed.

Lemma one_letter_word_never_cleared_witness :
  let words := ["a"]%string in
  let g := run words [Start "Normal" (λ _, 0%Q); SpawnTick 0 0] new_Game in
  let wt := MkEVO 0 33 34 in
  let g1 := exec (_handleKeyPress "a") g in
  currentTarget g = None
  ∧ activeEnemies g !! VStr "a" = Some wt
  ∧ deref g (enemy wt) = Enemy.new "a"
  ∧ currentTarget g1 = Some wt
  ∧ Enemy.defeated (deref g1 (enemy wt)) = true
  ∧ score g1 = score g
  ∧ _handleKeyPress "a" g1 = (Ok (), g1).
Proof.
  intros words g wt g1.
  assert (currentTarget g = None) as Ht by (by vm_compute).
  assert (activeEnemies g !! VStr "a" = Some wt) as Hk by (by vm_compute).
  assert (deref g (enemy wt) = Enemy.new "a") as He by (by vm_compute).
  destruct (one_letter_word_never_cleared g "a" wt "a" Ht Hk He eq_refl)
    as (H1 & H2 & H3 & _ & _ & H6).
  split; [exact Ht|]. split; [exact Hk|]. split; [exact He|].
  split; [exact H1|]. split; [exact H2|]. split; [exact H3|].
  exact (H6 "a"%string).
Defined.

(** Reading the store through the assignments made to the game. *)
Ltac deref_simpl :=
  unfold deref in *; game_simpl; rewrite ?lookup_total_insert_eq.

Lemma keypress_continue (g : Game) (t : EnemyValueObject) (key : string) :
  currentTarget g = Some t →
  VStr (toLowerCase key) = Enemy.next (deref g (enemy t)) →
  Enemy.next (Enemy.updateCompletionPercentage (deref g (enemy t))) ≠ VNull →
  let g1 := exec (_handleKeyPress key) g in
  currentTarget g1 = Some t
  ∧ deref g1 (enemy t) = Enemy.updateCompletionPercentage (deref g (enemy t))
  ∧ score g1 = score g ∧ streak g1 = streak g
  ∧ activeEnemies g1 = activeEnemies g
  ∧ difficultyLevel g1 = difficultyLevel g.
Proof.
  intros Ht Hk Hn. unfold _handleKeyPress. run_M. rewrite Ht.
  rewrite decide_True by done. run_M. deref_simpl.
  rewrite decide_False by done. run_M. deref_simpl. done.
Qed.

Lemma keypress_finish (g : Game) (t : EnemyValueObject) (key : string) :
  currentTarget g = Some t →
  VStr (toLowerCase key) = Enemy.next (deref g (enemy t)) →
  Enemy.next (Enemy.updateCompletionPercentage (deref g (enemy t))) = VNull →
  let g1 := exec (_handleKeyPress key) g in
  let w := Enemy.word (deref g (enemy t)) in
  outcome (_handleKeyPress key) g = Ok ()
  ∧ currentTarget g1 = None
  ∧ deref g1 (enemy t) = Enemy.updateCompletionPercentage (deref g (enemy t))
  ∧ score g1 = score g + (Z.of_nat (String.length w) + streak g)
  ∧ streak g1 = streak g + Qceiling (1 + difficultyLevel g)
  ∧ activeEnemies g1 = delete (index w 0) (activeEnemies g)
  ∧ difficultyLevel g1 = difficultyLevel g.
Proof.
  intros Ht Hk Hn. unfold _handleKeyPress, _clearEnemyWord. run_M. rewrite Ht.
  rewrite decide_True by done. run_M. deref_simpl.
  rewrite decide_True by done. run_M. rewrite Ht. run_M.
  rewrite updateDisplay_score. run_M. deref_simpl. done.
Qed.

Lemma get_list_ascii (w : string) (k : nat) :
  String.get k w = list_ascii_of_string w !! k.
Proof.
  revert k. induction w as [|c w IH]; intros [|k]; simpl; auto.
Qed.

Lemma length_list_ascii (w : string) :
  length (list_ascii_of_string w) = String.length w.
Proof. induction w as [|c w IH]; simpl; auto. Qed.

Lemma lowercase_chars (w : string) :
  toLowerCase w = w → Forall (λ c, lower_ascii c = c) (list_ascii_of_string w).
Proof.
  induction w as [|c w IH]; intros Hw; [constructor|].
  injection Hw as Hc Hw. constructor; auto.
Qed.

(** ** Further properties: collisions and the end of a game *)

(** X11: a collision of an active word while more than one life is left
    costs one life, resets the streak, records the word as missed and takes
    its entry out of the registry; the target is dropped when it was that
    very entry and kept otherwise; the score does not move. *)
Theorem collision_costs_a_life (g : Game) (word : string)
    (ev : EnemyValueObject) (n : Z) :
  activeEnemies g !! index word 0 = Some ev →
  lives g = LNum n → 1 < n →
  let g' := exec (_collisionHandler word) g in
  outcome (_collisionHandler word) g = Ok ()
  ∧ lives g' = LNum (n - 1)
  ∧ streak g' = 0
  ∧ missedWords g' = missedWords g ++ [word]
  ∧ activeEnemies g' = delete (index word 0) (activeEnemies g)
  ∧ currentTarget g'
    = (if decide (currentTarget g = Some ev) then None else currentTarget g)
  ∧ score g' = score g
  ∧ highScore g' = highScore g.
Proof.
  intros Hk Hl Hn. unfold _collisionHandler. run_M.
  rewrite updateDisplay_lives. run_M. rewrite Hk, Hl. cbn [lives_dec].
  assert (lives_le0 (LNum (n - 1)) = false) as Hle.
  { simpl. apply Z.leb_gt. lia. }
  destruct (decide (currentTarget g = Some ev)) as [Ht|Ht].
  - rewrite decide_True by (split; [done | by eexists]).
    run_M. rewrite Hle. run_M. done.
  - rewrite decide_False by (by intros [? _]).
    run_M. rewrite Hle. run_M. done.
Qed.

Lemma collision_costs_a_life_witness :
  let words := ["cat"; "dog"]%string in
  let g := run words [Start "Normal" (λ _, 0%Q); SpawnTick 0 0] new_Game in
  let ev := MkEVO 0 33 34 in
  let g' := exec (_collisionHandler "cat") g in
  activeEnemies g !! index "cat" 0 = Some ev
  ∧ lives g = LNum 4
  ∧ lives g' = LNum (4 - 1)
  ∧ missedWords g' = missedWords g ++ ["cat"]%string
  ∧ activeEnemies g' = delete (index "cat" 0) (activeEnemies g).
Proof.
  intros words g ev g'.
  assert (activeEnemies g !! index "cat" 0 = Some ev) as Hk by (by vm_compute).
  assert (lives g = LNum 4) as Hl by (by vm_compute).
  assert (1 < 4) as Hn by lia.
  destruct (collision_costs_a_life g "cat" ev 4 Hk Hl Hn)
    as (_ & H2 & _ & H4 & H5 & _).
  split; [exact Hk|]. split; [exact Hl|]. split; [exact H2|].
  split; [exact H4 | exact H5].
Defined.

(** X12: a collision event for a word whose lead character is in no entry
    of the registry still costs a life and resets the streak, and then
    throws on [enemy.detector]: the word is not recorded as missed, the
    registry and the target are as before, and the game does not end even
    when no life is left. *)
Theorem collision_of_unknown_word (g : Game) (word : string) :
  activeEnemies g !! index word 0 = None →
  let g' := exec (_collisionHandler word) g in
  outcome (_collisionHandler word) g = Throw TypeError
  ∧ lives g' = lives_dec (lives g)
  ∧ streak g' = 0
  ∧ missedWords g' = missedWords g
  ∧ activeEnemies g' = activeEnemies g
  ∧ currentTarget g' = currentTarget g
  ∧ highScore g' = highScore g.
Proof.
  intros Hk. unfold _collisionHandler. run_M.
  rewrite updateDisplay_lives. run_M. rewrite Hk.
  rewrite decide_False by (by intros [_ [? ?]]).
  run_M. by rewrite delete_id.
Qed.

Lemma collision_of_unknown_word_witness :
  activeEnemies new_Game !! index "cat" 0 = None
  ∧ outcome (_collisionHandler "cat") new_Game = Throw TypeError
  ∧ lives (exec (_collisionHandler "cat") new_Game) = LNaN.
Proof.
  assert (activeEnemies new_Game !! index "cat" 0 = None) as Hk by reflexivity.
  destruct (collision_of_unknown_word new_Game "cat" Hk) as (H1 & H2 & _).
  split; [exact Hk|]. split; [exact H1 | exact H2].
Defined.

(** X13: the collision that takes the last life ends the game: the result
    screen shows the score, the words missed (this one included) and the
    high score, which becomes the larger of the score and the old high
    score; then everything is reset to the values of a new game, except the
    score, the lives, the mode, the high score and the [size] counter of the
    queue, which [clear] leaves as it was although the queue is emptied. *)
Theorem last_collision_ends_game (g : Game) (word : string)
    (ev : EnemyValueObject) (n : Z) :
  activeEnemies g !! index word 0 = Some ev →
  lives g = LNum n → n ≤ 1 →
  let g' := exec (_collisionHandler word) g in
  outcome (_collisionHandler word) g = Ok ()
  ∧ lives g' = LNum (n - 1)
  ∧ score g' = score g
  ∧ highScore g' = Z.max (score g) (highScore g)
  ∧ ShowResults (score g) (toTitleCase (gameMode g))
      (if Qle_bool 5 (difficultyLevel g) then DText "5 (MAX) "
       else DRat (difficultyLevel g))
      (missedWords g ++ [word]) (Z.max (score g) (highScore g)) ∈ dom g'
  ∧ activeEnemies g' = ∅
  ∧ currentTarget g' = None
  ∧ Queue.queue (enemyQueue g') = []
  ∧ Queue.size (enemyQueue g') = Queue.size (enemyQueue g)
  ∧ missedWords g' = []
  ∧ streak g' = 0
  ∧ scaling g' = scaling new_Game
  ∧ nextModifier g' = VStr "interval".
Proof.
  intros Hk Hl Hn. unfold _collisionHandler. run_M.
  rewrite updateDisplay_lives. run_M. rewrite Hk, Hl. cbn [lives_dec].
  assert (lives_le0 (LNum (n - 1)) = true) as Hle.
  { simpl. apply Z.leb_le. lia. }
  destruct (decide (currentTarget g = Some ev ∧ is_Some (Some ev))); run_M;
    rewrite Hle; unfold endGame, _resetDefaults; run_M;
    rewrite mapM_emit_unfolded; run_M;
    (repeat (split; [done|])); (split; [|done]);
    rewrite !elem_of_app, !list_elem_of_singleton; tauto.
Qed.

Lemma last_collision_ends_game_witness :
  let words := ["cat"; "dog"]%string in
  let g := run words [Start "Sudden Death" (λ _, 0%Q); SpawnTick 0 0] new_Game in
  let ev := MkEVO 0 33 34 in
  let g' := exec (_collisionHandler "cat") g in
  activeEnemies g !! index "cat" 0 = Some ev
  ∧ lives g = LNum 1
  ∧ lives g' = LNum 0
  ∧ activeEnemies g' = ∅
  ∧ Queue.queue (enemyQueue g') = []
  ∧ Queue.size (enemyQueue g') = 29.
Proof.
  intros words g ev g'.
  assert (activeEnemies g !! index "cat" 0 = Some ev) as Hk by (by vm_compute).
  assert (lives g = LNum 1) as Hl by (by vm_compute).
  assert (Queue.size (enemyQueue g) = 29) as Hs by (by vm_compute).
  destruct (last_collision_ends_game g "cat" ev 1 Hk Hl ltac:(lia))
    as (_ & H2 & _ & _ & _ & H6 & _ & H8 & H9 & _).
  split; [exact Hk|]. split; [exact Hl|]. split; [exact H2|].
  split; [exact H6|]. split; [exact H8|].
  fold g' in H9. rewrite H9. exact Hs.
Defined.

(** ** Further properties: what every reachable state satisfies *)

Lemma keeps_bind (I : Game → Prop) {A B} (m : M A) (f : A → M B) :
  keeps I m → (∀ a, keeps I (f a)) → keeps I (m ≫= f).
Proof.
  intros Hm Hf g Hg. specialize (Hm g Hg). unfold exec, mbind, M_bind in *.
  destruct (m g) as [[a|e] g']; simpl in *; [by apply Hf | done].
Qed.

Lemma keeps_ret (I : Game → Prop) {A} (a : A) : keeps I (mret a).
Proof. by intros g Hg. Qed.

Lemma keeps_get (I : Game → Prop) : keeps I get.
Proof. by intros g Hg. Qed.

Lemma keeps_throw (I : Game → Prop) {A} (e : error) : keeps I (throw (A:=A) e).
Proof. by intros g Hg. Qed.

Lemma keeps_modify (I : Game → Prop) (f : Game → Game) :
  (∀ g, I g → I (f g)) → keeps I (modify f).
Proof. intros Hf g Hg. by apply Hf. Qed.

Lemma keeps_alloc (I : Game → Prop) :
  (∀ g, I g → I (set_fresh (S (fresh g)) g)) → keeps I alloc.
Proof. intros Hf g Hg. by apply Hf. Qed.

Lemma keeps_mapM (I : Game → Prop) {A B} (f : A → M B) (l : list A) :
  (∀ x, keeps I (f x)) → keeps I (mapM f l).
Proof.
  intros Hf. induction l as [|x l IH]; [by intros g Hg|].
  rewrite mapM_cons. apply keeps_bind; [apply Hf|]. intros y.
  apply keeps_bind; [apply IH|]. intros k. apply keeps_ret.
Qed.

Create HintDb keeps.

(** One step through the body of a handler; [solve_I] closes the goals
    [I (f g)] left by an assignment, from [I g]. *)
Ltac keeps_step solve_I :=
  first
    [ apply keeps_ret
    | apply keeps_get
    | apply keeps_throw
    | solve [auto with keeps]
    | apply keeps_bind; [|intros ?]
    | apply keeps_mapM; intros ?
    | apply keeps_modify; solve_I
    | apply keeps_alloc; solve_I
    | match goal with
      | |- keeps _ (match ?x with _ => _ end) => destruct x
      end
    | progress unfold emit, mutate, _updateDisplay, _setIntervals,
        _setCurrentTarget, _clearEnemyWord, _handleKeyPress, _addEnemyWord,
        _increaseDifficulty, _resetDefaults, endGame, _collisionHandler,
        newEnemy, _loadIntoQueue, initGame, spawnTick, handle ].

Ltac keeps_auto solve_I := repeat keeps_step solve_I.

(** *** The high score *)

Ltac solve_highScore :=
  let g := fresh "g" in
  let H := fresh "H" in
  intros g H; unfold highScore_above in *; simpl; lia.

Lemma handle_keeps_highScore (words : list string) (ev : event) (h : Z) :
  keeps (highScore_above h) (handle words ev).
Proof. destruct ev; keeps_auto solve_highScore. Qed.

(** X14: whatever the events, the high score never decreases. *)
Theorem highScore_never_decreases (words : list string) (evs : list event)
    (g : Game) :
  highScore g ≤ highScore (run words evs g).
Proof.
  revert g. induction evs as [|ev evs IH]; intros g; [done|].
  cbn [run fold_left]. etrans; [|apply IH].
  apply (handle_keeps_highScore words ev (highScore g) g).
  unfold highScore_above. lia.
Qed.

(** *** The counters of a session *)

Lemma scaler_inv_level_nonneg (g : Game) :
  scaler_inv g → (0 <= difficultyLevel g)%Q.
Proof.
  intros (a & b & Ha & Hb & _ & _ & _ & _ & ->).
  unfold Qle. cbn [Qnum Qden]. lia.
Qed.

Lemma streak_bonus_positive (g : Game) :
  scaler_inv g → 1 ≤ Qceiling (1 + difficultyLevel g).
Proof.
  intros Hg%scaler_inv_level_nonneg.
  change 1 with (Qceiling (inject_Z 1)) at 1. apply Qceiling_resp_le.
  rewrite <- (Qplus_0_r (inject_Z 1)) at 1. apply Qplus_le_r. done.
Qed.

Ltac solve_session :=
  let g := fresh "g" in
  let H := fresh "H" in
  intros g H;
  first
    [ exact H
    | destruct H as (?H1 & ?H2 & ?H3 & ?H4 & ?H5);
      refine (conj H1 (conj H2 (conj _ (conj _ _)))); simpl; lia ].

Lemma clearEnemyWord_keeps_session : keeps session_inv _clearEnemyWord.
Proof.
  intros g (H1 & H2 & H3 & H4 & H5). unfold _clearEnemyWord. run_M.
  destruct (currentTarget g) as [t|]; [|done].
  run_M. rewrite updateDisplay_score. run_M.
  pose proof (streak_bonus_positive g H1).
  refine (conj H1 (conj H2 (conj _ (conj _ _)))); simpl; lia.
Qed.

Lemma resetDefaults_keeps_session : keeps session_inv _resetDefaults.
Proof.
  intros g (H1 & H2 & H3 & H4 & H5). unfold _resetDefaults. run_M.
  rewrite mapM_emit_unfolded. run_M.
  split; [apply scaler_inv_new|]. split; [by left|]. simpl. lia.
Qed.

Lemma increaseDifficulty_counters (g : Game) :
  let g' := exec _increaseDifficulty g in
  score g' = score g ∧ streak g' = streak g ∧ highScore g' = highScore g
  ∧ nextModifier g'
    = if Qeq_bool (difficultyLevel g) 5 then VNull
      else if decide (nextModifier g = VStr "interval") then VStr "wordlimit"
      else VStr "interval".
Proof.
  unfold _increaseDifficulty, _setIntervals.
  run_branches; split_updateDisplay; done.
Qed.

Lemma increaseDifficulty_keeps_session : keeps session_inv _increaseDifficulty.
Proof.
  intros g (H1 & H2 & H3 & H4 & H5).
  destruct (scaler_inv_tick g H1) as (G1 & _ & Gfix).
  destruct (increaseDifficulty_counters g) as (Hs & Hst & Hh & Hm).
  unfold session_inv. rewrite Hs, Hst, Hh.
  split; [done|]. split; [|done].
  unfold modifier_inv. rewrite Hm.
  destruct (Qeq_bool (difficultyLevel g) 5) eqn:E5.
  - right. right. split; [done|].
    apply Qeq_bool_iff in E5. specialize (Gfix E5).
    injection Gfix as _ _ _ _ ->. done.
  - case_decide; [right; left | left]; done.
Qed.

#[local] Hint Resolve clearEnemyWord_keeps_session resetDefaults_keeps_session
  increaseDifficulty_keeps_session : keeps.

Lemma handle_keeps_session (words : list string) (ev : event) :
  keeps session_inv (handle words ev).
Proof. destruct ev; keeps_auto solve_session. Qed.

Lemma session_inv_new : session_inv new_Game.
Proof.
  split; [apply scaler_inv_new|]. split; [by left|]. simpl. lia.
Qed.

Lemma reachable_session_inv (words : list string) (g : Game) :
  reachable words g → session_inv g.
Proof.
  induction 1 as [|g ev _ IH]; [apply session_inv_new|].
  by apply handle_keeps_session.
Qed.

(** X15: in every reachable state the delays, the limits and the level stay
    in their ranges and move together: the level is between 0 and 5, the
    spawn delay between 500 and 2500, the refill delay is twice the spawn
    delay plus 5000, the queue limit is between 30 and 60, the limit of
    active enemies is between 10 and 16 and rises by one for every 5 of the
    queue limit, the registry never holds more than 16 enemies, and the
    level is 5 exactly when both the spawn delay and the queue limit have
    reached their ends. *)
Theorem scaling_ranges (words : list string) (g : Game) :
  reachable words g →
  (0 <= difficultyLevel g)%Q ∧ (difficultyLevel g <= 5)%Q
  ∧ 500 ≤ enemySpawnDelay g ≤ 2500
  ∧ loadQueueDelay g = 2 * enemySpawnDelay g + 5000
  ∧ 30 ≤ queueLimit g ≤ 60
  ∧ queueLimit g = 5 * activeEnemyLimit g - 20
  ∧ 10 ≤ activeEnemyLimit g ≤ 16
  ∧ Z.of_nat (size (activeEnemies g)) ≤ 16
  ∧ ((difficultyLevel g == 5)%Q ↔ enemySpawnDelay g = 500 ∧ queueLimit g = 60).
Proof.
  intros Hg.
  destruct (reachable_session_inv words g Hg) as (Hs & _).
  pose proof (ri_limit g (reachable_inv words g Hg)) as Hsize.
  pose proof (scaler_inv_level_nonneg g Hs) as H0.
  pose proof (scaler_inv_level g Hs) as H5.
  destruct Hs as (a & b & Ha & Hb & Hsd & Hld & Hql & Hal & Hlv).
  repeat (split; [first [done | lia]|]).
  rewrite <- Qeq_bool_iff, (level_5_steps _ a b Hlv). lia.
Qed.

Lemma scaling_ranges_witness :
  let words := ["cat"; "dog"]%string in
  let g := run words (Start "Normal" (λ _, 0%Q) :: replicate 12 DifficultyTick)
             new_Game in
  reachable words g
  ∧ (difficultyLevel g == 5)%Q
  ∧ enemySpawnDelay g = 500 ∧ queueLimit g = 60 ∧ activeEnemyLimit g = 16
  ∧ loadQueueDelay g = 2 * enemySpawnDelay g + 5000.
Proof.
  intros words g.
  assert (reachable words g) as Hg by apply reachable_run, reachable_new.
  assert (difficultyLevel g == 5)%Q as H5 by (by vm_compute).
  assert (activeEnemyLimit g = 16) as Hal by (by vm_compute).
  destruct (scaling_ranges words g Hg) as (_ & _ & _ & Hld & _ & _ & _ & _ & Hiff).
  destruct (proj1 Hiff H5) as [Hsd Hql].
  split; [exact Hg|]. split; [exact H5|]. split; [exact Hsd|].
  split; [exact Hql|]. split; [exact Hal | exact Hld].
Defined.

(** X16: in every reachable state the score, the streak and the high score
    are not negative. *)
Theorem counters_nonnegative (words : list string) (g : Game) :
  reachable words g → 0 ≤ score g ∧ 0 ≤ streak g ∧ 0 ≤ highScore g.
Proof. by intros (_ & _ & ?)%reachable_session_inv. Qed.

Lemma counters_nonnegative_witness :
  let words := ["cat"; "dog"]%string in
  let g := run words [Start "Normal" (λ _, 0%Q); SpawnTick 0 0; KeyDown "c";
                      KeyDown "a"; KeyDown "t"] new_Game in
  reachable words g ∧ score g = 3 ∧ streak g = 1
  ∧ 0 ≤ score g ∧ 0 ≤ streak g ∧ 0 ≤ highScore g.
Proof.
  intros words g.
  assert (reachable words g) as Hg by apply reachable_run, reachable_new.
  split; [exact Hg|]. split; [by vm_compute|]. split; [by vm_compute|].
  exact (counters_nonnegative words g Hg).
Defined.

Lemma increaseDifficulty_completes (g : Game) :
  modifier_inv g → outcome _increaseDifficulty g = Ok ().
Proof.
  intros Hm. unfold _increaseDifficulty, _setIntervals. run_M.
  destruct (Qeq_bool (difficultyLevel g) 5) eqn:E5; [done|].
  destruct Hm as [Hm|[Hm|[_ H5]]].
  - rewrite Hm. run_branches;
      rewrite updateDisplay_message_interval; run_M;
      rewrite updateDisplay_difficulty; by run_M.
  - rewrite Hm. run_branches;
      rewrite updateDisplay_message_wordlimit; run_M;
      rewrite updateDisplay_difficulty; by run_M.
  - apply Qeq_bool_iff in H5. congruence.
Qed.

(** X17: in every reachable state a tick of the difficulty interval
    completes (the message it shows always has an axis to name), and while
    the level is below 5 two ticks in a row raise it by a half at least:
    when the axis of the first tick is at its end, the second tick takes the
    other axis, which is not. *)
Theorem ticks_make_progress (words : list string) (g : Game) :
  reachable words g →
  let g1 := exec _increaseDifficulty g in
  let g2 := exec _increaseDifficulty g1 in
  outcome _increaseDifficulty g = Ok ()
  ∧ ((difficultyLevel g < 5)%Q →
     (difficultyLevel g + (1 # 2) <= difficultyLevel g2)%Q).
Proof.
  intros Hg g1 g2.
  destruct (reachable_session_inv words g Hg) as (Hs & Hm & _).
  split; [by apply increaseDifficulty_completes|].
  intros Hlt.
  destruct (scaler_inv_tick g Hs) as (Hs1 & _ & _). fold g1 in Hs1.
  destruct (scaler_inv_tick g1 Hs1) as (_ & Hmono & _). fold g2 in Hmono.
  pose proof (increaseDifficulty_scaling g) as E1. fold g1 in E1.
  pose proof (increaseDifficulty_scaling g1) as E2. fold g2 in E2.
  destruct (increaseDifficulty_counters g) as (_ & _ & _ & M1). fold g1 in M1.
  rewrite (Qlt_5_not_eq _ Hlt) in E1, M1.
  destruct Hs as (a & b & Ha & Hb & Hsd & Hld & Hql & Hal & Hlv).
  assert (a + b < 10) as Hab.
  { destruct (decide (a + b = 10)) as [E|]; [|lia].
    apply (level_5_steps _ _ _ Hlv) in E.
    rewrite (Qlt_5_not_eq _ Hlt) in E. done. }
  assert (∀ h : Game, difficultyLevel h = (difficultyLevel g + (1 # 2))%Q →
            (difficultyLevel g + (1 # 2) <= difficultyLevel h)%Q) as Hup.
  { intros h ->. apply Qle_refl. }
  destruct Hm as [Hm|[Hm|[_ H5]]].
  - rewrite Hm in E1, M1. rewrite decide_True in E1 by done.
    rewrite decide_True in M1 by done. cbn iota in M1.
    destruct (500 <? enemySpawnDelay g) eqn:E.
    + injection E1 as _ _ _ _ E1. rewrite <- E1. exact Hmono.
    + apply Z.ltb_ge in E. injection E1 as S1 S2 S3 S4 S5.
      rewrite S5, (Qlt_5_not_eq _ Hlt), M1 in E2.
      rewrite decide_False, decide_True in E2 by done.
      assert ((queueLimit g1 <? 60) = true) as Hq by (apply Z.ltb_lt; lia).
      rewrite Hq in E2.
      injection E2 as _ _ _ _ E2. apply Hup. exact E2.
  - rewrite Hm in E1, M1. rewrite decide_False in E1 by done.
    rewrite decide_False in M1 by done. cbn iota in M1.
    rewrite decide_True in E1 by done.
    destruct (queueLimit g <? 60) eqn:E.
    + injection E1 as _ _ _ _ E1. rewrite <- E1. exact Hmono.
    + apply Z.ltb_ge in E. injection E1 as S1 S2 S3 S4 S5.
      rewrite S5, (Qlt_5_not_eq _ Hlt), M1 in E2.
      rewrite decide_True in E2 by done.
      assert ((500 <? enemySpawnDelay g1) = true) as Hq by (apply Z.ltb_lt; lia).
      rewrite Hq in E2.
      injection E2 as _ _ _ _ E2. apply Hup. exact E2.
  - apply Qeq_bool_iff in H5. rewrite (Qlt_5_not_eq _ Hlt) in H5. done.
Qed.

Lemma ticks_make_progress_witness :
  let words := ["cat"; "dog"]%string in
  let g := run words (Start "Normal" (λ _, 0%Q) :: replicate 8 DifficultyTick)
             new_Game in
  let g1 := exec _increaseDifficulty g in
  let g2 := exec _increaseDifficulty g1 in
  reachable words g
  ∧ (difficultyLevel g < 5)%Q
  ∧ enemySpawnDelay g = 500
  ∧ difficultyLevel g1 = difficultyLevel g
  ∧ (difficultyLevel g + (1 # 2) <= difficultyLevel g2)%Q.
Proof.
  intros words g g1 g2.
  assert (reachable words g) as Hg by apply reachable_run, reachable_new.
  assert (difficultyLevel g < 5)%Q as Hlt by (by vm_compute).
  split; [exact Hg|]. split; [exact Hlt|].
  split; [by vm_compute|]. split; [by vm_compute|].
  exact (proj2 (ticks_make_progress words g Hg) Hlt).
Defined.

(** *** The current target *)

Lemma target_step (g g' : Game) :
  registry_inv g → target_ok g →
  (∀ v, currentTarget g' = Some v →
        currentTarget g = Some v ∨ ∃ k, activeEnemies g !! k = Some v) →
  (∀ v k, currentTarget g' = Some v → activeEnemies g !! k = Some v →
          activeEnemies g' !! k = Some v) →
  (∀ v, currentTarget g' = Some v →
        Enemy.word (deref g' (enemy v)) = Enemy.word (deref g (enemy v))) →
  target_ok g'.
Proof.
  intros Hr Ht Hnew Hkeep Hword v Hv. rewrite (Hword v Hv).
  apply (Hkeep v _ Hv).
  destruct (Hnew v Hv) as [Hold|[k Hk]]; [by apply Ht|].
  by destruct (ri_entry g Hr k v Hk) as (_ & _ & <-).
Qed.

Lemma target_none (g : Game) : currentTarget g = None → target_ok g.
Proof. intros Hn v Hv. congruence. Qed.

Lemma frames_target (g g' : Game) : frames g g' → target_ok g → target_ok g'.
Proof.
  intros (_ & Ea & Ec & Es & _) Ht v Hv. unfold deref. rewrite Ea, Es.
  apply Ht. by rewrite <- Ec.
Qed.

Lemma allocs_target (g g' : Game) :
  registry_inv g → allocs g g' → target_ok g → target_ok g'.
Proof.
  intros Hr (_ & Ea & Ec & _ & _ & Hs & _) Ht v Hv. rewrite Ec in Hv.
  destruct (ri_target g Hr v Hv) as [Hlt _].
  unfold deref. rewrite Ea, lookup_total_alt, (Hs _ Hlt), <- lookup_total_alt.
  by apply Ht.
Qed.

Lemma loadIntoQueue_target (words : list string) (rnd : nat → Q) (g : Game) :
  registry_inv g → target_ok g → target_ok (exec (_loadIntoQueue words rnd) g).
Proof.
  intros Hr Ht. unfold _loadIntoQueue. run_M.
  set (l := seq 0 (Z.to_nat (queueLimit g - Queue.size (enemyQueue g)))).
  destruct (mapM_newEnemy_spec words rnd l g) as [Ha _].
  pose proof (allocs_target g _ Hr Ha Ht) as Ht1.
  destruct (mapM (λ i, newEnemy words (rnd i)) l g) as [[refs|e] g1];
    simpl in *; [|done].
  run_M. intros v Hv. apply (Ht1 v Hv).
Qed.

Lemma clearEnemyWord_target (g : Game) :
  target_ok g → target_ok (exec _clearEnemyWord g).
Proof.
  intros Ht. unfold _clearEnemyWord. run_M.
  destruct (currentTarget g) as [t|] eqn:E.
  - run_M. rewrite updateDisplay_score. run_M. by apply target_none.
  - by apply target_none.
Qed.

Lemma handleKeyPress_target (key : string) (g : Game) :
  registry_inv g → target_ok g → target_ok (exec (_handleKeyPress key) g).
Proof.
  intros Hr Ht. unfold _handleKeyPress, _setCurrentTarget. run_M.
  destruct (currentTarget g) as [t|] eqn:Hc.
  - case_decide as Hk; [|done]. run_M.
    match goal with
    | |- context [if ?c then _ else _] => destruct c
    end.
    + match goal with
      | |- context [_clearEnemyWord ?h] => apply (clearEnemyWord_target h)
      end.
      apply (target_step g); [done | done | ..]; simpl.
      * intros v Hv. left. congruence.
      * by intros v k _ Hk'.
      * intros v Hv. deref_simpl.
        destruct (decide (enemy t = enemy v)) as [->|Hne].
        -- by rewrite lookup_total_insert_eq.
        -- by rewrite lookup_total_insert_ne.
    + run_M. apply (target_step g); [done | done | ..]; simpl.
      * intros v Hv. left. congruence.
      * by intros v k _ Hk'.
      * intros v Hv. deref_simpl.
        destruct (decide (enemy t = enemy v)) as [->|Hne].
        -- by rewrite lookup_total_insert_eq.
        -- by rewrite lookup_total_insert_ne.
  - destruct (activeEnemies g !! VStr key) as [wt|] eqn:Hk; run_M.
    + apply (target_step g); [done | done | ..]; simpl.
      * intros v [= <-]. right. eauto.
      * by intros v k _ Hk'.
      * intros v [= <-]. deref_simpl. done.
    + rewrite Hc. by apply target_none.
Qed.

Lemma spawnTick_target (rDur rPos : Q) (g : Game) :
  registry_inv g → target_ok g → target_ok (exec (spawnTick rDur rPos) g).
Proof.
  intros Hr Ht. unfold spawnTick, Queue.dequeue, _addEnemyWord. run_M.
  destruct (Queue.queue (enemyQueue g)) as [|r q] eqn:Hq; cbn [head tail]; run_M.
  - exact Ht.
  - unfold deref at 1 2 3. game_simpl.
    destruct (activeEnemies g !! Enemy.next (store g !!! r)) eqn:Hk; run_M;
      [exact Ht|].
    destruct (Z.of_nat (size (activeEnemies g)) >=? activeEnemyLimit g); run_M;
      [exact Ht|].
    apply (target_step g); [done | done | ..]; simpl.
    + intros v Hv. by left.
    + intros v k _ Hk'. rewrite lookup_insert_ne; [done|]. congruence.
    + done.
Qed.

Lemma endGame_target (g : Game) : target_ok (exec endGame g).
Proof.
  unfold endGame, _resetDefaults. run_M. rewrite mapM_emit_unfolded. run_M.
  by apply target_none.
Qed.

Lemma collisionHandler_target (word : string) (g : Game) :
  registry_inv g → target_ok g → target_ok (exec (_collisionHandler word) g).
Proof.
  intros Hr Ht. unfold _collisionHandler. run_M.
  rewrite updateDisplay_lives. run_M.
  destruct (activeEnemies g !! index word 0) as [ev|] eqn:Hk.
  - destruct (decide (currentTarget g = Some ev ∧ is_Some (Some ev)))
      as [[Hc _]|Hn]; run_M;
      (match goal with
       | |- context [if ?c then _ else _] => destruct c
       end; [apply endGame_target|]); run_M.
    + by apply target_none.
    + apply (target_step g); [done | done | ..]; simpl.
      * intros v Hv. by left.
      * intros v k Hv Hk'. rewrite lookup_delete_ne; [done|].
        intros <-. apply Hn. split; [congruence | by eexists].
      * done.
  - rewrite decide_False by (by intros [_ [? ?]]). run_M.
    rewrite delete_id by done.
    apply (target_step g); [done | done | ..]; simpl; auto.
Qed.

Lemma clearEnemyWord_keeps_target : keeps registry_target_inv _clearEnemyWord.
Proof.
  intros g [Hr Ht]. split; [by apply clearEnemyWord_inv | by apply clearEnemyWord_target].
Qed.

Lemma handleKeyPress_keeps_target (key : string) :
  keeps registry_target_inv (_handleKeyPress key).
Proof.
  intros g [Hr Ht].
  split; [by apply handleKeyPress_inv | by apply handleKeyPress_target].
Qed.

Lemma spawnTick_keeps_target (rDur rPos : Q) :
  keeps registry_target_inv (spawnTick rDur rPos).
Proof.
  intros g [Hr Ht]. split; [by apply spawnTick_inv | by apply spawnTick_target].
Qed.

Lemma loadIntoQueue_keeps_target (words : list string) (rnd : nat → Q) :
  keeps registry_target_inv (_loadIntoQueue words rnd).
Proof.
  intros g [Hr Ht].
  split; [by apply loadIntoQueue_inv | by apply loadIntoQueue_target].
Qed.

Lemma increaseDifficulty_keeps_target : keeps registry_target_inv _increaseDifficulty.
Proof.
  intros g [Hr Ht]. pose proof (increaseDifficulty_frames g) as Hf.
  split; [by eapply frames_inv | by eapply frames_target].
Qed.

Lemma collisionHandler_keeps_target (word : string) :
  keeps registry_target_inv (_collisionHandler word).
Proof.
  intros g [Hr Ht].
  split; [by apply collisionHandler_inv | by apply collisionHandler_target].
Qed.

#[local] Hint Resolve handleKeyPress_keeps_target spawnTick_keeps_target
  loadIntoQueue_keeps_target increaseDifficulty_keeps_target
  collisionHandler_keeps_target : keeps.

Ltac solve_target :=
  let g := fresh "g" in
  let Hr := fresh "Hr" in
  let Ht := fresh "Ht" in
  let Hf := fresh "Hf" in
  intros g [Hr Ht];
  match goal with
  | |- registry_target_inv ?h =>
      assert (frames g h) as Hf by (repeat split; simpl; first [done | lia]);
      split; [by eapply frames_inv | by eapply frames_target]
  end.

Lemma handle_keeps_target (words : list string) (ev : event) :
  keeps registry_target_inv (handle words ev).
Proof. destruct ev; cbn [handle]; keeps_auto solve_target. Qed.

(** X18: in every reachable state the current target, when there is one,
    is an active enemy: it is the entry that the registry holds under the
    first character of the target's word. So the entry that
    [_clearEnemyWord] deletes is the target's own, and a collision of the
    targeted word always drops the target. *)
Theorem target_is_active (words : list string) (g : Game) (v : EnemyValueObject) :
  reachable words g →
  currentTarget g = Some v →
  activeEnemies g !! index (Enemy.word (deref g (enemy v))) 0 = Some v.
Proof.
  intros Hg. revert v.
  enough (registry_target_inv g) as [_ Ht] by exact Ht.
  induction Hg as [|g ev _ IH].
  - split; [apply registry_inv_new | by apply target_none].
  - by apply handle_keeps_target.
Qed.

Lemma target_is_active_witness :
  let words := ["cAt"]%string in
  let g := run words [Start "Normal" (λ _, 0%Q); SpawnTick 0 0; KeyDown "c"]
             new_Game in
  let v := MkEVO 0 33 34 in
  reachable words g
  ∧ currentTarget g = Some v
  ∧ activeEnemies g !! index (Enemy.word (deref g (enemy v))) 0 = Some v.
Proof.
  intros words g v.
  assert (reachable words g) as Hg by apply reachable_run, reachable_new.
  assert (currentTarget g = Some v) as Hv by (by vm_compute).
  split; [exact Hg|]. split; [exact Hv|].
  exact (target_is_active words g v Hg Hv).
Defined.

(** ** Further properties: spawning *)

(** X19: a spawn tick on a queue that is not empty always completes and
    always takes the head out of the queue. The word is registered, under
    its next character and with two fresh handles, when that character is
    free and the registry is below its limit; otherwise the registry is left
    as it is and the word is lost: it is not put back in the queue. In
    either case no entry of the registry is replaced. *)
Theorem spawn_registers_or_drops (g : Game) (rDur rPos : Q) (r : nat)
    (q : list nat) :
  Queue.queue (enemyQueue g) = r :: q →
  let g' := exec (spawnTick rDur rPos) g in
  let key := Enemy.next (deref g r) in
  outcome (spawnTick rDur rPos) g = Ok ()
  ∧ Queue.queue (enemyQueue g') = q
  ∧ Queue.size (enemyQueue g') = Queue.size (enemyQueue g) - 1
  ∧ activeEnemies g'
    = (if decide (activeEnemies g !! key = None
                  ∧ Z.of_nat (size (activeEnemies g)) < activeEnemyLimit g)
       then <[key := MkEVO r (fresh g) (S (fresh g))]> (activeEnemies g)
       else activeEnemies g)
  ∧ ∀ k v, activeEnemies g !! k = Some v → activeEnemies g' !! k = Some v.
Proof.
  intros Hq. unfold spawnTick, Queue.dequeue, _addEnemyWord. run_M.
  rewrite Hq. cbn [head tail]. run_M. unfold deref. game_simpl.
  destruct (activeEnemies g !! Enemy.next (store g !!! r)) as [old|] eqn:Hk;
    run_M.
  - rewrite decide_False by (by intros [? _]). done.
  - destruct (Z.of_nat (size (activeEnemies g)) >=? activeEnemyLimit g) eqn:Hl;
      run_M.
    + apply Z.geb_le in Hl. rewrite decide_False by (intros [_ ?]; lia). done.
    + rewrite Z.geb_leb in Hl. apply Z.leb_gt in Hl.
      rewrite decide_True by done. repeat (split; [done|]).
      intros k v Hv. rewrite lookup_insert_ne; [done | congruence].
Qed.

(** The second "cat" of the queue meets the first one in the registry. *)
Lemma spawn_registers_or_drops_witness :
  let words := ["cat"; "dog"]%string in
  let g := run words [Start "Normal" (λ _, 0%Q); SpawnTick 0 0] new_Game in
  let g' := exec (spawnTick 0 0) g in
  let ev := MkEVO 0 33 34 in
  Queue.queue (enemyQueue g) = 1%nat :: seq 2 28
  ∧ activeEnemies g !! VStr "c" = Some ev
  ∧ Queue.queue (enemyQueue g') = seq 2 28
  ∧ activeEnemies g' !! VStr "c" = Some ev.
Proof.
  intros words g g' ev.
  assert (Queue.queue (enemyQueue g) = 1%nat :: seq 2 28) as Hq by (by vm_compute).
  assert (activeEnemies g !! VStr "c" = Some ev) as Hk by (by vm_compute).
  destruct (spawn_registers_or_drops g 0 0 1%nat (seq 2 28) Hq)
    as (_ & H2 & _ & _ & H5).
  split; [exact Hq|]. split; [exact Hk|]. split; [exact H2|].
  exact (H5 _ _ Hk).
Defined.

(** ** Further properties: starting a game *)

(** Running a sequence step by step. *)

Lemma exec_bind {A B} (m : M A) (f : A → M B) (g : Game) :
  exec (m ≫= f) g
  = match outcome m g with
    | Ok a => exec (f a) (exec m g)
    | Throw _ => exec m g
    end.
Proof. unfold exec, outcome, mbind, M_bind. by destruct (m g) as [[a|e] g1]. Qed.

Lemma outcome_bind {A B} (m : M A) (f : A → M B) (g : Game) :
  outcome (m ≫= f) g
  = match outcome m g with
    | Ok a => outcome (f a) (exec m g)
    | Throw e => Throw e
    end.
Proof. unfold exec, outcome, mbind, M_bind. by destruct (m g) as [[a|e] g1]. Qed.

Lemma completes_bind {A B} (m : M A) (f : A → M B) :
  completes m → (∀ a, completes (f a)) → completes (m ≫= f).
Proof.
  intros Hm Hf g. rewrite outcome_bind. destruct (Hm g) as [a ->]. apply Hf.
Qed.

Lemma completes_ret {A} (a : A) : completes (mret a).
Proof. intros g. by exists a. Qed.

Lemma completes_get : completes get.
Proof. intros g. by exists g. Qed.

Lemma completes_modify (f : Game → Game) : completes (modify f).
Proof. intros g. by exists (). Qed.

Lemma completes_alloc : completes alloc.
Proof. intros g. by exists (fresh g). Qed.

Lemma completes_setIntervals : completes _setIntervals.
Proof.
  unfold _setIntervals, emit.
  repeat first [ apply completes_bind; [|intros ?] | apply completes_get
               | apply completes_modify | apply completes_alloc ].
Qed.

Lemma loadIntoQueue_completes (words : list string) (rnd : nat → Q) (g : Game) :
  words ≠ [] → (∀ i, unit_interval (rnd i)) →
  outcome (_loadIntoQueue words rnd) g = Ok ().
Proof.
  intros Hw Hr. unfold _loadIntoQueue. run_M.
  set (l := seq 0 (Z.to_nat (queueLimit g - Queue.size (enemyQueue g)))).
  destruct (mapM_newEnemy_completes words rnd l g Hw Hr) as [refs Hrefs].
  by destruct (mapM (λ i, newEnemy words (rnd i)) l g) as [[refs'|e] g1].
Qed.

Lemma loadIntoQueue_keeps_counters (words : list string) (rnd : nat → Q)
    (x : Z * string * lives_t * Z * Z * (Z * Z * Z * Z * Q)) :
  keeps (λ g, (score g, gameMode g, lives g, streak g, highScore g, scaling g) = x)
    (_loadIntoQueue words rnd).
Proof. keeps_auto ltac:(intros ? H; exact H). Qed.

Lemma setIntervals_handles (g : Game) :
  ∃ n, spawnInterval (exec _setIntervals g) = Some n
       ∧ enqueueInterval (exec _setIntervals g) = Some (S n)
       ∧ difficultyInterval (exec _setIntervals g) = Some (S (S n)).
Proof. exists (fresh g). unfold _setIntervals. run_M. done. Qed.

Lemma setIntervals_keeps_counters
    (x : Z * string * lives_t * Z * Z * (Z * Z * Z * Z * Q)) :
  keeps (λ g, (score g, gameMode g, lives g, streak g, highScore g, scaling g) = x)
    _setIntervals.
Proof. keeps_auto ltac:(intros ? H; exact H). Qed.

(** X20: with a dictionary that is not empty, [initGame] completes; it sets
    the score to 0, stores the mode in lower case and gives 4 lives when
    that is "normal" and 1 life for anything else, and installs the three
    timers under three distinct handles. It does not touch the streak, the
    high score, the delays, the limits or the level: a game starts from the
    values that the constructor or the last [endGame] left. *)
Theorem initGame_starts (words : list string) (mode : string) (rnd : nat → Q)
    (g : Game) :
  words ≠ [] → (∀ i, unit_interval (rnd i)) →
  let g' := exec (initGame words mode rnd) g in
  outcome (initGame words mode rnd) g = Ok ()
  ∧ score g' = 0
  ∧ gameMode g' = toLowerCase mode
  ∧ lives g' = (if decide (toLowerCase mode = "normal") then LNum 4 else LNum 1)
  ∧ streak g' = streak g
  ∧ highScore g' = highScore g
  ∧ scaling g' = scaling g
  ∧ ∃ n, spawnInterval g' = Some n
         ∧ enqueueInterval g' = Some (S n)
         ∧ difficultyInterval g' = Some (S (S n)).
Proof.
  intros Hw Hr. cbv zeta. unfold initGame.
  do 3 (rewrite exec_bind, outcome_bind; cbn [outcome exec modify fst snd]).
  rewrite exec_bind, outcome_bind.
  match goal with
  | |- context [outcome (_loadIntoQueue words rnd) ?h] =>
      rewrite (loadIntoQueue_completes words rnd h Hw Hr);
      pose proof (loadIntoQueue_keeps_counters words rnd _ h eq_refl) as Hsame;
      revert Hsame; generalize (exec (_loadIntoQueue words rnd) h)
  end.
  unfold scaling. game_simpl. intros h1 Hsame.
  rewrite exec_bind, outcome_bind. cbn [outcome exec get fst snd].
  do 4 (rewrite exec_bind, outcome_bind; cbn [outcome exec emit modify fst snd]).
  rewrite exec_bind, outcome_bind.
  match goal with
  | |- context [outcome _setIntervals ?h] =>
      destruct (completes_setIntervals h) as [[] ->];
      destruct (setIntervals_handles h) as (n & H1 & H2 & H3);
      pose proof (setIntervals_keeps_counters _ h eq_refl) as Hsame2;
      revert H1 H2 H3 Hsame2; generalize (exec _setIntervals h)
  end.
  unfold scaling. game_simpl. intros h2 H1 H2 H3 Hsame2.
  do 2 (rewrite exec_bind, outcome_bind; cbn [outcome exec emit modify fst snd]).
  unfold exec, outcome, emit, modify. game_simpl.
  rewrite Hsame in Hsame2.
  injection Hsame2 as -> -> -> -> -> -> -> -> -> ->.
  repeat (split; [done|]). by exists n.
Qed.

Lemma initGame_starts_witness :
  let words := ["cat"; "dog"]%string in
  let rnd := λ _ : nat, 0%Q in
  let g' := exec (initGame words "Sudden Death" rnd) new_Game in
  words ≠ [] ∧ (∀ i, unit_interval (rnd i))
  ∧ outcome (initGame words "Sudden Death" rnd) new_Game = Ok ()
  ∧ lives g' = LNum 1
  ∧ gameMode g' = "sudden death"%string.
Proof.
  intros words rnd g'.
  assert (words ≠ []) as Hw by discriminate.
  assert (∀ i, unit_interval (rnd i)) as Hr.
  { intros i. split; [vm_compute; discriminate | reflexivity]. }
  destruct (initGame_starts words "Sudden Death" rnd new_Game Hw Hr)
    as (H1 & _ & H3 & H4 & _).
  split; [exact Hw|]. split; [exact Hr|]. split; [exact H1|].
  split; [exact H4 | exact H3].
Defined.

(** ** Further properties: the intervals *)

Lemma running_snoc (tr : list effect) (e : effect) :
  running (tr ++ [e]) = timer_step (running tr) e.
Proof. unfold running. by rewrite fold_left_app. Qed.

Lemma running_snoc_other (tr : list effect) (e : effect) :
  (∀ id t d, e ≠ SetInterval id t d) → running (tr ++ [e]) ⊆ running tr.
Proof.
  intros He. rewrite running_snoc.
  destruct e as [| | | | | | | | | |id t d|[x|]| | | | |]; cbn [timer_step];
    try done; [by destruct (He id t d) | set_solver].
Qed.

Lemma running_clear_all (tr : list effect) (l : list nat) :
  running (tr ++ ((λ x, ClearInterval (Some x)) <$> l))
  = running tr ∖ list_to_set l.
Proof.
  revert tr. induction l as [|x l IH]; intros tr.
  - rewrite app_nil_r. set_solver.
  - cbn [fmap list_fmap list_to_set]. rewrite cons_middle, app_assoc, IH, running_snoc.
    cbn [timer_step]. set_solver.
Qed.

Lemma owned_frame (g g' : Game) (id : nat) :
  spawnInterval g' = spawnInterval g →
  enqueueInterval g' = enqueueInterval g →
  difficultyInterval g' = difficultyInterval g →
  activeEnemies g' = activeEnemies g →
  owned g id → owned g' id.
Proof. unfold owned. by intros -> -> -> ->. Qed.

(** [solve_leak] closes the goals left by a step that sets no interval and
    changes none of the handles the game holds. *)
Ltac solve_leak :=
  let g := fresh "g" in
  let H := fresh "H" in
  let id := fresh "id" in
  let Hid := fresh "Hid" in
  intros g H id Hid; simpl in Hid;
  apply (owned_frame g); [done..|];
  apply H;
  first [ exact Hid | by apply running_snoc_other in Hid ].

Lemma setIntervals_keeps_leak_free : keeps leak_free _setIntervals.
Proof.
  intros g Hg id. unfold _setIntervals. run_M.
  rewrite !running_snoc. cbn [timer_step]. unfold owned. game_simpl.
  intros Hid.
  assert (id = fresh g ∨ id = S (fresh g) ∨ id = S (S (fresh g))
          ∨ (id ∈ running (dom g) ∧ Some id ≠ spawnInterval g
             ∧ Some id ≠ enqueueInterval g ∧ Some id ≠ difficultyInterval g))
    as [->|[->|[->|(Hin & H1 & H2 & H3)]]]; [|by auto..|].
  { destruct (spawnInterval g), (enqueueInterval g), (difficultyInterval g);
      set_solver. }
  destruct (Hg id Hin) as [?|[?|[?|?]]]; try congruence. by repeat right.
Qed.

#[local] Hint Resolve setIntervals_keeps_leak_free : keeps.

Lemma increaseDifficulty_keeps_leak_free : keeps leak_free _increaseDifficulty.
Proof. unfold _increaseDifficulty. keeps_auto solve_leak. Qed.

Lemma loadIntoQueue_keeps_leak_free (words : list string) (rnd : nat → Q) :
  keeps leak_free (_loadIntoQueue words rnd).
Proof. unfold _loadIntoQueue. keeps_auto solve_leak. Qed.

#[local] Hint Resolve increaseDifficulty_keeps_leak_free
  loadIntoQueue_keeps_leak_free : keeps.

Lemma owned_delete (g g' : Game) (k : jsval) (ev : EnemyValueObject) (id : nat) :
  spawnInterval g' = spawnInterval g →
  enqueueInterval g' = enqueueInterval g →
  difficultyInterval g' = difficultyInterval g →
  activeEnemies g' = delete k (activeEnemies g) →
  activeEnemies g !! k = Some ev →
  id ≠ detector ev →
  owned g id → owned g' id.
Proof.
  unfold owned. intros -> -> -> -> Hk Hne [?|[?|[?|(k' & v & Hv & Hd)]]]; auto.
  repeat right. exists k', v. split; [|done].
  rewrite lookup_delete_ne; [done|]. intros <-. congruence.
Qed.

Lemma owned_insert (g g' : Game) (k : jsval) (ev : EnemyValueObject) (id : nat) :
  spawnInterval g' = spawnInterval g →
  enqueueInterval g' = enqueueInterval g →
  difficultyInterval g' = difficultyInterval g →
  activeEnemies g' = <[k := ev]> (activeEnemies g) →
  activeEnemies g !! k = None →
  id = detector ev ∨ owned g id → owned g' id.
Proof.
  unfold owned. intros -> -> -> -> Hk [->|[?|[?|[?|(k' & v & Hv & Hd)]]]]; auto.
  - repeat right. exists k, ev. by rewrite lookup_insert_eq.
  - repeat right. exists k', v. split; [|done].
    rewrite lookup_insert_ne; [done|]. intros <-. congruence.
Qed.

Lemma clearEnemyWord_leak_free (g : Game) :
  target_ok g → leak_free g → leak_free (exec _clearEnemyWord g).
Proof.
  intros Ht Hg. unfold _clearEnemyWord. run_M.
  destruct (currentTarget g) as [t|] eqn:E; [|done].
  run_M. rewrite updateDisplay_score. run_M.
  intros id. game_simpl. rewrite !running_snoc. cbn [timer_step].
  intros [Hin Hne%not_elem_of_singleton]%elem_of_difference.
  eapply (owned_delete g); [| | | | exact (Ht t E) | exact Hne | by apply Hg]; done.
Qed.

Lemma handleKeyPress_leak_free (key : string) (g : Game) :
  registry_inv g → target_ok g → leak_free g →
  leak_free (exec (_handleKeyPress key) g).
Proof.
  intros Hr Ht Hg. unfold _handleKeyPress, _setCurrentTarget. run_M.
  destruct (currentTarget g) as [t|] eqn:Hc.
  - case_decide as Hk; [|done]. run_M.
    match goal with
    | |- context [if ?c then _ else _] => destruct c
    end.
    + match goal with
      | |- context [_clearEnemyWord ?h] => apply (clearEnemyWord_leak_free h)
      end.
      * apply (target_step g); [done | done | ..]; simpl.
        -- intros v Hv. left. congruence.
        -- by intros v k _ Hk'.
        -- intros v Hv. deref_simpl.
           destruct (decide (enemy t = enemy v)) as [->|Hne].
           ++ by rewrite lookup_total_insert_eq.
           ++ by rewrite lookup_total_insert_ne.
      * intros id. game_simpl. rewrite !running_snoc. cbn [timer_step].
        apply Hg.
    + run_M. intros id. game_simpl. rewrite !running_snoc. cbn [timer_step].
      apply Hg.
  - destruct (activeEnemies g !! VStr key) as [wt|] eqn:Hk; run_M.
    + intros id. game_simpl. rewrite !running_snoc. cbn [timer_step].
      apply Hg.
    + rewrite Hc. exact Hg.
Qed.

Lemma spawnTick_leak_free (rDur rPos : Q) (g : Game) :
  leak_free g → leak_free (exec (spawnTick rDur rPos) g).
Proof.
  intros Hg. unfold spawnTick, Queue.dequeue, _addEnemyWord. run_M.
  destruct (Queue.queue (enemyQueue g)) as [|r q] eqn:Hq; cbn [head tail]; run_M.
  - exact Hg.
  - unfold deref at 1 2 3. game_simpl.
    destruct (activeEnemies g !! Enemy.next (store g !!! r)) eqn:Hk; run_M;
      [exact Hg|].
    destruct (Z.of_nat (size (activeEnemies g)) >=? activeEnemyLimit g); run_M;
      [exact Hg|].
    intros id. game_simpl. rewrite !running_snoc. cbn [timer_step].
    intros [->%elem_of_singleton|Hin]%elem_of_union;
      eapply (owned_insert g); try done; [by left | right; by apply Hg].
Qed.

Lemma endGame_stops (g : Game) :
  leak_free g → running (dom (exec endGame g)) = ∅.
Proof.
  intros Hg. unfold endGame, _resetDefaults. run_M.
  rewrite mapM_emit_unfolded. run_M.
  rewrite !running_snoc. cbn [timer_step].
  change (λ kv : jsval * EnemyValueObject, ClearInterval (Some (detector kv.2)))
    with ((λ x, ClearInterval (Some x)) ∘ (λ kv : jsval * EnemyValueObject, detector kv.2)).
  rewrite list_fmap_compose, running_clear_all, !running_snoc. cbn [timer_step].
  apply set_eq. intros id. split; [|set_solver]. intros Hid.
  assert (id ∈ running (dom g)
          ∧ id ∉ (list_to_set ((λ kv : jsval * EnemyValueObject, detector kv.2)
                                <$> map_to_list (activeEnemies g)) : gset nat)
          ∧ Some id ≠ spawnInterval g ∧ Some id ≠ enqueueInterval g
          ∧ Some id ≠ difficultyInterval g) as (Hin & Hd & H1 & H2 & H3).
  { destruct (spawnInterval g), (enqueueInterval g), (difficultyInterval g);
      set_solver. }
  destruct (Hg id Hin) as [?|[?|[?|(k & v & Hk & <-)]]]; try congruence.
  destruct Hd. apply elem_of_list_to_set, list_elem_of_fmap.
  exists (k, v). split; [done|]. by apply elem_of_map_to_list.
Qed.

Lemma collisionHandler_leak_free (word : string) (g : Game) :
  leak_free g → leak_free (exec (_collisionHandler word) g).
Proof.
  intros Hg. unfold _collisionHandler. run_M.
  rewrite updateDisplay_lives. run_M.
  assert (∀ h, leak_free h → leak_free (exec endGame h)) as Hend.
  { intros h Hh id. rewrite (endGame_stops h Hh). set_solver. }
  destruct (activeEnemies g !! index word 0) as [ev|] eqn:Hk.
  - assert (∀ h : Game,
      spawnInterval h = spawnInterval g → enqueueInterval h = enqueueInterval g →
      difficultyInterval h = difficultyInterval g →
      activeEnemies h = delete (index word 0) (activeEnemies g) →
      running (dom h) = running (dom g) ∖ {[detector ev]} →
      leak_free h) as Hstep.
    { intros h E1 E2 E3 E4 E5 id. rewrite E5.
      intros [Hin Hne%not_elem_of_singleton]%elem_of_difference.
      by eapply (owned_delete g); [..| exact Hk | exact Hne | apply Hg]. }
    destruct (decide (currentTarget g = Some ev ∧ is_Some (Some ev)))
      as [[Hc _]|Hn]; run_M;
      (match goal with
       | |- context [if ?c then _ else _] => destruct c
       end; [apply Hend|]; run_M);
      apply Hstep; try done; game_simpl; by rewrite !running_snoc.
  - rewrite decide_False by (by intros [_ [? ?]]). run_M.
    rewrite delete_id by done.
    intros id. game_simpl. rewrite !running_snoc. cbn [timer_step]. apply Hg.
Qed.

Lemma handle_leak_free (words : list string) (ev : event) (g : Game) :
  registry_target_inv g → leak_free g → leak_free (exec (handle words ev) g).
Proof.
  intros [Hr Ht]. revert g Hr Ht.
  destruct ev; cbn [handle]; intros g Hr Ht;
    [ | by apply handleKeyPress_leak_free | apply spawnTick_leak_free
      | | | apply collisionHandler_leak_free | | ];
    revert g Hr Ht;
    match goal with
    | |- ∀ g, _ → _ → leak_free g → leak_free (exec ?m g) =>
        enough (keeps leak_free m) as Hm by (intros g _ _; apply Hm)
    end; keeps_auto solve_leak.
Qed.

Lemma reachable_leak_free (words : list string) (g : Game) :
  reachable words g → leak_free g.
Proof.
  intros Hg.
  enough (registry_target_inv g ∧ leak_free g) as [_ H] by exact H.
  induction Hg as [|g ev _ [IH1 IH2]].
  - split; [split; [apply registry_inv_new | by apply target_none]|].
    intros id. cbn. set_solver.
  - split; [by apply handle_keeps_target | by apply handle_leak_free].
Qed.

(** X21: no interval leaks. In every reachable state an interval that is
    still running is one the game holds a handle of: the spawn, enqueue or
    difficulty interval, or the detector of an active enemy. *)
Theorem running_timers_are_owned (words : list string) (g : Game) (id : nat) :
  reachable words g →
  id ∈ running (dom g) →
  spawnInterval g = Some id ∨ enqueueInterval g = Some id
  ∨ difficultyInterval g = Some id
  ∨ ∃ k v, activeEnemies g !! k = Some v ∧ detector v = id.
Proof. intros Hg. exact (reachable_leak_free words g Hg id). Qed.

Lemma running_timers_are_owned_witness :
  let words := ["cat"; "dog"]%string in
  let g := run words [Start "Normal" (λ _, 0%Q); SpawnTick 0 0] new_Game in
  reachable words g
  ∧ 34%nat ∈ running (dom g)
  ∧ (spawnInterval g = Some 34%nat ∨ enqueueInterval g = Some 34%nat
     ∨ difficultyInterval g = Some 34%nat
     ∨ ∃ k v, activeEnemies g !! k = Some v ∧ detector v = 34%nat).
Proof.
  intros words g.
  assert (reachable words g) as Hg by apply reachable_run, reachable_new.
  assert (34%nat ∈ running (dom g)) as Hid by (by vm_compute).
  split; [exact Hg|]. split; [exact Hid|].
  exact (running_timers_are_owned words g 34%nat Hg Hid).
Defined.

(** X22: when a collision takes the last life, every interval is stopped:
    after the handler no interval that was ever started is still running,
    neither the three of the game nor the detector of any word. *)
Theorem game_over_stops_every_interval (words : list string) (g : Game)
    (word : string) (ev : EnemyValueObject) (n : Z) :
  reachable words g →
  activeEnemies g !! index word 0 = Some ev →
  lives g = LNum n → n ≤ 1 →
  running (dom (exec (_collisionHandler word) g)) = ∅.
Proof.
  intros Hg%reachable_leak_free Hk Hl Hn. unfold _collisionHandler. run_M.
  rewrite updateDisplay_lives. run_M. rewrite Hk, Hl. cbn [lives_dec].
  assert (lives_le0 (LNum (n - 1)) = true) as Hle.
  { simpl. apply Z.leb_le. lia. }
  destruct (decide (currentTarget g = Some ev ∧ is_Some (Some ev))); run_M;
    rewrite Hle; apply endGame_stops; intros id; game_simpl;
    rewrite !running_snoc; cbn [timer_step];
    intros [Hin Hne%not_elem_of_singleton]%elem_of_difference;
    (eapply (owned_delete g); [| | | | exact Hk | exact Hne | by apply Hg]; done).
Qed.

Lemma game_over_stops_every_interval_witness :
  let words := ["cat"; "dog"]%string in
  let g := run words [Start "Sudden Death" (λ _, 0%Q); SpawnTick 0 0] new_Game in
  reachable words g
  ∧ activeEnemies g !! index "cat" 0 = Some (MkEVO 0 33 34)
  ∧ lives g = LNum 1
  ∧ running (dom (exec (_collisionHandler "cat") g)) = ∅.
Proof.
  intros words g.
  assert (reachable words g) as Hg by apply reachable_run, reachable_new.
  assert (activeEnemies g !! index "cat" 0 = Some (MkEVO 0 33 34)) as Hk
    by (by vm_compute).
  assert (lives g = LNum 1) as Hl by (by vm_compute).
  split; [exact Hg|]. split; [exact Hk|]. split; [exact Hl|].
  exact (game_over_stops_every_interval words g "cat" _ 1 Hg Hk Hl ltac:(lia)).
Defined.

(** ** Further properties: a second game *)

Lemma loadIntoQueue_queue (words : list string) (rnd : nat → Q) (g : Game) :
  words ≠ [] → (∀ i, unit_interval (rnd i)) →
  let g' := exec (_loadIntoQueue words rnd) g in
  Queue.queue (enemyQueue g')
  = Queue.queue (enemyQueue g)
      ++ seq (fresh g) (Z.to_nat (queueLimit g - Queue.size (enemyQueue g)))
  ∧ Queue.size (enemyQueue g')
    = Z.max (Queue.size (enemyQueue g)) (queueLimit g).
Proof.
  intros Hw Hr. unfold _loadIntoQueue. run_M.
  set (l := seq 0 (Z.to_nat (queueLimit g - Queue.size (enemyQueue g)))).
  destruct (mapM_newEnemy_spec words rnd l g) as [Ha Hs].
  destruct (mapM_newEnemy_completes words rnd l g Hw Hr) as [refs Hrefs].
  destruct (mapM (λ i, newEnemy words (rnd i)) l g) as [[refs'|e] g1];
    simpl in *; [|done].
  destruct (Hs refs' eq_refl) as [-> _].
  destruct Ha as (-> & _). run_M. simpl.
  rewrite Set_of_NoDup by apply NoDup_seq.
  unfold l. rewrite !length_seq. split; [done | lia].
Qed.

Lemma initGame_queue (words : list string) (mode : string) (rnd : nat → Q)
    (g : Game) :
  words ≠ [] → (∀ i, unit_interval (rnd i)) →
  let g' := exec (initGame words mode rnd) g in
  outcome (initGame words mode rnd) g = Ok ()
  ∧ Queue.queue (enemyQueue g')
    = Queue.queue (enemyQueue g)
        ++ seq (fresh g) (Z.to_nat (queueLimit g - Queue.size (enemyQueue g)))
  ∧ Queue.size (enemyQueue g')
    = Z.max (Queue.size (enemyQueue g)) (queueLimit g).
Proof.
  intros Hw Hr. cbv zeta. unfold initGame.
  do 3 (rewrite exec_bind, outcome_bind; cbn [outcome exec modify fst snd]).
  rewrite exec_bind, outcome_bind.
  match goal with
  | |- context [outcome (_loadIntoQueue words rnd) ?h] =>
      rewrite (loadIntoQueue_completes words rnd h Hw Hr);
      destruct (loadIntoQueue_queue words rnd h Hw Hr) as [Hq1 Hq2];
      revert Hq1 Hq2; generalize (exec (_loadIntoQueue words rnd) h)
  end.
  game_simpl. intros h1 <- <-.
  match goal with
  | |- outcome ?m h1 = _ ∧ _ =>
      assert (completes m) as Hc
        by (unfold emit;
            repeat first [ apply completes_setIntervals
                         | apply completes_bind; [|intros ?]
                         | apply completes_get | apply completes_modify ]);
      assert (keeps (λ g, enemyQueue g = enemyQueue h1) m) as Hk
        by keeps_auto ltac:(intros ? H; exact H);
      destruct (Hc h1) as [[] ->]; rewrite (Hk h1 eq_refl)
  end.
  done.
Qed.

Lemma game_over_queue (g : Game) (word : string) (ev : EnemyValueObject) (n : Z) :
  activeEnemies g !! index word 0 = Some ev →
  lives g = LNum n → n ≤ 1 →
  let g' := exec (_collisionHandler word) g in
  Queue.queue (enemyQueue g') = []
  ∧ Queue.size (enemyQueue g') = Queue.size (enemyQueue g)
  ∧ queueLimit g' = 30
  ∧ fresh g' = fresh g.
Proof.
  intros Hk Hl Hn. unfold _collisionHandler. run_M.
  rewrite updateDisplay_lives. run_M. rewrite Hk, Hl. cbn [lives_dec].
  assert (lives_le0 (LNum (n - 1)) = true) as Hle.
  { simpl. apply Z.leb_le. lia. }
  destruct (decide (currentTarget g = Some ev ∧ is_Some (Some ev))); run_M;
    rewrite Hle; unfold endGame, _resetDefaults; run_M;
    rewrite mapM_emit_unfolded; run_M; done.
Qed.

(** X23: the queue of the next game. After the collision that ends a game,
    [Retry] starts the new game with only [30 - size] words in the queue,
    where [size] is the counter of the queue when the game ended: [clear]
    emptied the array and left the counter, and [_loadIntoQueue] tops up by
    the counter. A game that ends with 29 words waiting starts the next one
    with a single word. *)
Theorem retry_refills_by_stale_size (words : list string) (rnd : nat → Q)
    (g : Game) (word : string) (ev : EnemyValueObject) (n : Z) :
  words ≠ [] → (∀ i, unit_interval (rnd i)) →
  activeEnemies g !! index word 0 = Some ev →
  lives g = LNum n → n ≤ 1 →
  let g1 := exec (_collisionHandler word) g in
  let g2 := exec (handle words (Retry rnd)) g1 in
  outcome (handle words (Retry rnd)) g1 = Ok ()
  ∧ Queue.queue (enemyQueue g2)
    = seq (fresh g) (Z.to_nat (30 - Queue.size (enemyQueue g)))
  ∧ Queue.size (enemyQueue g2) = Z.max (Queue.size (enemyQueue g)) 30.
Proof.
  intros Hw Hr Hk Hl Hn.
  destruct (game_over_queue g word ev n Hk Hl Hn) as (Hq & Hs & Hlim & Hf).
  cbv zeta in *. revert Hq Hs Hlim Hf.
  generalize (exec (_collisionHandler word) g). intros g1 Hq Hs Hlim Hf.
  cbn [handle]. rewrite exec_bind, outcome_bind.
  cbn [outcome exec emit modify fst snd].
  rewrite exec_bind, outcome_bind. cbn [outcome exec get fst snd].
  match goal with
  | |- context [outcome (initGame words ?mode rnd) ?h] =>
      destruct (initGame_queue words mode rnd h Hw Hr) as (-> & -> & ->)
  end.
  game_simpl. rewrite Hq, Hs, Hlim, Hf. done.
Qed.

Lemma retry_refills_by_stale_size_witness :
  let words := ["cat"; "dog"]%string in
  let rnd := λ _ : nat, 0%Q in
  let g := run words [Start "Sudden Death" rnd; SpawnTick 0 0] new_Game in
  let g1 := exec (_collisionHandler "cat") g in
  let g2 := exec (handle words (Retry rnd)) g1 in
  words ≠ [] ∧ (∀ i, unit_interval (rnd i))
  ∧ activeEnemies g !! index "cat" 0 = Some (MkEVO 0 33 34)
  ∧ lives g = LNum 1
  ∧ fresh g = 35%nat
  ∧ Queue.size (enemyQueue g) = 29
  ∧ outcome (handle words (Retry rnd)) g1 = Ok ()
  ∧ Queue.queue (enemyQueue g2)
    = seq (fresh g) (Z.to_nat (30 - Queue.size (enemyQueue g)))
  ∧ Queue.size (enemyQueue g2) = Z.max (Queue.size (enemyQueue g)) 30.
Proof.
  intros words rnd g g1 g2.
  assert (words ≠ []) as Hw by discriminate.
  assert (∀ i, unit_interval (rnd i)) as Hr by (intros i; by split).
  assert (activeEnemies g !! index "cat" 0 = Some (MkEVO 0 33 34)) as Hk
    by (by vm_compute).
  assert (lives g = LNum 1) as Hl by (by vm_compute).
  split; [exact Hw|]. split; [exact Hr|]. split; [exact Hk|]. split; [exact Hl|].
  split; [by vm_compute|]. split; [by vm_compute|].
  exact (retry_refills_by_stale_size words rnd g "cat" _ 1 Hw Hr Hk Hl ltac:(lia)).
Defined.

(** ** Further properties: typing a word *)

Ltac solve_listeners :=
  let g := fresh "g" in
  let H := fresh "H" in
  intros g H; unfold keydownListeners in *; simpl;
  rewrite ?List.filter_app, ?length_app; simpl; rewrite ?Nat.add_0_r; exact H.

Lemma handleKeyPress_keeps_listeners (key : string) (n : nat) :
  keeps (λ g, keydownListeners g = n) (_handleKeyPress key).
Proof. unfold _handleKeyPress. keeps_auto solve_listeners. Qed.

(** With a single listener a key press is one call of the handler. *)
Lemma keydown_single (key : string) (g : Game) :
  keydownListeners g = 1%nat →
  keydown key g = exec (_handleKeyPress key) g
  ∧ keydownListeners (keydown key g) = 1%nat.
Proof.
  intros H. unfold keydown. rewrite H. cbn [Nat.iter]. split; [done|].
  by apply handleKeyPress_keeps_listeners.
Qed.

(** The keys of the rest of a word, typed on its target. *)
Lemma press_rest (w : string) (t : EnemyValueObject) (rest : list ascii) :
  w ≠ EmptyString →
  Forall (λ c, lower_ascii c = c) rest →
  ∀ (k : nat) (g : Game),
    drop k (list_ascii_of_string w) = rest →
    (k < String.length w)%nat →
    currentTarget g = Some t →
    protocol_inv w (deref g (enemy t)) →
    Enemy.typed (deref g (enemy t)) = k →
    keydownListeners g = 1%nat →
    let g' := press ((λ c, String c EmptyString) <$> rest) g in
    currentTarget g' = None
    ∧ Enemy.defeated (deref g' (enemy t)) = true
    ∧ score g' = score g + (Z.of_nat (String.length w) + streak g)
    ∧ streak g' = streak g + Qceiling (1 + difficultyLevel g)
    ∧ activeEnemies g' = delete (index w 0) (activeEnemies g).
Proof.
  intros Hw Hlow. induction Hlow as [|c rest Hc _ IH];
    intros k g Hdrop Hk Ht Hinv Hty Hone.
  - apply (f_equal length) in Hdrop.
    rewrite length_drop, length_list_ascii in Hdrop. simpl in Hdrop. lia.
  - assert (list_ascii_of_string w !! k = Some c) as Hget.
    { rewrite <- (Nat.add_0_r k), <- lookup_drop, Hdrop. done. }
    assert (drop (S k) (list_ascii_of_string w) = rest) as Hdrop'.
    { pose proof (drop_S _ _ _ Hget) as Hd. rewrite Hdrop in Hd.
      by injection Hd as <-. }
    assert (Enemy.defeated (deref g (enemy t)) = false) as Hdef.
    { destruct (Enemy.defeated (deref g (enemy t))) eqn:E; [|done].
      apply (inv_defeated _ _ Hinv) in E. lia. }
    pose proof (protocol_inv_step w _ Hw Hinv Hdef) as Hinv'.
    assert (VStr (toLowerCase (String c EmptyString))
            = Enemy.next (deref g (enemy t))) as Hkey.
    { rewrite (inv_next _ _ Hinv), Hty, decide_True by done.
      unfold index. rewrite get_list_ascii, Hget. simpl. by rewrite Hc. }
    cbn [fmap list_fmap press fold_left].
    change (fold_left _ ((λ c, String c EmptyString) <$> rest) ?h)
      with (press ((λ c, String c EmptyString) <$> rest) h).
    destruct (keydown_single (String c EmptyString) g Hone) as [-> Hone'].
    destruct (decide (S k < String.length w)%nat) as [Hlt|Hge].
    + assert (Enemy.next (Enemy.updateCompletionPercentage
                            (deref g (enemy t))) ≠ VNull) as Hn.
      { rewrite (inv_next _ _ Hinv'). simpl. rewrite Hty, Nat.add_1_r.
        rewrite decide_True by done.
        destruct (index_lt w (S k) Hlt) as [c' ->]. done. }
      destruct (keypress_continue g t _ Ht Hkey Hn)
        as (Ht1 & He1 & Hs1 & Hst1 & Ha1 & Hl1).
      destruct (IH (S k) (exec (_handleKeyPress (String c EmptyString)) g))
        as (R1 & R2 & R3 & R4 & R5); try done.
      * by rewrite He1.
      * rewrite He1. simpl. lia.
      * rewrite R3, R4, R5, Hs1, Hst1, Ha1, Hl1. done.
    + assert (Enemy.next (Enemy.updateCompletionPercentage
                            (deref g (enemy t))) = VNull) as Hn.
      { rewrite (inv_next _ _ Hinv'). simpl. rewrite Hty, Nat.add_1_r.
        by rewrite decide_False. }
      destruct (keypress_finish g t _ Ht Hkey Hn)
        as (_ & Ht1 & He1 & Hs1 & Hst1 & Ha1 & _).
      rewrite (inv_word _ _ Hinv) in Hs1, Ha1.
      assert (rest = []) as ->.
      { apply (f_equal length) in Hdrop'.
        rewrite length_drop, length_list_ascii in Hdrop'.
        destruct rest; [done | simpl in Hdrop'; lia]. }
      cbn [fmap list_fmap press fold_left].
      split; [done|]. split; [|done].
      rewrite He1. apply (inv_defeated _ _ Hinv'). simpl. lia.
Qed.

(** X10: typing a word in the first game. While the document has a single
    keydown listener (the game was started once), with no target selected,
    pressing the characters of an active, untouched word of two letters or
    more that holds no upper-case letter, one key per character, selects it
    with the first key and clears it with the last: the score grows by the
    length of the word plus the streak, the streak by
    [ceil(1 + difficultyLevel)], the entry leaves the registry and no target
    is left. *)
Theorem typing_a_word (g : Game) (wt : EnemyValueObject) (w : string) :
  keydownListeners g = 1%nat →
  currentTarget g = None →
  activeEnemies g !! index w 0 = Some wt →
  deref g (enemy wt) = Enemy.new w →
  (2 ≤ String.length w)%nat →
  toLowerCase w = w →
  let g' := press (keys_of w) g in
  currentTarget g' = None
  ∧ Enemy.defeated (deref g' (enemy wt)) = true
  ∧ score g' = score g + (Z.of_nat (String.length w) + streak g)
  ∧ streak g' = streak g + Qceiling (1 + difficultyLevel g)
  ∧ activeEnemies g' = delete (index w 0) (activeEnemies g).
Proof.
  intros Hone Ht Hk He Hlen Hlow.
  assert (w ≠ EmptyString) as Hw by (intros ->; simpl in Hlen; lia).
  pose proof (lowercase_chars w Hlow) as Hall.
  unfold keys_of. destruct w as [|c0 w']; [done|].
  cbn [list_ascii_of_string fmap list_fmap press fold_left].
  change (fold_left _ ((λ c, String c EmptyString) <$> ?l) ?h)
    with (press ((λ c, String c EmptyString) <$> l) h).
  change (index (String c0 w') 0) with (VStr (String c0 EmptyString)) in Hk.
  destruct (keydown_single (String c0 EmptyString) g Hone) as [-> Hone'].
  destruct (keypress_select g _ wt Ht Hk) as (_ & Ht1 & He1 & Hs1 & Hst1 & Ha1 & Hl1).
  apply Forall_cons in Hall as [_ Hall].
  destruct (press_rest (String c0 w') wt (list_ascii_of_string w') Hw Hall 1
              (exec (_handleKeyPress (String c0 EmptyString)) g))
    as (R1 & R2 & R3 & R4 & R5); try done.
  - rewrite He1, He. apply protocol_inv_step; [done | | done].
    by apply protocol_inv_new.
  - by rewrite He1, He.
  - rewrite R3, R4, R5, Hs1, Hst1, Ha1, Hl1. done.
Qed.

Lemma typing_a_word_witness :
  let words := ["cat"; "dog"]%string in
  let g := run words [Start "Normal" (λ _, 0%Q); SpawnTick 0 0] new_Game in
  let wt := MkEVO 0 33 34 in
  let g' := press (keys_of "cat") g in
  keydownListeners g = 1%nat
  ∧ currentTarget g = None
  ∧ activeEnemies g !! index "cat" 0 = Some wt
  ∧ deref g (enemy wt) = Enemy.new "cat"
  ∧ currentTarget g' = None
  ∧ score g' = score g + (3 + streak g)
  ∧ activeEnemies g' = delete (VStr "c") (activeEnemies g).
Proof.
  intros words g wt g'.
  assert (keydownListeners g = 1%nat) as Hone by (by vm_compute).
  assert (currentTarget g = None) as Ht by (by vm_compute).
  assert (activeEnemies g !! index "cat" 0 = Some wt) as Hk by (by vm_compute).
  assert (deref g (enemy wt) = Enemy.new "cat") as He by (by vm_compute).
  assert (2 ≤ String.length "cat")%nat as Hl by (simpl; lia).
  destruct (typing_a_word g wt "cat" Hone Ht Hk He Hl eq_refl)
    as (H1 & _ & H3 & _ & H5).
  split; [exact Hone|]. split; [exact Ht|]. split; [exact Hk|]. split; [exact He|].
  split; [exact H1|]. split; [exact H3 | exact H5].
Defined.

(** ** Further properties: the keydown listeners *)







